(** * Inciter mesh partitioner: node reordering, bounds and cost

    A shallow embedding of the member functions of the Charm++ chare
    group [Partitioner] (src/Inciter/Partitioner.h) together with the
    properties of the chare-to-PE distribution, the node grouping, the
    reordering step, the bounds exchange and the communication cost.

    Conventions of the embedding:
    - [std::size_t] is an [N] below [2^64]; increments wrap.
    - [int] is a [Z]; [/] and [%] on [int] truncate toward zero
      ([Z.quot], [Z.rem]); a zero divisor is a fault.
    - [std::unordered_map<K,V>] is a [gmap K V], [std::set<K>] a [gset K];
      a range-for over a map walks [map_to_list], whose order is the
      container's own.
    - [std::vector<T>] is a [list T].
    - [tk::real] (a double) is an exact rational; a quotient with a zero
      divisor has no value.
    - [Assert] is modelled as compiled in (a debug build): where every
      assertion holds, a release build computes the same.
    - an entry method returns the new object state and the log of what it
      asked of the runtime (messages, SDAG triggers), or the fault that
      stopped it. *)

From Stdlib Require Import ZArith NArith QArith Lia String.
From stdpp Require Import gmap list fin_maps pretty.

Local Open Scope Z_scope.

(** ** Faults and the result monad *)

Inductive fault : Type :=
  | AssertFailed (msg : string)   (* Assert(...) of Exception.h *)
  | ErrChkFailed (msg : string)   (* ErrChk(...) of Exception.h *)
  | KeyNotFound                   (* tk::val_find on a missing key *)
  | DivByZero                     (* integer division by zero *)
  | IntOverflow                   (* INT_MIN / -1 *)
  | PastTheEnd.                   (* dereferencing an end() iterator *)

Inductive res (A : Type) : Type :=
  | Ret (a : A)
  | Fail (e : fault).
Arguments Ret {A} a.
Arguments Fail {A} e.

#[global] Instance res_ret : MRet res := fun _ a => Ret a.
#[global] Instance res_bind : MBind res := fun _ _ f r =>
  match r with
  | Ret a => f a
  | Fail e => Fail e
  end.

(** Modelled from the spec: the macro [Assert] of Exception.h, which is
    not part of the sources at hand. An invariant violation is a
    "defensive assertion, fatal": a failed assertion stops the caller with
    its message. *)
Definition Assert (b : bool) (msg : string) : res unit :=
  if b then Ret tt else Fail (AssertFailed msg).

(** Modelled from the spec: the macro [ErrChk] of Exception.h, which is
    not part of the sources at hand. A configuration error is "reported
    with an explanatory message and treated as fatal": a failed check
    stops the caller with its message, in every build. *)
Definition ErrChk (b : bool) (msg : string) : res unit :=
  if b then Ret tt else Fail (ErrChkFailed msg).

(** Monadic left fold: the body of a range-for that may stop on a fault. *)
Fixpoint foldlM {A B : Type} (f : B -> A -> res B) (b : B) (l : list A) : res B :=
  match l with
  | [] => Ret b
  | x :: l' => b' ← f b x; foldlM f b' l'
  end.

(** ** Machine integers *)

Module Cxx.

Definition SIZE_MOD : N := (2 ^ 64)%N.
Definition INT_MIN : Z := - 2 ^ 31.

(** [++x] on a [std::size_t]. *)
Definition incr (x : N) : N := ((x + 1) mod SIZE_MOD)%N.

(** [x += y] on a [std::size_t]. *)
Definition add (x y : N) : N := ((x + y) mod SIZE_MOD)%N.

(** [static_cast<int>(x)] of a [std::size_t]: the low 32 bits, read as a
    two's-complement number. *)
Definition static_cast_int (x : N) : Z :=
  let r := Z.of_N x mod 2 ^ 32 in
  if r <? 2 ^ 31 then r else r - 2 ^ 32.

(** [a / b] on [int]. *)
Definition int_div (a b : Z) : res Z :=
  if b =? 0 then Fail DivByZero
  else if (a =? INT_MIN) && (b =? -1) then Fail IntOverflow
  else Ret (Z.quot a b).

(** [a % b] on [int]. *)
Definition int_rem (a b : Z) : res Z :=
  if b =? 0 then Fail DivByZero
  else if (a =? INT_MIN) && (b =? -1) then Fail IntOverflow
  else Ret (Z.rem a b).

(** [std::any_of(first, last, pred)] over the elements of an iterator
    range. *)
Definition any_of {A : Type} (range : list A) (pred : A -> bool) : bool :=
  existsb pred range.

(** The elements between two iterators of a container walked as [l]; an
    iterator is the position it points at, [cbegin] is [0] and [cend] the
    length. *)
Definition iter_range {A : Type} (l : list A) (first last : nat) : list A :=
  take (last - first) (drop first l).

(** [std::max_element(first, last, comp)]: the first largest element, or
    [last] (here [None]) on an empty range. *)
Definition max_element {A : Type} (comp : A -> A -> bool) (l : list A) : option A :=
  match l with
  | [] => None
  | x :: l' => Some (foldl (fun largest y => if comp largest y then y else largest) x l')
  end.

End Cxx.

(** ** The chare distribution: [chareDistribution] and [pe] *)

(** [Partitioner::chareDistribution], as a function of [m_nchare],
    [CkNumPes()] and [CkMyPe()]. *)
Definition chareDistribution (m_nchare CkNumPes CkMyPe : Z) : res (Z * Z) :=
  chunksize ← Cxx.int_div m_nchare CkNumPes;
  let mynchare := chunksize in
  mynchare ← (if CkMyPe =? CkNumPes - 1
              then r ← Cxx.int_rem m_nchare CkNumPes; Ret (mynchare + r)
              else Ret mynchare);
  Ret (chunksize, mynchare).

(** [Partitioner::pe]. *)
Definition pe (m_nchare CkNumPes id : Z) : res Z :=
  chunk ← Cxx.int_div m_nchare CkNumPes;
  p ← Cxx.int_div id chunk;
  let p := if p >=? CkNumPes then CkNumPes - 1 else p in
  _ ← Assert (p <? CkNumPes) "Assigning to nonexistent PE";
  Ret p.

(** The chare IDs a PE owns, as [distribute] and [create] enumerate them:
    [CkMyPe() * chunksize + c] for [c] in [0, mynchare). *)
Definition owned_chares (m_nchare CkNumPes CkMyPe : Z) : res (list Z) :=
  '(chunksize, mynchare) ← chareDistribution m_nchare CkNumPes CkMyPe;
  Ret (map (fun c => CkMyPe * chunksize + Z.of_nat c) (seq 0 (Z.to_nat mynchare))).

(** The distribution function in the words of the specification:
    [owner(unitID) = unitID / ceil(nUnits/nProcesses)]. *)
Definition ceil_div (a b : Z) : Z := (a + b - 1) / b.
Definition owner (nUnits nProcesses unitID : Z) : Z :=
  unitID / ceil_div nUnits nProcesses.

(** ** Node grouping: [chareNodes] *)

Definition overdecomposition : string :=
  "Overdecomposition of the mesh is too large compared to the number of work units computed based on the degree of virtualization desired. As a result, there would be at least one work unit with no mesh elements to work on, i.e., nothing to do. Solution 1: decrease the virtualization to a lower value using the command-line argument '-u'. Solution 2: decrease the number processing elements (PEs) using the charmrun command-line argument '+pN' where N is the number of PEs, which implicitly increases the size (and thus decreases the number) of work units.)".

(** The inner loop of [chareNodes]:
    [for (n=0; n<4; ++n) c.push_back( m_tetinpoel[e*4+n] )]. *)
Definition push_elem_nodes (m_tetinpoel : list N) (e : nat) (c : list N) : list N :=
  foldl (fun c n => c ++ [m_tetinpoel !!! (e * 4 + n)%nat]) c (seq 0 4).

(** The body of the outer loop of [chareNodes], for element [e]:
    [nodes[static_cast<int>(che[e])]] creates an empty vector for a chare
    seen for the first time. *)
Definition categorize_elem (m_tetinpoel che : list N)
    (nodes : gmap Z (list N)) (e : nat) : gmap Z (list N) :=
  let k := Cxx.static_cast_int (che !!! e) in
  let c := default [] (nodes !! k) in
  <[k := push_elem_nodes m_tetinpoel e c]> nodes.

(** The outer loop of [chareNodes], [for (e=0; e<che.size(); ++e)]. *)
Definition categorize (m_tetinpoel che : list N) : gmap Z (list N) :=
  foldl (categorize_elem m_tetinpoel che) ∅ (seq 0 (length che)).

(** The overdecomposition check of [chareNodes]. *)
Definition check_groupings (nodes : gmap Z (list N)) : res unit :=
  foldlM (fun _ (c : Z * list N) =>
            ErrChk (negb (bool_decide (c.2 = []))) overdecomposition)
         tt (map_to_list nodes).

(** [Partitioner::chareNodes]. *)
Definition chareNodes (m_gelemid m_tetinpoel che : list N) : res (gmap Z (list N)) :=
  _ ← Assert (length che =? length m_gelemid)%nat
        "The size of the global element index and the chare element arrays must equal";
  _ ← Assert (length che =? length m_tetinpoel / 4)%nat
        "The size of the mesh connectivity / 4 and the chare element arrays must equal";
  let nodes := categorize m_tetinpoel che in
  _ ← Assert (negb (bool_decide (nodes = ∅)))
        "No nodes have been assigned to chares on PE";
  _ ← check_groupings nodes;
  Ret nodes.

(** The four node IDs of element [e] in the connectivity, and the chare
    [che] assigns element [e] to. *)
Definition elem_nodes (m_tetinpoel : list N) (e : nat) : list N :=
  [m_tetinpoel !!! (e * 4 + 0)%nat; m_tetinpoel !!! (e * 4 + 1)%nat;
   m_tetinpoel !!! (e * 4 + 2)%nat; m_tetinpoel !!! (e * 4 + 3)%nat].
Definition elem_chare (che : list N) (e : nat) : Z :=
  Cxx.static_cast_int (che !!! e).

(** The elements among [es] that [che] assigns to chare [c], in order. *)
Definition elems_of (che : list N) (c : Z) (es : list nat) : list nat :=
  List.filter (fun e => bool_decide (elem_chare che e = c)) es.

(** ** The object state, messages and the runtime log *)

(** The data members of [Partitioner] the reordering works on. *)
Record Partitioner : Type := mkPartitioner {
  m_req : list (Z * gset N);
  m_reordered : N;
  m_lower : N;
  m_upper : N;
  m_node : gmap Z (list N);
  m_id : list N;
  m_newid : gmap N N;
  m_chcid : gmap Z (gmap N N)
}.

(** Entry-method invocations on a fellow group member. *)
Inductive msg : Type :=
  | MsgRequest (pe : Z) (id : gset N)
  | MsgNeworder (id : gmap N N)
  | MsgLower (low : N).

(** Structured-dagger calls (generated from partitioner.ci). *)
Inductive sdag : Type :=
  | wait4prep
  | wait4bounds
  | trigger_reorderowned_complete
  | trigger_nodes_requested
  | trigger_upper
  | trigger_lower.

Inductive effect : Type :=
  | Send (dest : Z) (m : msg)      (* Group::thisProxy[ dest ].m *)
  | Sdag (s : sdag).

(** Modelled from the spec: [tk::val_find] of ContainerUtil.h, which is
    not part of the sources at hand. The old-to-new mapping [m_newid] is
    read by key ("translating old→new"); a key that is absent stops the
    caller. *)
Definition val_find (m : gmap N N) (key : N) : res N :=
  match m !! key with
  | Some v => Ret v
  | None => Fail KeyNotFound
  end.

(** ** [lower], [bounds] *)

(** [Partitioner::lower]. *)
Definition lower (low : N) (st : Partitioner) : Partitioner * list effect :=
  (mkPartitioner (m_req st) (m_reordered st) low (m_upper st)
                 (m_node st) (m_id st) (m_newid st) (m_chcid st),
   [Sdag trigger_lower]).

(** The body of the loop of [bounds], for the entry [c] of [m_chcid]:
    the largest key of the chare's map, compared with [m_upper]. *)
Definition upper_of_chare (upper : N) (c : Z * gmap N N) : res N :=
  match Cxx.max_element (fun a b : N * N => (a.1 <? b.1)%N)
                        (map_to_list c.2) with
  | None => Fail PastTheEnd
  | Some x => Ret (if (upper <? x.1)%N then x.1 else upper)
  end.

(** The loop of [bounds] over [m_chcid], from [m_upper = 0]. *)
Definition bounds_upper (chcid : gmap Z (gmap N N)) : res N :=
  foldlM upper_of_chare 0%N (map_to_list chcid).

(** [Partitioner::bounds]. *)
Definition bounds (CkMyPe CkNumPes : Z) (st : Partitioner)
  : res (Partitioner * list effect) :=
  upper ← bounds_upper (m_chcid st);
  let upper := if CkMyPe =? CkNumPes - 1 then Cxx.incr upper else upper in
  let st := mkPartitioner (m_req st) (m_reordered st) (m_lower st) upper
                          (m_node st) (m_id st) (m_newid st) (m_chcid st) in
  let log := [Sdag trigger_upper] in
  let '(st, log) :=
    if CkMyPe =? 0 then let '(st', l) := lower 0 st in (st', log ++ l)
    else (st, log) in
  let log :=
    if CkMyPe <? CkNumPes - 1
    then log ++ [Send (CkMyPe + 1) (MsgLower (m_upper st))]
    else log in
  Ret (st, log).

(** ** [reordered] *)

(** The inner loop of the first loop of [reordered], on the map [m] of
    one chare: [for (auto p : c.second) m[ tk::val_find(m_newid,p) ] = p]. *)
Definition invert_nodes (newid : gmap N N) (m : gmap N N) (nodes : list N)
  : res (gmap N N) :=
  foldlM (fun m p => v ← val_find newid p; Ret (<[v := p]> m)) m nodes.

(** The body of the first loop of [reordered], for the entry [c] of
    [m_node]: [auto& m = m_chcid[ c.first ]] creates an empty map for a
    chare seen for the first time. *)
Definition invert_chare (newid : gmap N N) (chcid : gmap Z (gmap N N))
    (c : Z * list N) : res (gmap Z (gmap N N)) :=
  let m := default ∅ (chcid !! c.1) in
  m ← invert_nodes newid m c.2;
  Ret (<[c.1 := m]> chcid).

(** First loop of [reordered]: the per-chare inverse maps. *)
Definition build_chcid (newid : gmap N N) (node : gmap Z (list N))
    (chcid : gmap Z (gmap N N)) : res (gmap Z (gmap N N)) :=
  foldlM (invert_chare newid) chcid (map_to_list node).

(** [for (auto& p : v) p = tk::val_find( m_newid, p )]. *)
Definition renumber (newid : gmap N N) (v : list N) : res (list N) :=
  foldlM (fun acc p => q ← val_find newid p; Ret (acc ++ [q])) [] v.

(** Second loop of [reordered]: [m_node] is rewritten in place. *)
Definition renumber_node (newid : gmap N N) (node : gmap Z (list N))
  : res (gmap Z (list N)) :=
  foldlM (fun acc (c : Z * list N) =>
            v ← renumber newid c.2; Ret (<[c.1 := v]> acc))
         node (map_to_list node).

(** [Partitioner::reordered]. *)
Definition reordered (CkMyPe CkNumPes : Z) (st : Partitioner)
  : res (Partitioner * list effect) :=
  chcid ← build_chcid (m_newid st) (m_node st) (m_chcid st);
  node ← renumber_node (m_newid st) (m_node st);
  id ← renumber (m_newid st) (m_id st);
  bounds CkMyPe CkNumPes
         (mkPartitioner (m_req st) (m_reordered st) (m_lower st) (m_upper st)
                        node id (m_newid st) chcid).

(** ** [reorder], [request], [neworder], [prepare] *)

(** The lambda [own] of [reorder]: both iterators handed to [std::any_of]
    are [comm.cbegin()]. *)
Definition own (comm : gmap Z (gset N)) (p : N) : bool :=
  let cbegin := 0%nat in
  negb (Cxx.any_of (Cxx.iter_range (map_to_list comm) cbegin cbegin)
                   (fun s : Z * gset N =>
                      if bool_decide (p ∈ s.2) then true else false)).

(** The assignment loop of [reorder], on [(n, m_newid, m_reordered)]. *)
Definition assign_owned (comm : gmap Z (gset N)) (id : list N)
    (s : N * gmap N N * N) : N * gmap N N * N :=
  foldl (fun '(n, newid, reord) p =>
           if own comm p
           then (Cxx.incr n, <[p := n]> newid, Cxx.incr reord)
           else (n, newid, reord))
        s id.

(** [Partitioner::reorder]. *)
Definition reorder (CkMyPe CkNumPes : Z) (n : N) (comm : gmap Z (gset N))
    (st : Partitioner) : res (Partitioner * list effect) :=
  let log := [Sdag wait4prep; Sdag wait4bounds] in
  let log := log ++ map (fun c : Z * gset N => Send c.1 (MsgRequest CkMyPe c.2))
                        (map_to_list comm) in
  let '(_, newid, reord) :=
    assign_owned comm (m_id st) (n, m_newid st, m_reordered st) in
  let st := mkPartitioner (m_req st) reord (m_lower st) (m_upper st)
                          (m_node st) (m_id st) newid (m_chcid st) in
  let log := log ++ [Sdag trigger_reorderowned_complete] in
  if (m_reordered st =? N.of_nat (length (m_id st)))%N
  then '(st', l) ← reordered CkMyPe CkNumPes st; Ret (st', log ++ l)
  else Ret (st, log).

(** [Partitioner::request]. *)
Definition request (pe : Z) (id : gset N) (st : Partitioner)
  : Partitioner * list effect :=
  (mkPartitioner (m_req st ++ [(pe, id)]) (m_reordered st) (m_lower st)
                 (m_upper st) (m_node st) (m_id st) (m_newid st) (m_chcid st),
   [Sdag trigger_nodes_requested]).

(** [Partitioner::neworder]. *)
Definition neworder (CkMyPe CkNumPes : Z) (id : gmap N N) (st : Partitioner)
  : res (Partitioner * list effect) :=
  let newid := foldl (fun m (p : N * N) => <[p.1 := p.2]> m)
                     (m_newid st) (map_to_list id) in
  let reord := Cxx.add (m_reordered st) (N.of_nat (size id)) in
  let st := mkPartitioner (m_req st) reord (m_lower st) (m_upper st)
                          (m_node st) (m_id st) newid (m_chcid st) in
  if (m_reordered st =? N.of_nat (length (m_id st)))%N
  then reordered CkMyPe CkNumPes st
  else Ret (st, []).

(** [Partitioner::prepare]. *)
Definition prepare (st : Partitioner) : res (Partitioner * list effect) :=
  log ← foldlM (fun log (r : Z * gset N) =>
                  n ← foldlM (fun n p => v ← val_find (m_newid st) p;
                                         Ret (<[p := v]> n))
                             (∅ : gmap N N) (elements r.2);
                  Ret (log ++ [Send r.1 (MsgNeworder n)]))
               [] (m_req st);
  Ret (mkPartitioner [] (m_reordered st) (m_lower st) (m_upper st)
                     (m_node st) (m_id st) (m_newid st) (m_chcid st),
       log ++ [Sdag wait4prep; Sdag trigger_reorderowned_complete]).

(** ** [cost] *)

(** The counting loop of [cost]: [(ownpts, compts)]. *)
Definition cost_count (lower upper : N) (id : list N) : N * N :=
  foldl (fun '(ownpts, compts) p =>
           if (lower <=? p)%N && (p <? upper)%N   (* p >= lower && p < upper *)
           then (Cxx.incr ownpts, compts)
           else (ownpts, Cxx.incr compts))
        (0%N, 0%N) id.

(** A quotient of two [tk::real]s converted from [std::size_t]. *)
Definition real_div (a b : N) : option Q :=
  if (b =? 0)%N then None
  else Some (inject_Z (Z.of_N a) / inject_Z (Z.of_N b))%Q.

(** [Partitioner::cost]. *)
Definition cost (lower upper : N) (st : Partitioner) : option Q :=
  let '(ownpts, compts) := cost_count lower upper (m_id st) in
  real_div compts (Cxx.add ownpts compts).

(** A contributed node ID the PE owns: it lies in [lower, upper). *)
Definition in_bounds (lower upper p : N) : bool :=
  (lower <=? p)%N && (p <? upper)%N.

(** ** The group during the bounds exchange *)


Definition sends (log : list effect) : list (Z * msg) :=
  omap (fun e => match e with
                 | Send dest m => Some (dest, m)
                 | Sdag _ => None
                 end) log.



(** [k] is the new ID of a node some chare of the PE contributes to: a key
    of one of the inverse maps. *)
Definition new_id_of (chcid : gmap Z (gmap N N)) (k : N) : Prop :=
  exists c m, chcid !! c = Some m /\ is_Some (m !! k).

(** [u] is the largest new ID among the nodes the chares of the PE
    contribute to, or 0 when there is none. *)
Definition max_new_id (chcid : gmap Z (gmap N N)) (u : N) : Prop :=
  (new_id_of chcid u /\ forall k, new_id_of chcid k -> (k <= u)%N) \/
  ((forall k, ~ new_id_of chcid k) /\ u = 0%N).



(** ** Distributing the node groups: [distribute], [add], [recv] *)

(** [std::unordered_map::insert( value )]: the pair is stored unless its
    key is already there. *)
Definition map_insert_new {V : Type} (k : Z) (v : V) (m : gmap Z V) : gmap Z V :=
  match m !! k with
  | Some _ => m
  | None => <[k := v]> m
  end.

Module Distribution.

(** Entry-method invocations of the distribution phase. *)
Inductive dist_msg : Type :=
  | MsgAdd (frompe : Z) (n : gmap Z (list N))
  | MsgRecv.

Inductive dist_effect : Type :=
  | DSend (dest : Z) (m : dist_msg)       (* Group::thisProxy[ dest ].m *)
  | Signal2host_distribution_complete.

(** [Partitioner::recvnodes]. *)
Definition recvnodes (m_npe : N) : bool := (m_npe =? 0)%N.

(** [--x] on a [std::size_t]. *)
Definition decr (x : N) : N := ((x + (Cxx.SIZE_MOD - 1)) mod Cxx.SIZE_MOD)%N.

(** The body of the first loop of [distribute], for the owned chare ID
    [chid], on [(m_node, n)]. *)
Definition take_owned (chid : Z)
    (s : gmap Z (list N) * gmap Z (list N))
  : res (gmap Z (list N) * gmap Z (list N)) :=
  let '(node, n) := s in
  let '(node, n) :=
    match n !! chid with                       (* n.find( chid ) *)
    | Some v => (map_insert_new chid v node, delete chid n)
    | None => (node, n)
    end in
  _ ← Assert (bool_decide (n !! chid = None)) "Not all owned node IDs stored";
  Ret (node, n).

(** The export map of [distribute]:
    [for (auto&& c : n) exp[ pe(c.first) ].insert( std::move(c) )]. *)
Definition export_entry (m_nchare CkNumPes : Z)
    (exp : gmap Z (gmap Z (list N))) (c : Z * list N)
  : res (gmap Z (gmap Z (list N))) :=
  p ← pe m_nchare CkNumPes c.1;
  Ret (<[p := map_insert_new c.1 c.2 (default ∅ (exp !! p))]> exp).

Definition export_map (m_nchare CkNumPes : Z) (n : gmap Z (list N))
  : res (gmap Z (gmap Z (list N))) :=
  foldlM (export_entry m_nchare CkNumPes) ∅ (map_to_list n).

(** [Partitioner::distribute], on [m_node]; it returns the new [m_node]
    and [m_npe]. The owned chare ID [CkMyPe() * chunksize + c] does not
    overflow an [int] for a rank below [CkNumPes()]. *)
Definition distribute (m_nchare CkNumPes CkMyPe : Z)
    (n : gmap Z (list N)) (m_node : gmap Z (list N))
  : res (gmap Z (list N) * N * list dist_effect) :=
  '(chunksize, mynchare) ← chareDistribution m_nchare CkNumPes CkMyPe;
  '(node, n) ← foldlM (fun s c => take_owned (CkMyPe * chunksize + Z.of_nat c) s)
                      (m_node, n) (seq 0 (Z.to_nat mynchare));
  exp ← export_map m_nchare CkNumPes n;
  let m_npe := N.of_nat (size exp) in
  let log := map (fun p : Z * gmap Z (list N) => DSend p.1 (MsgAdd CkMyPe p.2))
                 (map_to_list exp) in
  let log := if recvnodes m_npe
             then log ++ [Signal2host_distribution_complete] else log in
  Ret (node, m_npe, log).

(** The message of the assertion of [add]; [std::to_string] of an [int]
    is its decimal notation. *)
Definition add_msg (CkMyPe : Z) : string :=
  "PE " +:+ pretty CkMyPe +:+
  " received a chareid-nodeidx-vector pair whose chare it does not own".

(** The body of the loop of [add], for the entry [c] of the received map. *)
Definition add_chare (m_nchare CkNumPes CkMyPe : Z)
    (node : gmap Z (list N)) (c : Z * list N) : res (gmap Z (list N)) :=
  p ← pe m_nchare CkNumPes c.1;
  _ ← Assert (p =? CkMyPe) (add_msg CkMyPe);
  Ret (<[c.1 := default [] (node !! c.1) ++ c.2]> node).

(** [Partitioner::add], on [m_node]. *)
Definition add (m_nchare CkNumPes CkMyPe : Z) (frompe : Z)
    (n : gmap Z (list N)) (m_node : gmap Z (list N))
  : res (gmap Z (list N) * list dist_effect) :=
  node ← foldlM (add_chare m_nchare CkNumPes CkMyPe) m_node (map_to_list n);
  Ret (node, [DSend frompe MsgRecv]).

(** [Partitioner::recv], on [m_npe]. *)
Definition recv (m_npe : N) : N * list dist_effect :=
  let m_npe := decr m_npe in
  (m_npe, if recvnodes m_npe then [Signal2host_distribution_complete] else []).

(** [k] acknowledgements in a row: the counter and everything signalled. *)
Fixpoint recv_times (k : nat) (m_npe : N) : N * list dist_effect :=
  match k with
  | O => (m_npe, [])
  | S k' => let '(m_npe', log) := recv m_npe in
            let '(m_npe'', log') := recv_times k' m_npe' in
            (m_npe'', log ++ log')
  end.

End Distribution.

(** What the export map holds after the entries [done]. *)
Definition exports_of (m_nchare CkNumPes : Z) (done : list (Z * list N))
    (exp : gmap Z (gmap Z (list N))) : Prop :=
  (forall p c v,
     (exists m, exp !! p = Some m /\ m !! c = Some v) <->
     ((c, v) ∈ done /\ pe m_nchare CkNumPes c = Ret p)) /\
  (forall p m, exp !! p = Some m -> m <> ∅).

(** The destinations of the [add] messages of a log, in the order sent. *)
Definition add_dests (log : list Distribution.dist_effect) : list Z :=
  omap (fun e => match e with
                 | Distribution.DSend p (Distribution.MsgAdd _ _) => Some p
                 | _ => None
                 end) log.

(** How many times a log signals [distribution_complete] to the host. *)
Definition count_signals (log : list Distribution.dist_effect) : nat :=
  length (List.filter
            (fun e => match e with
                           | Distribution.Signal2host_distribution_complete
                             => true
                           | _ => false
                           end) log).

(** ** Reading the graph: the element range of [readGraph] *)

(** The range [from, till) of global element IDs [readGraph] takes for a
    PE out of [nel] tetrahedra, the extents it hands to the mesh reader
    and the element IDs it stores in [m_gelemid]. *)
Record graph_chunk : Type := mkGraphChunk {
  chunk_from : Z;
  chunk_till : Z;
  chunk_ext : N * N;
  chunk_gelemid : list N
}.

(** [static_cast<std::size_t>(x)] of an [int]. *)
Definition static_cast_size_t (x : Z) : N := Z.to_N (x mod 2 ^ 64).

(** The arithmetic of [Partitioner::readGraph]; the reader calls around it
    are the mesh reader's. The type of [nel] is declared in the mesh
    reader's header, which is not among the sources at hand; it is taken
    here as [int], which the casts of [from] and [till] to [std::size_t]
    suggest. The properties below are stated for [0 <= nel < 2^31] and
    [1 <= CkNumPes], where an unsigned [nel] gives the same values. *)
Definition readGraph (nel CkNumPes CkMyPe : Z) : res graph_chunk :=
  chunk ← Cxx.int_div nel CkNumPes;
  let from := CkMyPe * chunk in
  let till := from + chunk in
  till ← (if CkMyPe =? CkNumPes - 1
          then r ← Cxx.int_rem nel CkNumPes; Ret (till + r)
          else Ret till);
  let ext := (static_cast_size_t from, static_cast_size_t (till - 1)) in
  let gelemid := map (fun i => static_cast_size_t (from + Z.of_nat i))
                     (seq 0 (N.to_nat (static_cast_size_t (till - from)))) in
  Ret (mkGraphChunk from till ext gelemid).

(** ** Creating the workers: [create] *)

Inductive create_effect : Type :=
  | Avecost (c : option Q)              (* signal2host_avecost: m_cost *)
  | InsertWorker (cid : Z) (node : list N) (chcid : gmap N N) (onpe : Z)
  | DoneInserting
  | MergerBounds (pe : Z) (lower upper : N).

(** Modelled from the spec: [tk::cref_find] of ContainerUtil.h, which is
    not part of the sources at hand. A map is read by key; a key that is
    absent stops the caller. *)
Definition cref_find {V : Type} (m : gmap Z V) (key : Z) : res V :=
  match m !! key with
  | Some v => Ret v
  | None => Fail KeyNotFound
  end.

(** [Partitioner::create]. *)
Definition create (m_nchare CkNumPes CkMyPe : Z) (st : Partitioner)
  : res (list create_effect) :=
  let log := [Avecost (cost (m_lower st) (m_upper st) st)] in
  chunksize ← Cxx.int_div m_nchare CkNumPes;
  let mynchare := chunksize in
  mynchare ← (if CkMyPe =? CkNumPes - 1
              then r ← Cxx.int_rem m_nchare CkNumPes; Ret (mynchare + r)
              else Ret mynchare);
  log ← foldlM (fun log c =>
                  let cid := CkMyPe * chunksize + Z.of_nat c in
                  node ← cref_find (m_node st) cid;
                  chcid ← cref_find (m_chcid st) cid;
                  Ret (log ++ [InsertWorker cid node chcid CkMyPe]))
               log (seq 0 (Z.to_nat mynchare));
  Ret (log ++ [DoneInserting; MergerBounds CkMyPe (m_lower st) (m_upper st)]).

(** ** Partitioning and flattening: [partition], [flatten] *)

(** [Partitioner::partition], for the answer [che] of the mesh
    partitioner [tk::zoltan::geomPartMesh], which is a library's. *)
Definition partition (nchare CkNumPes CkMyPe : Z)
    (m_gelemid m_tetinpoel che : list N) (m_node : gmap Z (list N))
  : res (gmap Z (list N) * N * list Distribution.dist_effect) :=
  let m_nchare := nchare in
  _ ← Assert (length che =? length m_gelemid)%nat
        "Size of ownership array does not equal the number of mesh graph elements";
  n ← chareNodes m_gelemid m_tetinpoel che;
  Distribution.distribute m_nchare CkNumPes CkMyPe n m_node.

Inductive flatten_effect : Type :=
  | Signal2host_flatten_complete
  | Signal2host_addnodes (gid : list N).

(** The message of the assertion of [flatten]. *)
Definition flatten_msg (CkMyPe : Z) : string :=
  "Global mesh nodes ids associated to chares on PE " +:+ pretty CkMyPe +:+
  " is incomplete".

(** [Partitioner::flatten]. [tk::unique] is declared in ContainerUtil.h,
    which is not among the sources at hand, so [flatten] takes it as the
    function [unique]; the comparison of [m_node.size()] with the [int]
    [mynchare] converts the latter to [std::size_t]. *)
Definition flatten (unique : list N -> list N) (m_nchare CkNumPes CkMyPe : Z)
    (st : Partitioner) : res (Partitioner * list flatten_effect) :=
  '(chunksize, mynchare) ← chareDistribution m_nchare CkNumPes CkMyPe;
  _ ← Assert (N.of_nat (size (m_node st)) =? static_cast_size_t mynchare)%N
        (flatten_msg CkMyPe);
  let id := foldl (fun id (c : Z * list N) => id ++ c.2)
                  (m_id st) (map_to_list (m_node st)) in
  let id := unique id in
  Ret (mkPartitioner (m_req st) (m_reordered st) (m_lower st) (m_upper st)
                     (m_node st) id (m_newid st) (m_chcid st),
       [Signal2host_flatten_complete; Signal2host_addnodes id]).

(** What the properties of [flatten] assume of [tk::unique]: it returns
    the elements of its argument, each once. *)
Definition makes_unique (unique : list N -> list N) : Prop :=
  forall l, NoDup (unique l) /\ forall x, x ∈ unique l <-> x ∈ l.

(** ** A mesh of two tetrahedra on two PEs

    Chare 0 on PE 0 holds the element with nodes 5 6 7 8, chare 1 on PE 1
    the element with nodes 7 8 9 10; nodes 7 and 8 are shared, and the
    communication map of PE 1 lists them under PE 0. *)
Definition pe0_flat : Partitioner :=
  mkPartitioner [] 0 0 0 {[ 0 := [5; 6; 7; 8]%N ]} [5; 6; 7; 8]%N ∅ ∅.
Definition pe1_flat : Partitioner :=
  mkPartitioner [] 0 0 0 {[ 1 := [7; 8; 9; 10]%N ]} [7; 8; 9; 10]%N ∅ ∅.
Definition comm0 : gmap Z (gset N) := ∅.
Definition comm1 : gmap Z (gset N) := {[ 0 := {[ 7%N; 8%N ]} ]}.

(** PE 0 after the assignment loop of [reorder], before [reordered]
    runs: every node has a new ID, counted from [n = 0]. *)
Definition pe0_assigned : Partitioner :=
  mkPartitioner [] 4 0 0 {[ 0 := [5; 6; 7; 8]%N ]} [5; 6; 7; 8]%N
    {[ 5%N := 0%N; 6%N := 1%N; 7%N := 2%N; 8%N := 3%N ]} ∅.


(** The two objects when [reorder] returns, with what each asked of the
    runtime. *)
Definition pe0_done : Partitioner :=
  mkPartitioner [] 4 0 3 {[ 0 := [0; 1; 2; 3]%N ]} [0; 1; 2; 3]%N
    {[ 5%N := 0%N; 6%N := 1%N; 7%N := 2%N; 8%N := 3%N ]}
    {[ 0 := {[ 0%N := 5%N; 1%N := 6%N; 2%N := 7%N; 3%N := 8%N ]} ]}.
Definition pe1_done : Partitioner :=
  mkPartitioner [] 4 0 8 {[ 1 := [4; 5; 6; 7]%N ]} [4; 5; 6; 7]%N
    {[ 7%N := 4%N; 8%N := 5%N; 9%N := 6%N; 10%N := 7%N ]}
    {[ 1 := {[ 4%N := 7%N; 5%N := 8%N; 6%N := 9%N; 7%N := 10%N ]} ]}.
Definition log0_done : list effect :=
  [Sdag wait4prep; Sdag wait4bounds; Sdag trigger_reorderowned_complete;
   Sdag trigger_upper; Sdag trigger_lower; Send 1 (MsgLower 3)].
Definition log1_done : list effect :=
  [Sdag wait4prep; Sdag wait4bounds; Send 0 (MsgRequest 1 {[ 7%N; 8%N ]});
   Sdag trigger_reorderowned_complete; Sdag trigger_upper].



(** PE 1 once the reply of PE 0 to its request has arrived. *)
Definition pe1_answered : Partitioner :=
  mkPartitioner [] 6 0 8 {[ 1 := [4; 5; 6; 7]%N ]} [4; 5; 6; 7]%N
    {[ 7%N := 2%N; 8%N := 3%N; 9%N := 6%N; 10%N := 7%N ]}
    {[ 1 := {[ 4%N := 7%N; 5%N := 8%N; 6%N := 9%N; 7%N := 10%N ]} ]}.

(** * Properties *)

(** ** The result monad *)

Lemma res_bind_ret {A B} (r : res A) (f : A -> res B) (b : B) :
  r ≫= f = Ret b <-> exists a, r = Ret a /\ f a = Ret b.
Proof.
  destruct r as [a|e]; cbn; split.
  - eauto.
  - by intros (a' & [= <-] & ?).
  - discriminate.
  - by intros (a' & [=] & ?).
Qed.

Lemma res_bind_fail {A B} (r : res A) (f : A -> res B) (e : fault) :
  r ≫= f = Fail e <-> r = Fail e \/ exists a, r = Ret a /\ f a = Fail e.
Proof.
  destruct r as [a|e']; cbn; split.
  - eauto.
  - intros [|(a' & [= <-] & ?)]; done.
  - intros [= ->]. by left.
  - intros [[= ->]|(a' & [=] & ?)]; done.
Qed.

(** ** Chare distribution *)

Lemma int_div_nonneg (a b : Z) :
  0 <= a -> 0 < b -> Cxx.int_div a b = Ret (a / b).
Proof.
  intros Ha Hb. unfold Cxx.int_div.
  destruct (Z.eqb_spec b 0) as [->|_]; [lia|].
  destruct (Z.eqb_spec a Cxx.INT_MIN) as [->|_]; [unfold Cxx.INT_MIN in Ha; lia|].
  cbn. by rewrite Z.quot_div_nonneg.
Qed.

Lemma int_rem_nonneg (a b : Z) :
  0 <= a -> 0 < b -> Cxx.int_rem a b = Ret (a mod b).
Proof.
  intros Ha Hb. unfold Cxx.int_rem.
  destruct (Z.eqb_spec b 0) as [->|_]; [lia|].
  destruct (Z.eqb_spec a Cxx.INT_MIN) as [->|_]; [unfold Cxx.INT_MIN in Ha; lia|].
  cbn. by rewrite Z.rem_mod_nonneg.
Qed.


Lemma chareDistribution_eq (nchare npes mype : Z) :
  1 <= npes -> 0 <= nchare ->
  chareDistribution nchare npes mype =
    Ret (nchare / npes,
         if mype =? npes - 1 then nchare / npes + nchare mod npes
         else nchare / npes).
Proof.
  intros Hp Hc. unfold chareDistribution.
  rewrite int_div_nonneg by lia. cbn.
  destruct (mype =? npes - 1); [|done].
  rewrite int_rem_nonneg by lia. done.
Qed.


Lemma pe_eq (nchare npes id : Z) :
  1 <= npes -> npes <= nchare -> 0 <= id ->
  pe nchare npes id = Ret (Z.min (id / (nchare / npes)) (npes - 1)).
Proof.
  intros Hp Hc Hid. unfold pe. rewrite int_div_nonneg by lia. cbn.
  assert (1 <= nchare / npes) by (apply Z.div_le_lower_bound; lia).
  rewrite int_div_nonneg by lia. cbn.
  destruct (Z.geb_spec (id / (nchare / npes)) npes) as [Hge|Hlt].
  - assert ((npes - 1 <? npes) = true) as -> by lia. cbn. f_equal. lia.
  - assert ((id / (nchare / npes) <? npes) = true) as -> by lia. cbn. f_equal. lia.
Qed.

Lemma owned_chares_eq (nchare npes p : Z) :
  1 <= npes -> 0 <= nchare ->
  exists owned, owned_chares nchare npes p = Ret owned /\
    forall u, u ∈ owned <->
      p * (nchare / npes) <= u <
      p * (nchare / npes) +
        (if p =? npes - 1 then nchare / npes + nchare mod npes
         else nchare / npes).
Proof.
  intros Hp Hc. unfold owned_chares. rewrite chareDistribution_eq by lia. cbn.
  eexists; split; [reflexivity|].
  intros u. rewrite list_elem_of_fmap.
  assert (0 <= nchare / npes) by (apply Z.div_pos; lia).
  assert (0 <= nchare mod npes) by (apply Z.mod_pos_bound; lia).
  split.
  - intros (c & -> & Hc'). apply elem_of_seq in Hc'.
    destruct (p =? npes - 1); lia.
  - intros Hu. exists (Z.to_nat (u - p * (nchare / npes))). split; [lia|].
    apply elem_of_seq. destruct (p =? npes - 1); lia.
Qed.

(** C4 (as amended). With at least as many chares as PEs, [pe] sends a
    chare ID [u] to [min(u / floor(nchare/npes), npes-1)]: the chunk size
    is the integer quotient rounded down, and the last PE takes every ID
    past the last full chunk. This agrees with the chare IDs each PE
    enumerates as its own from [chareDistribution]. *)
Theorem pe_linear_distribution (nchare npes u : Z) :
  1 <= npes -> npes <= nchare -> 0 <= u < nchare ->
  pe nchare npes u = Ret (Z.min (u / (nchare / npes)) (npes - 1)) /\
  forall p, 0 <= p < npes ->
    exists owned, owned_chares nchare npes p = Ret owned /\
      (pe nchare npes u = Ret p <-> u ∈ owned).
Proof.
  intros Hp Hc Hu. split; [apply pe_eq; lia|].
  intros p Hpr.
  destruct (owned_chares_eq nchare npes p) as (owned & Ho & Hin); [lia..|].
  exists owned. split; [done|].
  rewrite Hin, pe_eq by lia.
  set (chunk := nchare / npes).
  assert (1 <= chunk) by (apply Z.div_le_lower_bound; lia).
  pose proof (Z.div_mod nchare npes ltac:(lia)) as Hdm. fold chunk in Hdm.
  pose proof (Z.mod_pos_bound nchare npes ltac:(lia)) as Hmb.
  pose proof (Z.div_mod u chunk ltac:(lia)) as Hu'.
  pose proof (Z.mod_pos_bound u chunk ltac:(lia)) as Hub.
  set (q := u / chunk) in *. set (r := u mod chunk) in *.
  destruct (Z.eqb_spec p (npes - 1)) as [->|Hne].
  - split.
    + intros [= Hmin]. split; [nia|]. nia.
    + intros [Hlo Hhi]. f_equal.
      assert (npes - 1 <= q) by nia. lia.
  - split.
    + intros [= Hmin]. assert (q = p) by lia. subst q. nia.
    + intros [Hlo Hhi]. f_equal.
      assert (q = p) by nia. lia.
Qed.

(** C4 at 7 chares on 3 PEs, chare 6. *)
Lemma pe_linear_distribution_witness :
  pe 7 3 6 = Ret (Z.min (6 / (7 / 3)) (3 - 1)) /\
  forall p, 0 <= p < 3 ->
    exists owned, owned_chares 7 3 p = Ret owned /\
      (pe 7 3 6 = Ret p <-> 6 ∈ owned).
Proof. apply (pe_linear_distribution 7 3 6); lia. Defined.

(** C4 (as stated) fails: for 7 chares on 3 PEs the code sends chare 2 to
    PE 1, whereas [2 / ceil(7/3)] is 0. *)
Lemma pe_differs_from_ceiling_owner :
  1 <= 3 <= 7 /\ 0 <= 2 < 7 /\
  pe 7 3 2 = Ret 1 /\ owner 7 3 2 = 0 /\ pe 7 3 2 <> Ret (owner 7 3 2).
Proof. repeat split; try lia; try reflexivity. discriminate. Qed.



(** ** The ownership test and the local assignment loop *)

(** The range handed to [std::any_of] is empty whatever [comm] holds. *)
Lemma own_always_true (comm : gmap Z (gset N)) (p : N) : own comm p = true.
Proof. unfold own, Cxx.iter_range, Cxx.any_of. by rewrite Nat.sub_diag, take_0. Qed.

(** C2 (the code departs from it). [own] answers [true] for node 7 although
    the communication map lists node 7 under peer 0. *)
Theorem own_true_for_node_listed_in_comm :
  let comm : gmap Z (gset N) := {[ 0 := {[ 7%N ]} ]} in
  (exists s, comm !! 0 = Some s /\ 7%N ∈ s) /\ own comm 7%N = true.
Proof.
  split.
  - exists {[ 7%N ]}. split; [by rewrite lookup_singleton_eq | set_solver].
  - apply own_always_true.
Qed.

Lemma incr_no_wrap (x : N) : (x + 1 < Cxx.SIZE_MOD)%N -> Cxx.incr x = (x + 1)%N.
Proof. intros. unfold Cxx.incr. by rewrite N.mod_small. Qed.

Lemma add_incr (x k : N) : Cxx.add (Cxx.incr x) k = Cxx.add x (1 + k).
Proof.
  unfold Cxx.add, Cxx.incr.
  rewrite N.Div0.add_mod_idemp_l. f_equal. lia.
Qed.

Lemma incr_lt (x : N) : (Cxx.incr x < Cxx.SIZE_MOD)%N.
Proof. unfold Cxx.incr. apply N.mod_lt. done. Qed.

Lemma add_0_small (x : N) : (x < Cxx.SIZE_MOD)%N -> Cxx.add x 0 = x.
Proof. intros. unfold Cxx.add. rewrite N.add_0_r. by apply N.mod_small. Qed.

Lemma assign_owned_cons (comm : gmap Z (gset N)) p id n newid reord :
  assign_owned comm (p :: id) (n, newid, reord) =
  assign_owned comm id
    (if own comm p then (Cxx.incr n, <[p := n]> newid, Cxx.incr reord)
     else (n, newid, reord)).
Proof. reflexivity. Qed.

Lemma assign_owned_spec (comm : gmap Z (gset N)) (id : list N) :
  forall (n : N) (newid : gmap N N) (reord : N),
  NoDup id ->
  (n < Cxx.SIZE_MOD)%N -> (reord < Cxx.SIZE_MOD)%N ->
  (n + N.of_nat (length (List.filter (own comm) id)) <= Cxx.SIZE_MOD)%N ->
  exists newid',
    assign_owned comm id (n, newid, reord) =
      (Cxx.add n (N.of_nat (length (List.filter (own comm) id))), newid',
       Cxx.add reord (N.of_nat (length (List.filter (own comm) id)))) /\
    (forall i p, List.filter (own comm) id !! i = Some p ->
                 newid' !! p = Some (n + N.of_nat i)%N) /\
    (forall p, p ∉ List.filter (own comm) id -> newid' !! p = newid !! p).
Proof.
  induction id as [|p id IH]; intros n newid reord Hnd Hn Hr Hk.
  - exists newid. cbn. rewrite !add_0_small by done. done.
  - apply NoDup_cons in Hnd as [Hp Hnd]. cbn [List.filter] in *.
    rewrite assign_owned_cons.
    destruct (own comm p) eqn:Hown.
    + cbn [length] in *.
      set (owned := List.filter (own comm) id) in *.
      assert (p ∉ owned) as Hpo.
      { intros Hin. apply Hp. apply list_elem_of_In in Hin.
        apply List.filter_In in Hin as [Hin _]. by apply list_elem_of_In. }
      destruct (IH (Cxx.incr n) (<[p := n]> newid) (Cxx.incr reord))
        as (newid' & Heq & Hidx & Hout); [done|apply incr_lt..| |].
      { destruct (decide (n + 1 < Cxx.SIZE_MOD)%N) as [Hlt|Hge].
        - rewrite incr_no_wrap by done. lia.
        - assert (n + 1 = Cxx.SIZE_MOD)%N as E by lia.
          unfold Cxx.incr. rewrite E, N.Div0.mod_same. lia. }
      exists newid'. split; [|split].
      * rewrite Heq, !add_incr. do 3 f_equal; lia.
      * intros [|i] q Hq; cbn in Hq.
        -- injection Hq as <-. rewrite Hout by done.
           rewrite lookup_insert_eq. f_equal. lia.
        -- assert (n + 1 < Cxx.SIZE_MOD)%N as Hlt.
           { apply lookup_lt_Some in Hq. lia. }
           rewrite (Hidx i q Hq), incr_no_wrap by done. f_equal. lia.
      * intros q Hq. apply not_elem_of_cons in Hq as [Hne Hq].
        rewrite Hout by done. by rewrite lookup_insert_ne.
    + apply IH; done.
Qed.

Lemma reordered_keeps_newid (mype npes : Z) (st st' : Partitioner)
    (log : list effect) :
  reordered mype npes st = Ret (st', log) ->
  m_newid st' = m_newid st /\ m_reordered st' = m_reordered st.
Proof.
  unfold reordered, bounds. intros H.
  apply res_bind_ret in H as (chcid & _ & H).
  apply res_bind_ret in H as (node & _ & H).
  apply res_bind_ret in H as (id & _ & H).
  apply res_bind_ret in H as (u & _ & H).
  destruct (mype =? 0); cbn in H; injection H as <- _; done.
Qed.

Lemma reorder_keeps_assignment (mype npes : Z) (n : N) (comm : gmap Z (gset N))
    (st st' : Partitioner) (log : list effect) :
  reorder mype npes n comm st = Ret (st', log) ->
  (assign_owned comm (m_id st) (n, m_newid st, m_reordered st)).1.2
    = m_newid st' /\
  (assign_owned comm (m_id st) (n, m_newid st, m_reordered st)).2
    = m_reordered st'.
Proof.
  unfold reorder.
  destruct (assign_owned comm (m_id st) (n, m_newid st, m_reordered st))
    as [[n' newid'] reord']. cbn [fst snd m_reordered m_id].
  destruct (_ =? _)%N.
  - intros H. apply res_bind_ret in H as ([st1 l] & Hrun & [= <- _]).
    apply reordered_keeps_newid in Hrun as [-> ->]. done.
  - by intros [= <- _].
Qed.

(** Whatever the communication map says, [reorder] gives every ID of
    [m_id] a new ID of the PE's own. *)
Lemma assign_owned_keeps_keys (comm : gmap Z (gset N)) (id : list N) (p : N) :
  forall n newid reord,
  is_Some (newid !! p) ->
  is_Some ((assign_owned comm id (n, newid, reord)).1.2 !! p).
Proof.
  induction id as [|q id IH]; intros n newid reord Hp; [done|].
  rewrite assign_owned_cons. destruct (own comm q); [|by apply IH].
  apply IH. destruct (decide (q = p)) as [->|Hne];
    [by rewrite lookup_insert_eq|by rewrite lookup_insert_ne].
Qed.

Lemma assign_owned_assigns_all (comm : gmap Z (gset N)) (id : list N) (p : N) :
  forall n newid reord,
  p ∈ id ->
  is_Some ((assign_owned comm id (n, newid, reord)).1.2 !! p).
Proof.
  induction id as [|q id IH]; intros n newid reord Hp.
  - by apply elem_of_nil in Hp.
  - rewrite assign_owned_cons, own_always_true.
    apply elem_of_cons in Hp as [->|Hp]; [|by apply IH].
    apply assign_owned_keeps_keys. by rewrite lookup_insert_eq.
Qed.

Lemma reorder_assigns_every_id (mype npes : Z) (n : N) (comm : gmap Z (gset N))
    (st st' : Partitioner) (log : list effect) (p : N) :
  reorder mype npes n comm st = Ret (st', log) ->
  p ∈ m_id st -> is_Some (m_newid st' !! p).
Proof.
  intros Hrun Hp. apply reorder_keeps_assignment in Hrun as [<- _].
  by apply assign_owned_assigns_all.
Qed.



(** ** Node grouping *)

Lemma push_elem_nodes_eq (tet : list N) (e : nat) (c : list N) :
  push_elem_nodes tet e c = c ++ elem_nodes tet e.
Proof. unfold push_elem_nodes, elem_nodes. cbn. by rewrite <- !app_assoc. Qed.

Lemma Assert_not_ErrChk (b : bool) (m msg : string) :
  Assert b m <> Fail (ErrChkFailed msg).
Proof. by destruct b. Qed.

(** What the grouping loop has stored under chare [c] after the elements
    [es], starting from [nodes]. *)
Lemma categorize_loop_lookup (tet che : list N) (es : list nat) :
  forall (nodes : gmap Z (list N)) (c : Z),
  foldl (categorize_elem tet che) nodes es !! c =
    match elems_of che c es with
    | [] => nodes !! c
    | _ => Some (default [] (nodes !! c)
                   ++ concat (elem_nodes tet <$> elems_of che c es))
    end.
Proof.
  induction es as [|e es IH]; intros nodes c; [done|].
  cbn [foldl]. rewrite IH. unfold elems_of. cbn [List.filter].
  fold (elems_of che c es). unfold categorize_elem at 1 2. fold (elem_chare che e).
  case_bool_decide as Hc.
  - subst c. rewrite lookup_insert_eq, push_elem_nodes_eq.
    cbn [default fmap list_fmap concat].
    destruct (elems_of che (elem_chare che e) es) as [|e' es'].
    + cbn [default]. by rewrite app_nil_r.
    + cbn [default fmap list_fmap concat id]. by rewrite <- !app_assoc.
  - rewrite lookup_insert_ne by done. done.
Qed.

Lemma categorize_lookup (tet che : list N) (c : Z) :
  categorize tet che !! c =
    match elems_of che c (seq 0 (length che)) with
    | [] => None
    | es => Some (concat (elem_nodes tet <$> es))
    end.
Proof.
  unfold categorize. rewrite categorize_loop_lookup, lookup_empty.
  by destruct (elems_of _ _ _).
Qed.

Lemma check_groupings_loop (l : list (Z * list N)) :
  (foldlM (fun _ (c : Z * list N) =>
             ErrChk (negb (bool_decide (c.2 = []))) overdecomposition) tt l
     = Ret tt /\ Forall (fun c => c.2 <> []) l) \/
  (foldlM (fun _ (c : Z * list N) =>
             ErrChk (negb (bool_decide (c.2 = []))) overdecomposition) tt l
     = Fail (ErrChkFailed overdecomposition) /\ Exists (fun c => c.2 = []) l).
Proof.
  induction l as [|[k v] l IH]; [left; by split|].
  cbn [foldlM]. cbn [snd]. case_bool_decide as Hv; cbn.
  - right. split; [done|]. by left.
  - destruct IH as [[-> Hall]|[-> Hex]].
    + left. split; [done|]. by constructor.
    + right. split; [done|]. by right.
Qed.

Lemma check_groupings_spec (nodes : gmap Z (list N)) :
  (check_groupings nodes = Ret tt /\
   forall c v, nodes !! c = Some v -> v <> []) \/
  (check_groupings nodes = Fail (ErrChkFailed overdecomposition) /\
   exists c, nodes !! c = Some []).
Proof.
  unfold check_groupings.
  destruct (check_groupings_loop (map_to_list nodes)) as [[-> Hall]|[-> Hex]].
  - left. split; [done|]. intros c v Hc.
    rewrite Forall_forall in Hall.
    apply (Hall (c, v)). by apply elem_of_map_to_list.
  - right. split; [done|]. apply Exists_exists in Hex as ([c v] & Hin & Hv).
    cbn in Hv. subst v. exists c. by apply elem_of_map_to_list in Hin.
Qed.

Lemma length_concat_elem_nodes (tet : list N) (es : list nat) :
  length (concat (elem_nodes tet <$> es)) = (4 * length es)%nat.
Proof.
  induction es as [|e es IH]; [done|].
  cbn [fmap list_fmap concat]. rewrite length_app, IH. cbn. lia.
Qed.

(** C9. Every vector the grouping loop of [chareNodes] stores holds the
    four node IDs of at least one element: it is non-empty and its length
    is a positive multiple of 4. Hence the overdecomposition check never
    fires, whatever [che] is. *)
Theorem chareNodes_groupings_nonempty (gelemid tet che : list N) :
  (forall c v, categorize tet che !! c = Some v ->
     v <> [] /\ (4 <= length v)%nat /\ (length v mod 4 = 0)%nat) /\
  (forall nodes, chareNodes gelemid tet che = Ret nodes ->
     nodes = categorize tet che) /\
  (forall msg, chareNodes gelemid tet che <> Fail (ErrChkFailed msg)).
Proof.
  assert (forall c v, categorize tet che !! c = Some v ->
     v <> [] /\ (4 <= length v)%nat /\ (length v mod 4 = 0)%nat) as Hne.
  { intros c v. rewrite categorize_lookup.
    destruct (elems_of che c (seq 0 (length che))) as [|e es] eqn:E; [done|].
    intros Hv.
    assert (v = concat (elem_nodes tet <$> e :: es)) as -> by congruence.
    clear Hv. split; [|split].
    - intros Hnil. apply (f_equal length) in Hnil.
      rewrite length_concat_elem_nodes in Hnil. cbn in Hnil. lia.
    - rewrite length_concat_elem_nodes. cbn [length]. lia.
    - rewrite length_concat_elem_nodes, Nat.mul_comm. apply Nat.Div0.mod_mul. }
  split; [done|]. split.
  - intros nodes H. unfold chareNodes in H.
    repeat (apply res_bind_ret in H as ([] & _ & H)). by injection H.
  - intros msg H. unfold chareNodes in H.
    repeat (apply res_bind_fail in H as [H|([] & _ & H)];
            [by apply Assert_not_ErrChk in H|]).
    apply res_bind_fail in H as [H|(? & _ & H)]; [|done].
    destruct (check_groupings_spec (categorize tet che))
      as [[E _]|[_ (c & Hc)]]; [congruence|].
    by destruct (Hne c [] Hc) as [? _].
Qed.

Lemma elems_of_split (che : list N) (e : nat) :
  (e < length che)%nat ->
  elems_of che (elem_chare che e) (seq 0 (length che)) =
    elems_of che (elem_chare che e) (seq 0 e)
      ++ e :: elems_of che (elem_chare che e) (seq (S e) (length che - S e)).
Proof.
  intros He. unfold elems_of.
  replace (length che) with (e + S (length che - S e))%nat at 1 by lia.
  rewrite seq_app, List.filter_app. cbn [seq List.filter].
  by rewrite bool_decide_eq_true_2.
Qed.


(** ** Communication cost *)

Lemma cost_count_loop (lower upper : N) (id : list N) :
  forall ownpts compts : N,
  (ownpts + N.of_nat (length id) < Cxx.SIZE_MOD)%N ->
  (compts + N.of_nat (length id) < Cxx.SIZE_MOD)%N ->
  foldl (fun '(ownpts, compts) p =>
           if (lower <=? p)%N && (p <? upper)%N
           then (Cxx.incr ownpts, compts)
           else (ownpts, Cxx.incr compts))
        (ownpts, compts) id =
  ((ownpts + N.of_nat (length (List.filter (in_bounds lower upper) id)))%N,
   (compts + N.of_nat (length (List.filter
                        (fun p => negb (in_bounds lower upper p)) id)))%N).
Proof.
  induction id as [|p id IH]; intros ownpts compts Ho Hc.
  - cbn. by rewrite !N.add_0_r.
  - cbn [foldl List.filter length] in *.
    change ((lower <=? p)%N && (p <? upper)%N) with (in_bounds lower upper p).
    destruct (in_bounds lower upper p); cbn [negb length].
    + rewrite incr_no_wrap by lia. rewrite IH by lia. f_equal; lia.
    + rewrite incr_no_wrap by lia. rewrite IH by lia. f_equal; lia.
Qed.

Lemma filter_split_length {A} (f : A -> bool) (l : list A) :
  (length (List.filter f l) + length (List.filter (fun x => negb (f x)) l)
   = length l)%nat.
Proof.
  induction l as [|x l IH]; [done|]. cbn. destruct (f x); cbn; lia.
Qed.




(** ** The inverse maps built by [reordered] *)

Lemma val_find_ret (m : gmap N N) (p v : N) :
  val_find m p = Ret v <-> m !! p = Some v.
Proof. unfold val_find. destruct (m !! p); split; congruence. Qed.

(** An entry [v ↦ p] survives the inner loop when no other node of the
    chare is renumbered to [v]. *)
Lemma invert_nodes_keeps (newid : gmap N N) (nodes : list N) (v p : N) :
  forall m m',
  invert_nodes newid m nodes = Ret m' ->
  m !! v = Some p ->
  (forall q, q ∈ nodes -> newid !! q = Some v -> q = p) ->
  m' !! v = Some p.
Proof.
  induction nodes as [|q nodes IH]; intros m m' Hrun Hm Hinj.
  - by injection Hrun as <-.
  - unfold invert_nodes in Hrun. cbn [foldlM] in Hrun.
    apply res_bind_ret in Hrun as (m1 & H1 & Hrun).
    apply res_bind_ret in H1 as (vq & Hvq%val_find_ret & [= <-]).
    apply (IH _ _ Hrun).
    + destruct (decide (vq = v)) as [->|Hne].
      * rewrite lookup_insert_eq. f_equal. apply Hinj; [by left|done].
      * by rewrite lookup_insert_ne.
    + intros q' Hq'. apply Hinj. by right.
Qed.

Lemma invert_nodes_spec (newid : gmap N N) (nodes : list N) (p : N) :
  forall m m',
  invert_nodes newid m nodes = Ret m' ->
  p ∈ nodes ->
  (forall q, q ∈ nodes -> newid !! q = newid !! p -> q = p) ->
  exists v, newid !! p = Some v /\ m' !! v = Some p.
Proof.
  induction nodes as [|q nodes IH]; intros m m' Hrun Hp Hinj.
  - by apply elem_of_nil in Hp.
  - pose proof Hrun as Hrun0.
    unfold invert_nodes in Hrun. cbn [foldlM] in Hrun.
    apply res_bind_ret in Hrun as (m1 & H1 & Hrun).
    apply res_bind_ret in H1 as (vq & Hvq%val_find_ret & [= <-]).
    destruct (decide (q = p)) as [->|Hne].
    + exists vq. split; [done|].
      apply (invert_nodes_keeps newid nodes vq p _ _ Hrun).
      * by rewrite lookup_insert_eq.
      * intros q' Hq' Hv. apply Hinj; [by right|congruence].
    + apply elem_of_cons in Hp as [->|Hp]; [done|].
      apply (IH _ _ Hrun Hp). intros q' Hq'. apply Hinj. by right.
Qed.

(** The outer loop touches the entry of a chare only when it visits it. *)
Lemma build_chcid_loop_other (newid : gmap N N) (l : list (Z * list N)) (c : Z) :
  forall chcid chcid',
  foldlM (invert_chare newid) chcid l = Ret chcid' ->
  c ∉ l.*1 ->
  chcid' !! c = chcid !! c.
Proof.
  induction l as [|[k v] l IH]; intros chcid chcid' Hrun Hc.
  - by injection Hrun as <-.
  - cbn [foldlM] in Hrun. apply res_bind_ret in Hrun as (ch1 & H1 & Hrun).
    unfold invert_chare in H1. cbn [fst snd] in H1. apply res_bind_ret in H1 as (m & _ & [= <-]).
    cbn in Hc. apply not_elem_of_cons in Hc as [Hne Hc].
    rewrite (IH _ _ Hrun Hc). by rewrite lookup_insert_ne.
Qed.

Lemma build_chcid_loop_visited (newid : gmap N N) (l : list (Z * list N))
    (c : Z) (nodes : list N) :
  forall chcid chcid',
  foldlM (invert_chare newid) chcid l = Ret chcid' ->
  NoDup l.*1 ->
  (c, nodes) ∈ l ->
  exists m', invert_nodes newid (default ∅ (chcid !! c)) nodes = Ret m' /\
             chcid' !! c = Some m'.
Proof.
  induction l as [|[k v] l IH]; intros chcid chcid' Hrun Hnd Hin.
  - by apply elem_of_nil in Hin.
  - cbn [foldlM] in Hrun. apply res_bind_ret in Hrun as (ch1 & H1 & Hrun).
    unfold invert_chare in H1. cbn [fst snd] in H1. apply res_bind_ret in H1 as (m & Hm & [= <-]).
    cbn in Hnd. apply NoDup_cons in Hnd as [Hk Hnd].
    apply elem_of_cons in Hin as [[= <- <-]|Hin].
    + exists m. split; [done|].
      rewrite (build_chcid_loop_other _ _ _ _ _ Hrun Hk).
      by rewrite lookup_insert_eq.
    + assert (k <> c) as Hne.
      { intros ->. apply Hk. apply list_elem_of_fmap. by exists (c, nodes). }
      destruct (IH _ _ Hrun Hnd Hin) as (m' & Hm' & Hc).
      rewrite lookup_insert_ne in Hm' by done. eauto.
Qed.

Lemma build_chcid_spec (newid : gmap N N) (node : gmap Z (list N))
    (chcid chcid' : gmap Z (gmap N N)) (c : Z) (nodes : list N) :
  build_chcid newid node chcid = Ret chcid' ->
  node !! c = Some nodes ->
  exists m', invert_nodes newid (default ∅ (chcid !! c)) nodes = Ret m' /\
             chcid' !! c = Some m'.
Proof.
  intros Hrun Hc. unfold build_chcid in Hrun.
  apply (build_chcid_loop_visited _ _ _ _ _ _ Hrun).
  - apply NoDup_fst_map_to_list.
  - by apply elem_of_map_to_list.
Qed.

Lemma bounds_fields (mype npes : Z) (st st' : Partitioner) (log : list effect) :
  bounds mype npes st = Ret (st', log) ->
  m_chcid st' = m_chcid st /\ m_newid st' = m_newid st /\
  m_node st' = m_node st /\ m_id st' = m_id st /\
  m_reordered st' = m_reordered st /\ m_req st' = m_req st.
Proof.
  unfold bounds. intros H. apply res_bind_ret in H as (u & _ & H).
  destruct (mype =? 0); cbn in H; injection H as <- _; done.
Qed.

(** C6. After [reordered], for every chare [c] and every old node ID [p]
    the chare contributes, the inverse map of the chare takes the new ID
    of [p] back to [p], new IDs being distinct among the nodes of the
    chare. *)
Theorem reordered_round_trip (mype npes : Z) (st st' : Partitioner)
    (log : list effect) (c : Z) (nodes : list N) (p : N) :
  reordered mype npes st = Ret (st', log) ->
  m_node st !! c = Some nodes ->
  p ∈ nodes ->
  (forall q, q ∈ nodes -> m_newid st !! q = m_newid st !! p -> q = p) ->
  exists newp m,
    m_newid st !! p = Some newp /\
    m_newid st' !! p = Some newp /\
    m_chcid st' !! c = Some m /\
    m !! newp = Some p.
Proof.
  intros Hrun Hc Hp Hinj. unfold reordered in Hrun.
  apply res_bind_ret in Hrun as (chcid & Hch & Hrun).
  apply res_bind_ret in Hrun as (node & _ & Hrun).
  apply res_bind_ret in Hrun as (id & _ & Hrun).
  apply bounds_fields in Hrun as (-> & -> & _). cbn.
  destruct (build_chcid_spec _ _ _ _ _ _ Hch Hc) as (m & Hm & Hlook).
  destruct (invert_nodes_spec _ _ _ _ _ Hm Hp Hinj) as (v & Hv & Hmv).
  exists v, m. done.
Qed.

(** ** Bounds *)

Lemma max_element_loop (l : list (N * N)) :
  forall a : N * N,
  let r := foldl (fun largest y : N * N =>
                    if (largest.1 <? y.1)%N then y else largest) a l in
  (r = a \/ r ∈ l) /\ (a.1 <= r.1)%N /\ (forall y, y ∈ l -> (y.1 <= r.1)%N).
Proof.
  induction l as [|x l IH]; intros a; cbn [foldl].
  - split; [by left|]. split; [lia|]. intros y Hy. by apply elem_of_nil in Hy.
  - destruct (N.ltb_spec a.1 x.1) as [Hlt|Hge].
    + destruct (IH x) as ([->|Hin] & Hle & Hall).
      * split; [right; by left|]. split; [lia|].
        intros y [->|Hy]%elem_of_cons; [lia|by apply Hall].
      * split; [right; by right|]. split; [lia|].
        intros y [->|Hy]%elem_of_cons; [lia|by apply Hall].
    + destruct (IH a) as ([->|Hin] & Hle & Hall).
      * split; [by left|]. split; [lia|].
        intros y [->|Hy]%elem_of_cons; [lia|by apply Hall].
      * split; [right; by right|]. split; [lia|].
        intros y [->|Hy]%elem_of_cons; [lia|by apply Hall].
Qed.

Lemma max_element_spec (l : list (N * N)) :
  match Cxx.max_element (fun a b : N * N => (a.1 <? b.1)%N) l with
  | None => l = []
  | Some x => x ∈ l /\ forall y, y ∈ l -> (y.1 <= x.1)%N
  end.
Proof.
  destruct l as [|a l]; [done|]. cbn [Cxx.max_element].
  destruct (max_element_loop l a) as (Hin & Hle & Hall). split.
  - destruct Hin as [->|Hin]; [by left|by right].
  - intros y [->|Hy]%elem_of_cons; [done|by apply Hall].
Qed.

Lemma upper_of_chare_ret (upper upper' : N) (c : Z) (m : gmap N N) :
  upper_of_chare upper (c, m) = Ret upper' ->
  (upper' = upper \/ is_Some (m !! upper')) /\
  (upper <= upper')%N /\
  (forall k, is_Some (m !! k) -> (k <= upper')%N) /\
  (exists k, is_Some (m !! k)).
Proof.
  unfold upper_of_chare. cbn [snd].
  pose proof (max_element_spec (map_to_list m)) as Hmax.
  destruct (Cxx.max_element _ _) as [[k v]|]; [|done].
  destruct Hmax as [Hin Hall]. apply elem_of_map_to_list in Hin.
  intros [= <-]. cbn [fst] in *.
  assert (forall k', is_Some (m !! k') -> (k' <= k)%N) as Hkeys.
  { intros k' [v' Hk']. apply (Hall (k', v')). by apply elem_of_map_to_list. }
  destruct (N.ltb_spec upper k).
  - split; [right; eauto|]. split; [lia|]. split; [done|]. eauto.
  - split; [by left|]. split; [lia|]. split; [|eauto].
    intros k' Hk'. specialize (Hkeys k' Hk'). lia.
Qed.

Lemma bounds_upper_loop (l : list (Z * gmap N N)) :
  forall upper upper' : N,
  foldlM upper_of_chare upper l = Ret upper' ->
  (upper' = upper \/ exists c m, (c, m) ∈ l /\ is_Some (m !! upper')) /\
  (upper <= upper')%N /\
  (forall c m k, (c, m) ∈ l -> is_Some (m !! k) -> (k <= upper')%N) /\
  (forall c m, (c, m) ∈ l -> exists k, is_Some (m !! k)).
Proof.
  induction l as [|[c m] l IH]; intros upper upper' Hrun.
  - injection Hrun as <-. split; [by left|]. split; [lia|].
    split; intros; by (exfalso; eapply not_elem_of_nil).
  - cbn [foldlM] in Hrun. apply res_bind_ret in Hrun as (u1 & H1 & Hrun).
    apply upper_of_chare_ret in H1 as (Hu1 & Hle1 & Hk1 & Hne1).
    destruct (IH _ _ Hrun) as (Hu & Hle & Hk & Hne).
    split; [|split; [lia|split]].
    + destruct Hu as [->|(c' & m' & Hin & Hs)].
      * destruct Hu1 as [->|Hs]; [by left|].
        right. exists c, m. split; [by left|done].
      * right. exists c', m'. split; [by right|done].
    + intros c' m' k [[= -> ->]|Hin]%elem_of_cons Hs.
      * specialize (Hk1 k Hs). lia.
      * by apply (Hk c' m').
    + intros c' m' [[= -> ->]|Hin]%elem_of_cons; [done|by apply (Hne c')].
Qed.

Lemma bounds_upper_max (chcid : gmap Z (gmap N N)) (u : N) :
  bounds_upper chcid = Ret u -> max_new_id chcid u.
Proof.
  intros Hrun. apply bounds_upper_loop in Hrun as (Hu & _ & Hk & Hne).
  assert (forall k, new_id_of chcid k -> (k <= u)%N) as Hall.
  { intros k (c & m & Hc & Hs). apply (Hk c m); [|done].
    by apply elem_of_map_to_list. }
  destruct Hu as [->|(c & m & Hin & Hs)].
  - destruct (map_to_list chcid) as [|[c m] l] eqn:E.
    + right. split; [|done]. intros k (c & m & Hc & _).
      apply map_to_list_empty_iff in E. subst chcid. by rewrite lookup_empty in Hc.
    + left. split; [|done].
      destruct (Hne c m) as (k & Hs); [by left|].
      assert ((c, m) ∈ map_to_list chcid) as Hin by (rewrite E; by left).
      apply elem_of_map_to_list in Hin.
      assert (k = 0%N) as ->.
      { assert (k <= 0)%N by (apply (Hk c m); [by left|done]). lia. }
      by exists c, m.
  - left. split; [|done]. apply elem_of_map_to_list in Hin. by exists c, m.
Qed.

Lemma bounds_ret (mype npes : Z) (st st' : Partitioner) (log : list effect) :
  bounds mype npes st = Ret (st', log) ->
  exists u,
    bounds_upper (m_chcid st) = Ret u /\
    m_upper st' = (if mype =? npes - 1 then Cxx.incr u else u) /\
    m_lower st' = (if mype =? 0 then 0%N else m_lower st) /\
    m_chcid st' = m_chcid st /\
    sends log = if mype <? npes - 1
                then [(mype + 1, MsgLower (m_upper st'))] else [].
Proof.
  unfold bounds. intros H. apply res_bind_ret in H as (u & Hu & H).
  exists u. split; [done|].
  destruct (mype =? 0); cbn in H; destruct (mype <? npes - 1);
    injection H as <- <-; done.
Qed.










(** ** [reordered] returns, and the round trip along [reorder] *)

Lemma foldlM_returns {A B} (f : B -> A -> res B) (l : list A) :
  (forall b x, x ∈ l -> exists b', f b x = Ret b') ->
  forall b, exists b', foldlM f b l = Ret b'.
Proof.
  induction l as [|x l IH]; intros Hf b; [by exists b|].
  destruct (Hf b x) as (b1 & H1); [by left|].
  destruct (IH (fun b y Hy => Hf b y (list_elem_of_further _ _ _ Hy)) b1)
    as (b' & Hrun).
  exists b'. cbn [foldlM]. by rewrite H1.
Qed.

Lemma invert_nodes_returns (newid : gmap N N) (nodes : list N) (m : gmap N N) :
  (forall p, p ∈ nodes -> is_Some (newid !! p)) ->
  exists m', invert_nodes newid m nodes = Ret m'.
Proof.
  intros Hkeys. unfold invert_nodes. apply foldlM_returns.
  intros m0 p Hp. destruct (Hkeys p Hp) as [v Hv].
  exists (<[v := p]> m0). apply val_find_ret in Hv. by rewrite Hv.
Qed.

Lemma invert_nodes_grows (newid : gmap N N) (nodes : list N) :
  forall m m' k,
  invert_nodes newid m nodes = Ret m' -> is_Some (m !! k) -> is_Some (m' !! k).
Proof.
  induction nodes as [|q nodes IH]; intros m m' k Hrun Hk.
  - by injection Hrun as <-.
  - unfold invert_nodes in Hrun. cbn [foldlM] in Hrun.
    apply res_bind_ret in Hrun as (m1 & H1 & Hrun).
    apply res_bind_ret in H1 as (vq & _ & [= <-]).
    apply (IH _ _ _ Hrun).
    destruct (decide (vq = k)) as [->|Hne];
      [by rewrite lookup_insert_eq|by rewrite lookup_insert_ne].
Qed.

Lemma invert_nodes_nonempty (newid : gmap N N) (nodes : list N) (m m' : gmap N N) :
  invert_nodes newid m nodes = Ret m' ->
  nodes <> [] \/ m <> ∅ -> m' <> ∅.
Proof.
  intros Hrun Hne.
  assert (exists k, is_Some (m' !! k)) as (k & v & Hk).
  { destruct nodes as [|q nodes].
    - injection Hrun as <-. destruct Hne as [|Hne]; [done|].
      destruct (map_choose m Hne) as (k & v & Hk). by exists k, v.
    - unfold invert_nodes in Hrun. cbn [foldlM] in Hrun.
      apply res_bind_ret in Hrun as (m1 & H1 & Hrun).
      apply res_bind_ret in H1 as (vq & _ & [= <-]).
      exists vq. apply (invert_nodes_grows _ _ _ _ _ Hrun).
      by rewrite lookup_insert_eq. }
  intros ->. by rewrite lookup_empty in Hk.
Qed.

Lemma renumber_returns (newid : gmap N N) (v : list N) :
  (forall p, p ∈ v -> is_Some (newid !! p)) ->
  exists v', renumber newid v = Ret v'.
Proof.
  intros Hkeys. unfold renumber. apply foldlM_returns.
  intros acc p Hp. destruct (Hkeys p Hp) as [q Hq].
  exists (acc ++ [q]). apply val_find_ret in Hq. by rewrite Hq.
Qed.

Lemma build_chcid_returns (newid : gmap N N) (node : gmap Z (list N))
    (chcid : gmap Z (gmap N N)) :
  (forall c nodes p, node !! c = Some nodes -> p ∈ nodes ->
                     is_Some (newid !! p)) ->
  exists chcid', build_chcid newid node chcid = Ret chcid'.
Proof.
  intros Hkeys. unfold build_chcid. apply foldlM_returns.
  intros ch [c nodes] Hin%elem_of_map_to_list. unfold invert_chare. cbn [fst snd].
  destruct (invert_nodes_returns newid nodes (default ∅ (ch !! c)))
    as (m' & Hm'); [intros p Hp; by eapply Hkeys|].
  rewrite Hm'. by eexists.
Qed.

Lemma renumber_node_returns (newid : gmap N N) (node : gmap Z (list N)) :
  (forall c nodes p, node !! c = Some nodes -> p ∈ nodes ->
                     is_Some (newid !! p)) ->
  exists node', renumber_node newid node = Ret node'.
Proof.
  intros Hkeys. unfold renumber_node. apply foldlM_returns.
  intros acc [c nodes] Hin%elem_of_map_to_list. cbn [fst snd].
  destruct (renumber_returns newid nodes) as (v' & Hv');
    [intros p Hp; by eapply Hkeys|].
  rewrite Hv'. by eexists.
Qed.

Lemma upper_of_chare_returns (upper : N) (c : Z) (m : gmap N N) :
  m <> ∅ -> exists upper', upper_of_chare upper (c, m) = Ret upper'.
Proof.
  intros Hne. unfold upper_of_chare. cbn [snd].
  pose proof (max_element_spec (map_to_list m)) as Hmax.
  destruct (Cxx.max_element _ _) as [x|]; [by eexists|].
  by apply map_to_list_empty_iff in Hmax.
Qed.

Lemma bounds_returns (mype npes : Z) (st : Partitioner) :
  (forall c m, m_chcid st !! c = Some m -> m <> ∅) ->
  exists st' log, bounds mype npes st = Ret (st', log).
Proof.
  intros Hne. unfold bounds, bounds_upper.
  destruct (foldlM_returns upper_of_chare (map_to_list (m_chcid st)))
    with (b := 0%N) as (u & ->).
  - intros u [c m] Hin%elem_of_map_to_list.
    apply upper_of_chare_returns. by eapply Hne.
  - cbn. destruct (mype =? 0); cbn; by eexists _, _.
Qed.

(** [reordered] returns when every node of [m_node] and of [m_id] has a
    new ID in [m_newid], every chare has a node, and no inverse map left
    from before is empty. *)
Lemma reordered_returns (mype npes : Z) (st : Partitioner) :
  (forall c nodes p, m_node st !! c = Some nodes -> p ∈ nodes ->
                     is_Some (m_newid st !! p)) ->
  (forall p, p ∈ m_id st -> is_Some (m_newid st !! p)) ->
  (forall c nodes, m_node st !! c = Some nodes -> nodes <> []) ->
  (forall c m, m_chcid st !! c = Some m -> m <> ∅) ->
  exists st' log, reordered mype npes st = Ret (st', log).
Proof.
  intros Hnode Hid Hne Hch. unfold reordered.
  destruct (build_chcid_returns (m_newid st) (m_node st) (m_chcid st) Hnode)
    as (chcid & Hbuild).
  destruct (renumber_node_returns (m_newid st) (m_node st) Hnode) as (node & ->).
  destruct (renumber_returns (m_newid st) (m_id st) Hid) as (id & ->).
  rewrite Hbuild. cbn. apply bounds_returns. cbn.
  intros c m Hc.
  destruct (m_node st !! c) as [nodes|] eqn:E.
  - destruct (build_chcid_spec _ _ _ _ _ _ Hbuild E) as (m' & Hm' & Hc').
    assert (m = m') as -> by congruence.
    apply (invert_nodes_nonempty _ _ _ _ Hm'). left. by eapply Hne.
  - apply (Hch c). rewrite <- Hc. symmetry.
    unfold build_chcid in Hbuild.
    apply (build_chcid_loop_other _ _ _ _ _ Hbuild).
    intros ([c' nodes] & -> & Hin%elem_of_map_to_list)%list_elem_of_fmap.
    cbn in E. congruence.
Qed.

Lemma filter_own_all (comm : gmap Z (gset N)) (id : list N) :
  List.filter (own comm) id = id.
Proof.
  induction id as [|p id IH]; [done|]. cbn [List.filter].
  by rewrite own_always_true, IH.
Qed.

(** Along [reorder], from the state [flatten] leaves: [m_id] lists without
    repetition the nodes of [m_node], nothing is renumbered yet.
    [reorder] returns, and the inverse map of every chare takes the new ID
    of each of its nodes back to the node. *)
Lemma reorder_round_trip (mype npes : Z) (n : N) (comm : gmap Z (gset N))
    (st : Partitioner) :
  m_newid st = ∅ -> m_reordered st = 0%N -> m_chcid st = ∅ ->
  NoDup (m_id st) ->
  (forall c nodes p, m_node st !! c = Some nodes -> p ∈ nodes -> p ∈ m_id st) ->
  (forall c nodes, m_node st !! c = Some nodes -> nodes <> []) ->
  (n < Cxx.SIZE_MOD)%N ->
  (N.of_nat (length (m_id st)) < Cxx.SIZE_MOD)%N ->
  (n + N.of_nat (length (m_id st)) <= Cxx.SIZE_MOD)%N ->
  exists st' log,
    reorder mype npes n comm st = Ret (st', log) /\
    forall c nodes p,
      m_node st !! c = Some nodes -> p ∈ nodes ->
      exists newp m,
        m_newid st' !! p = Some newp /\
        m_chcid st' !! c = Some m /\
        m !! newp = Some p.
Proof.
  intros Hnew Hre Hch Hnd Hsub Hne Hn Hlen Hk.
  destruct (assign_owned_spec comm (m_id st) n (m_newid st) (m_reordered st))
    as (newid' & Heq & Hidx & _); [done|done|rewrite Hre; done| |].
  { by rewrite filter_own_all. }
  rewrite filter_own_all in Heq, Hidx.
  assert (forall p, p ∈ m_id st -> is_Some (newid' !! p)) as Hkeys.
  { intros p (i & Hi)%list_elem_of_lookup. rewrite (Hidx i p Hi). by eexists. }
  assert (forall p q, p ∈ m_id st -> q ∈ m_id st ->
                      newid' !! q = newid' !! p -> q = p) as Hinj.
  { intros p q (i & Hi)%list_elem_of_lookup (j & Hj)%list_elem_of_lookup.
    rewrite (Hidx i p Hi), (Hidx j q Hj). intros [= E].
    assert (i = j) as -> by lia. congruence. }
  assert (Cxx.add (m_reordered st) (N.of_nat (length (m_id st)))
          = N.of_nat (length (m_id st))) as Hadd.
  { rewrite Hre. unfold Cxx.add. by rewrite N.add_0_l, N.mod_small. }
  rewrite Hadd in Heq.
  set (st1 := mkPartitioner (m_req st) (N.of_nat (length (m_id st)))
                (m_lower st) (m_upper st) (m_node st) (m_id st) newid'
                (m_chcid st)).
  destruct (reordered_returns mype npes st1) as (st' & log & Hrun); cbn.
  { intros c nodes p Hc Hp. apply Hkeys. by eapply Hsub. }
  { done. }
  { done. }
  { intros c m. by rewrite Hch, lookup_empty. }
  exists st'. eexists. split.
  - unfold reorder. rewrite Heq. cbn [m_reordered m_id].
    rewrite N.eqb_refl. fold st1. rewrite Hrun. reflexivity.
  - intros c nodes p Hc Hp. unfold reordered in Hrun.
    apply res_bind_ret in Hrun as (chcid & Hbuild & Hrun).
    apply res_bind_ret in Hrun as (node & _ & Hrun).
    apply res_bind_ret in Hrun as (id & _ & Hrun).
    apply bounds_fields in Hrun as (-> & -> & _). cbn in *.
    destruct (build_chcid_spec _ _ _ _ _ _ Hbuild Hc) as (m & Hm & Hlook).
    destruct (invert_nodes_spec _ _ p _ _ Hm Hp) as (v & Hv & Hmv).
    { intros q Hq. apply Hinj; by eapply Hsub. }
    by exists v, m.
Qed.

(** ** The two-tetrahedra mesh, run *)

Lemma reorder_pe0 : reorder 0 2 0 comm0 pe0_flat = Ret (pe0_done, log0_done).
Proof. vm_compute. reflexivity. Qed.

Lemma reorder_pe1 : reorder 1 2 4 comm1 pe1_flat = Ret (pe1_done, log1_done).
Proof. vm_compute. reflexivity. Qed.

Lemma reordered_pe0 :
  reordered 0 2 pe0_assigned =
    Ret (pe0_done, [Sdag trigger_upper; Sdag trigger_lower; Send 1 (MsgLower 3)]).
Proof. vm_compute. reflexivity. Qed.








(** C6 on PE 0 of the two-PE mesh, chare 0, node 7. *)
Lemma reordered_round_trip_witness :
  exists newp m,
    m_newid pe0_assigned !! 7%N = Some newp /\
    m_newid pe0_done !! 7%N = Some newp /\
    m_chcid pe0_done !! 0 = Some m /\
    m !! newp = Some 7%N.
Proof.
  apply (reordered_round_trip 0 2 pe0_assigned pe0_done
           [Sdag trigger_upper; Sdag trigger_lower; Send 1 (MsgLower 3)]
           0 [5; 6; 7; 8]%N 7%N).
  - vm_compute. reflexivity.
  - reflexivity.
  - apply (bool_decide_unpack _). vm_compute. reflexivity.
  - intros q Hq.
    repeat (apply elem_of_cons in Hq as [->|Hq]); try done;
      try (vm_compute; discriminate).
    by apply elem_of_nil in Hq.
Defined.

(** C1 (the code departs from it). Node 7 is in the ID sets of both PEs
    and the communication map of PE 1 lists it under PE 0. [reorder]
    gives it the new ID 2 on PE 0 and the new ID 4 on PE 1, which also
    requests it from PE 0: two ranks assign the one node. When the reply
    of PE 0 arrives, PE 1 has counted six reordered nodes for its four,
    and its chare keeps the new IDs PE 1 chose. *)
Theorem shared_node_assigned_on_both_ranks :
  (7%N ∈ m_id pe0_flat /\ 7%N ∈ m_id pe1_flat) /\
  (exists s, comm1 !! 0 = Some s /\ 7%N ∈ s) /\
  reorder 0 2 0 comm0 pe0_flat = Ret (pe0_done, log0_done) /\
  reorder 1 2 4 comm1 pe1_flat = Ret (pe1_done, log1_done) /\
  m_newid pe0_done !! 7%N = Some 2%N /\
  m_newid pe1_done !! 7%N = Some 4%N /\
  Send 0 (MsgRequest 1 {[ 7%N; 8%N ]}) ∈ log1_done /\
  exists st0 logp st1,
    prepare (request 1 {[ 7%N; 8%N ]} pe0_done).1 = Ret (st0, logp) /\
    Send 1 (MsgNeworder {[ 7%N := 2%N; 8%N := 3%N ]}) ∈ logp /\
    neworder 1 2 {[ 7%N := 2%N; 8%N := 3%N ]} pe1_done = Ret (st1, []) /\
    m_reordered st1 = 6%N /\ length (m_id st1) = 4%nat /\
    m_node st1 !! 1 = Some [4; 5; 6; 7]%N /\
    m_chcid st1 !! 1 = m_chcid pe1_done !! 1.
Proof.
  split; [split; set_solver|].
  split; [exists {[ 7%N; 8%N ]}; split; [done|set_solver]|].
  split; [apply reorder_pe0|]. split; [apply reorder_pe1|].
  split; [done|]. split; [done|].
  split; [unfold log1_done; set_solver|].
  destruct (prepare (request 1 {[ 7%N; 8%N ]} pe0_done).1)
    as [[st0 logp]|] eqn:E0; [|vm_compute in E0; discriminate].
  destruct (neworder 1 2 {[ 7%N := 2%N; 8%N := 3%N ]} pe1_done)
    as [[st1 l1]|] eqn:E1; [|vm_compute in E1; discriminate].
  vm_compute in E0. injection E0 as <- <-.
  vm_compute in E1. injection E1 as <- <-.
  eexists _, _, _. split; [reflexivity|]. split; [|done].
  apply list_elem_of_here.
Qed.

(** * Further properties of the partitioner *)

(** ** [pe] beyond the chare IDs in range *)

(** X1. The assertion at the end of [pe] can never fail: the line before
    it has already clamped [p] below [CkNumPes()]. It guards one side
    only: with at least as many chares as PEs, a chare ID at or below
    minus the chunk size comes back as a negative PE. *)
Theorem pe_assertion_never_fails (nchare npes id : Z) :
  (forall msg, pe nchare npes id <> Fail (AssertFailed msg)) /\
  (1 <= npes -> npes <= nchare -> id <= - (nchare / npes) ->
   exists p, pe nchare npes id = Ret p /\ p < 0).
Proof.
  split.
  - intros msg. unfold pe, Cxx.int_div.
    destruct (nchare =? 0), (npes =? 0); cbn; try discriminate;
      destruct (_ && _); cbn; try discriminate;
      destruct (_ =? 0); cbn; try discriminate;
      destruct (_ && _); cbn; try discriminate;
      destruct (Z.geb_spec (id ÷ (nchare ÷ npes)) npes);
      unfold Assert;
      match goal with
      | |- context [if ?b then Ret tt else _] =>
          assert (b = true) as -> by (apply Z.ltb_lt; lia)
      end; cbn; discriminate.
  - intros Hp Hc Hid. unfold pe. rewrite int_div_nonneg by lia. cbn.
    assert (1 <= nchare / npes) by (apply Z.div_le_lower_bound; lia).
    unfold Cxx.int_div.
    destruct (Z.eqb_spec (nchare / npes) 0); [lia|].
    assert ((nchare / npes =? -1) = false) as -> by (apply Z.eqb_neq; lia).
    rewrite andb_false_r.
    assert (id ÷ (nchare / npes) <= -1) as Hq.
    { rewrite <- (Z.opp_involutive id), Z.quot_opp_l by lia.
      assert (1 <= (- id) ÷ (nchare / npes)); [|lia].
      apply Z.quot_le_lower_bound; lia. }
    cbn. destruct (Z.geb_spec (id ÷ (nchare / npes)) npes); [lia|].
    assert ((id ÷ (nchare / npes) <? npes) = true) as -> by (apply Z.ltb_lt; lia).
    cbn. eexists. split; [reflexivity|lia].
Qed.

(** X2. With at least as many chares as PEs, [pe] returns for every
    integer ID and is monotone: a larger chare ID never goes to a lower
    PE, so each PE holds one contiguous run of chare IDs, and no ID goes
    past the last PE. *)
Theorem pe_monotone (nchare npes id1 id2 : Z) :
  1 <= npes -> npes <= nchare -> id1 <= id2 ->
  exists p1 p2,
    pe nchare npes id1 = Ret p1 /\ pe nchare npes id2 = Ret p2 /\
    p1 <= p2 /\ p2 <= npes - 1.
Proof.
  intros Hp Hc Hle.
  assert (1 <= nchare / npes) as Hchunk by (apply Z.div_le_lower_bound; lia).
  assert (forall id, pe nchare npes id =
                     Ret (Z.min (id ÷ (nchare / npes)) (npes - 1))) as Hpe.
  { intros id. unfold pe. rewrite int_div_nonneg by lia. cbn.
    unfold Cxx.int_div.
    destruct (Z.eqb_spec (nchare / npes) 0); [lia|].
    assert ((nchare / npes =? -1) = false) as -> by (apply Z.eqb_neq; lia).
    rewrite andb_false_r. cbn.
    destruct (Z.geb_spec (id ÷ (nchare / npes)) npes).
    - assert ((npes - 1 <? npes) = true) as -> by (apply Z.ltb_lt; lia).
      cbn. f_equal. lia.
    - assert ((id ÷ (nchare / npes) <? npes) = true) as ->
        by (apply Z.ltb_lt; lia).
      cbn. f_equal. lia. }
  exists (Z.min (id1 ÷ (nchare / npes)) (npes - 1)),
         (Z.min (id2 ÷ (nchare / npes)) (npes - 1)).
  split; [apply Hpe|]. split; [apply Hpe|].
  pose proof (Z.quot_le_mono id1 id2 (nchare / npes) ltac:(lia) Hle). lia.
Qed.

(** X2 at 7 chares on 3 PEs, chare IDs 3 and 5. *)
Lemma pe_monotone_witness :
  exists p1 p2,
    pe 7 3 3 = Ret p1 /\ pe 7 3 5 = Ret p2 /\ p1 <= p2 /\ p2 <= 3 - 1.
Proof. apply (pe_monotone 7 3 3 5); lia. Defined.

(** ** When [chareNodes] returns *)



(** ** The extremes of [cost], and widening the bounds *)

Lemma cost_eq (lower upper : N) (st : Partitioner) :
  (N.of_nat (length (m_id st)) < Cxx.SIZE_MOD)%N ->
  cost lower upper st =
    real_div (N.of_nat (length (List.filter
                          (fun p => negb (in_bounds lower upper p)) (m_id st))))
             (N.of_nat (length (m_id st))).
Proof.
  intros Hlen. unfold cost, cost_count.
  rewrite cost_count_loop by lia. rewrite !N.add_0_l.
  pose proof (filter_split_length (in_bounds lower upper) (m_id st)) as Hsplit.
  f_equal. unfold Cxx.add. rewrite N.mod_small by lia. lia.
Qed.

Lemma filter_length_le_mono {A} (f g : A -> bool) (l : list A) :
  (forall x, f x = true -> g x = true) ->
  (length (List.filter f l) <= length (List.filter g l))%nat.
Proof.
  intros Hfg. induction l as [|x l IH]; [done|]. cbn.
  destruct (f x) eqn:Ef.
  - rewrite (Hfg x Ef). cbn. lia.
  - destruct (g x); cbn; lia.
Qed.



(** X5. Widening the bounds never raises the cost: with
    [lower' <= lower] and [upper <= upper'], the cost over
    [lower', upper') is at most the cost over [lower, upper). *)
Theorem cost_widening_bounds (lower upper lower' upper' : N)
    (st : Partitioner) (q q' : Q) :
  (N.of_nat (length (m_id st)) < Cxx.SIZE_MOD)%N ->
  (lower' <= lower)%N -> (upper <= upper')%N ->
  cost lower upper st = Some q ->
  cost lower' upper' st = Some q' ->
  (q' <= q)%Q.
Proof.
  intros Hlen Hlo Hup. rewrite !cost_eq by done. unfold real_div.
  destruct (N.eqb_spec (N.of_nat (length (m_id st))) 0) as [H0|H0]; [done|].
  intros [= <-] [= <-]. rewrite !nat_N_Z.
  assert (Z.of_nat (length (m_id st)) = Z.pos (Pos.of_nat (length (m_id st))))
    as E by lia.
  rewrite E, <- !Qmake_Qdiv. unfold Qle. cbn [Qnum Qden].
  apply Z.mul_le_mono_nonneg_r; [lia|].
  apply inj_le. apply filter_length_le_mono.
  intros p. unfold in_bounds. rewrite !negb_true_iff, !andb_false_iff.
  rewrite !N.leb_gt, !N.ltb_ge. lia.
Qed.

(** X5 at [m_id = [0; 1; 2; 3]], bounds [1, 2) widened to [0, 3): the
    cost falls from 3/4 to 1/4. *)
Lemma cost_widening_bounds_witness :
  let st := mkPartitioner [] 0 0 0 ∅ [0; 1; 2; 3]%N ∅ ∅ in
  cost 1 2 st = Some (3 # 4) /\ cost 0 3 st = Some (1 # 4) /\
  ((1 # 4) <= (3 # 4))%Q.
Proof.
  intros st. split; [vm_compute; reflexivity|].
  split; [vm_compute; reflexivity|].
  apply (cost_widening_bounds 1 2 0 3 st (3 # 4) (1 # 4)).
  - reflexivity.
  - discriminate.
  - discriminate.
  - vm_compute. reflexivity.
  - vm_compute. reflexivity.
Defined.

(** ** What [reordered] leaves in [m_node], [m_id] and [m_chcid] *)

Lemma renumber_loop (newid : gmap N N) (v : list N) :
  forall acc r,
  foldlM (fun (acc : list N) p => q ← val_find newid p; Ret (acc ++ [q])) acc v
    = Ret r <->
  exists v', r = acc ++ v' /\ Forall2 (fun p q => newid !! p = Some q) v v'.
Proof.
  induction v as [|p v IH]; intros acc r; cbn [foldlM].
  - split.
    + intros [= <-]. exists []. by rewrite app_nil_r.
    + intros (v' & -> & Hv'). inversion Hv'. by rewrite app_nil_r.
  - rewrite res_bind_ret. split.
    + intros (acc1 & H1 & Hrun).
      apply res_bind_ret in H1 as (q & Hq%val_find_ret & [= <-]).
      apply IH in Hrun as (v' & -> & Hv').
      exists (q :: v'). split; [by rewrite <- app_assoc|by constructor].
    + intros (v' & -> & Hv'). inversion Hv' as [|? q ? v'' Hq Hrest]; subst.
      exists (acc ++ [q]). split.
      * apply val_find_ret in Hq. by rewrite Hq.
      * apply IH. exists v''. split; [by rewrite <- app_assoc|done].
Qed.

Lemma renumber_spec (newid : gmap N N) (v v' : list N) :
  renumber newid v = Ret v' <->
  Forall2 (fun p q => newid !! p = Some q) v v'.
Proof.
  unfold renumber. rewrite renumber_loop. split.
  - by intros (? & -> & ?).
  - intros H. by exists v'.
Qed.

Lemma renumber_node_loop (newid : gmap N N) (l : list (Z * list N)) :
  forall acc acc',
  foldlM (fun (acc : gmap Z (list N)) (c : Z * list N) =>
            v ← renumber newid c.2; Ret (<[c.1 := v]> acc)) acc l = Ret acc' ->
  NoDup l.*1 ->
  forall c,
    (forall nodes, (c, nodes) ∈ l ->
       exists nodes', acc' !! c = Some nodes' /\
                      Forall2 (fun p q => newid !! p = Some q) nodes nodes') /\
    (c ∉ l.*1 -> acc' !! c = acc !! c).
Proof.
  induction l as [|[k v] l IH]; intros acc acc' Hrun Hnd c.
  - injection Hrun as <-. split; [|done]. by intros nodes ?%elem_of_nil.
  - cbn [foldlM fst snd] in Hrun.
    apply res_bind_ret in Hrun as (acc1 & H1 & Hrun).
    apply res_bind_ret in H1 as (v' & Hv'%renumber_spec & [= <-]).
    cbn in Hnd. apply NoDup_cons in Hnd as [Hk Hnd].
    destruct (IH _ _ Hrun Hnd c) as [Hin Hout]. split.
    + intros nodes [[= -> ->]|Hn]%elem_of_cons; [|by apply Hin].
      exists v'. split; [|done]. rewrite Hout by done.
      by rewrite lookup_insert_eq.
    + cbn. intros [Hne Hc]%not_elem_of_cons. rewrite Hout by done.
      by rewrite lookup_insert_ne.
Qed.

Lemma renumber_node_spec (newid : gmap N N) (node node' : gmap Z (list N)) :
  renumber_node newid node = Ret node' ->
  forall c,
    match node !! c with
    | Some nodes =>
        exists nodes', node' !! c = Some nodes' /\
                       Forall2 (fun p q => newid !! p = Some q) nodes nodes'
    | None => node' !! c = None
    end.
Proof.
  intros Hrun c. unfold renumber_node in Hrun.
  destruct (renumber_node_loop _ _ _ _ Hrun (NoDup_fst_map_to_list node) c)
    as [Hin Hout].
  destruct (node !! c) as [nodes|] eqn:E.
  - apply Hin. by apply elem_of_map_to_list.
  - rewrite Hout; [done|].
    intros ([c' nodes] & -> & Hin'%elem_of_map_to_list)%list_elem_of_fmap.
    cbn in E. congruence.
Qed.

Lemma reordered_parts (mype npes : Z) (st st' : Partitioner)
    (log : list effect) :
  reordered mype npes st = Ret (st', log) ->
  build_chcid (m_newid st) (m_node st) (m_chcid st) = Ret (m_chcid st') /\
  renumber_node (m_newid st) (m_node st) = Ret (m_node st') /\
  renumber (m_newid st) (m_id st) = Ret (m_id st').
Proof.
  intros Hrun. unfold reordered in Hrun.
  apply res_bind_ret in Hrun as (chcid & Hch & Hrun).
  apply res_bind_ret in Hrun as (node & Hnode & Hrun).
  apply res_bind_ret in Hrun as (id & Hid & Hrun).
  apply bounds_fields in Hrun as (-> & _ & -> & -> & _). done.
Qed.

(** X6. When [reordered] returns, [m_node] has the same chares as before
    and the vector of each holds, position by position, the new IDs of
    the old ones; [m_id] likewise. Nothing is added, dropped or
    reordered. *)
Theorem reordered_renumbers_in_place (mype npes : Z) (st st' : Partitioner)
    (log : list effect) :
  reordered mype npes st = Ret (st', log) ->
  (forall c,
     match m_node st !! c with
     | Some nodes =>
         exists nodes', m_node st' !! c = Some nodes' /\
           Forall2 (fun p q => m_newid st !! p = Some q) nodes nodes'
     | None => m_node st' !! c = None
     end) /\
  Forall2 (fun p q => m_newid st !! p = Some q) (m_id st) (m_id st').
Proof.
  intros (_ & Hnode & Hid)%reordered_parts. split.
  - by apply renumber_node_spec.
  - by apply renumber_spec.
Qed.

(** X6 on PE 0 of the two-PE mesh. *)
Lemma reordered_renumbers_in_place_witness :
  (forall c,
     match m_node pe0_assigned !! c with
     | Some nodes =>
         exists nodes', m_node pe0_done !! c = Some nodes' /\
           Forall2 (fun p q => m_newid pe0_assigned !! p = Some q) nodes nodes'
     | None => m_node pe0_done !! c = None
     end) /\
  Forall2 (fun p q => m_newid pe0_assigned !! p = Some q)
          (m_id pe0_assigned) (m_id pe0_done).
Proof.
  apply (reordered_renumbers_in_place 0 2 pe0_assigned pe0_done
           [Sdag trigger_upper; Sdag trigger_lower; Send 1 (MsgLower 3)]).
  vm_compute. reflexivity.
Defined.

Lemma invert_nodes_entries (newid : gmap N N) (nodes : list N) :
  forall m m' k p,
  invert_nodes newid m nodes = Ret m' ->
  m' !! k = Some p ->
  m !! k = Some p \/ (p ∈ nodes /\ newid !! p = Some k).
Proof.
  induction nodes as [|q nodes IH]; intros m m' k p Hrun Hk.
  - injection Hrun as <-. by left.
  - unfold invert_nodes in Hrun. cbn [foldlM] in Hrun.
    apply res_bind_ret in Hrun as (m1 & H1 & Hrun).
    apply res_bind_ret in H1 as (vq & Hvq%val_find_ret & [= <-]).
    destruct (IH _ _ _ _ Hrun Hk) as [Hm|[Hin Hp]].
    + destruct (decide (vq = k)) as [->|Hne].
      * rewrite lookup_insert_eq in Hm. injection Hm as ->.
        right. split; [by left|done].
      * rewrite lookup_insert_ne in Hm by done. by left.
    + right. split; [by right|done].
Qed.

(** X7. The inverse maps hold nothing of their own: when [reordered]
    returns, every entry [k ↦ p] of the map of a chare of [m_node] was
    there before or is an old ID [p] of the chare whose new ID is [k],
    and the map of every other chare is untouched. *)
Theorem reordered_inverse_has_no_stray_entry (mype npes : Z)
    (st st' : Partitioner) (log : list effect) :
  reordered mype npes st = Ret (st', log) ->
  forall c,
    match m_node st !! c with
    | Some nodes =>
        exists m, m_chcid st' !! c = Some m /\
          forall k p, m !! k = Some p ->
            (exists m0, m_chcid st !! c = Some m0 /\ m0 !! k = Some p) \/
            (p ∈ nodes /\ m_newid st !! p = Some k)
    | None => m_chcid st' !! c = m_chcid st !! c
    end.
Proof.
  intros (Hbuild & _ & _)%reordered_parts c.
  destruct (m_node st !! c) as [nodes|] eqn:E.
  - destruct (build_chcid_spec _ _ _ _ _ _ Hbuild E) as (m & Hm & Hc).
    exists m. split; [done|]. intros k p Hk.
    destruct (invert_nodes_entries _ _ _ _ _ _ Hm Hk) as [H0|H1]; [|by right].
    left. destruct (m_chcid st !! c) as [m0|]; [by exists m0|].
    cbn in H0. by rewrite lookup_empty in H0.
  - unfold build_chcid in Hbuild.
    apply (build_chcid_loop_other _ _ _ _ _ Hbuild).
    intros ([c' nodes] & -> & Hin%elem_of_map_to_list)%list_elem_of_fmap.
    cbn in E. congruence.
Qed.

(** X7 on PE 0 of the two-PE mesh, chare 0. *)
Lemma reordered_inverse_has_no_stray_entry_witness :
  exists m, m_chcid pe0_done !! 0 = Some m /\
    forall k p, m !! k = Some p ->
      (exists m0, m_chcid pe0_assigned !! 0 = Some m0 /\ m0 !! k = Some p) \/
      (p ∈ [5; 6; 7; 8]%N /\ m_newid pe0_assigned !! p = Some k).
Proof.
  apply (reordered_inverse_has_no_stray_entry 0 2 pe0_assigned pe0_done
           [Sdag trigger_upper; Sdag trigger_lower; Send 1 (MsgLower 3)]
           reordered_pe0 0).
Defined.

(** X8. What a worker is handed agrees with itself: when [reordered]
    returns and no two nodes of a chare share a new ID, every entry of the
    chare's renumbered vector in [m_node] is a key of the chare's inverse
    map in [m_chcid], which takes it to the old ID that stood at that
    position. *)
Theorem reordered_vector_and_inverse_agree (mype npes : Z)
    (st st' : Partitioner) (log : list effect) (c : Z) (nodes : list N) :
  reordered mype npes st = Ret (st', log) ->
  m_node st !! c = Some nodes ->
  (forall p q, p ∈ nodes -> q ∈ nodes ->
               m_newid st !! q = m_newid st !! p -> q = p) ->
  exists nodes' m,
    m_node st' !! c = Some nodes' /\
    m_chcid st' !! c = Some m /\
    Forall2 (fun p q => m !! q = Some p) nodes nodes'.
Proof.
  intros (Hbuild & Hnode & _)%reordered_parts Hc Hinj.
  pose proof (renumber_node_spec _ _ _ Hnode c) as Hren. rewrite Hc in Hren.
  destruct Hren as (nodes' & Hc' & Hall).
  destruct (build_chcid_spec _ _ _ _ _ _ Hbuild Hc) as (m & Hm & Hlook).
  exists nodes', m. split; [done|]. split; [done|].
  apply Forall2_same_length_lookup. split; [by eapply Forall2_length|].
  intros i p q Hp Hq.
  pose proof (Forall2_lookup_lr _ _ _ _ _ _ Hall Hp Hq) as Hpq.
  destruct (invert_nodes_spec _ _ p _ _ Hm) as (v & Hv & Hmv).
  - by eapply list_elem_of_lookup_2.
  - intros q' Hq'. apply Hinj; [by eapply list_elem_of_lookup_2|done].
  - congruence.
Qed.

(** X8 on PE 0 of the two-PE mesh, chare 0. *)
Lemma reordered_vector_and_inverse_agree_witness :
  exists nodes' m,
    m_node pe0_done !! 0 = Some nodes' /\
    m_chcid pe0_done !! 0 = Some m /\
    Forall2 (fun p q => m !! q = Some p) [5; 6; 7; 8]%N nodes'.
Proof.
  apply (reordered_vector_and_inverse_agree 0 2 pe0_assigned pe0_done
           [Sdag trigger_upper; Sdag trigger_lower; Send 1 (MsgLower 3)]
           0 [5; 6; 7; 8]%N reordered_pe0).
  - reflexivity.
  - intros p q Hp Hq.
    repeat (apply elem_of_cons in Hp as [->|Hp]);
      try (by apply elem_of_nil in Hp);
      repeat (apply elem_of_cons in Hq as [->|Hq]);
      try (by apply elem_of_nil in Hq);
      try done; vm_compute; discriminate.
Defined.

(** ** Where [reordered] and [bounds] stop *)

Lemma foldlM_cases {A B} (f : B -> A -> res B) (ok : A -> Prop) (e : fault)
    (l : list A) :
  (forall b x, x ∈ l ->
     (ok x /\ exists b', f b x = Ret b') \/ (~ ok x /\ f b x = Fail e)) ->
  forall b,
    (Forall ok l /\ exists b', foldlM f b l = Ret b') \/
    (Exists (fun x => ~ ok x) l /\ foldlM f b l = Fail e).
Proof.
  induction l as [|x l IH]; intros Hf b.
  - left. split; [constructor|by exists b].
  - cbn [foldlM].
    destruct (Hf b x) as [[Hok (b1 & ->)]|[Hno ->]]; [by left| |].
    + destruct (IH (fun b y Hy => Hf b y (list_elem_of_further _ _ _ Hy)) b1)
        as [[Hall Hret]|[Hex Hfail]].
      * left. split; [by constructor|done].
      * right. split; [by right|done].
    + right. split; [by left|done].
Qed.

Lemma invert_nodes_cases (newid : gmap N N) (nodes : list N) (m : gmap N N) :
  (Forall (fun p => is_Some (newid !! p)) nodes /\
   exists m', invert_nodes newid m nodes = Ret m') \/
  (Exists (fun p => ~ is_Some (newid !! p)) nodes /\
   invert_nodes newid m nodes = Fail KeyNotFound).
Proof.
  unfold invert_nodes. apply foldlM_cases. intros m0 p _.
  unfold val_find. destruct (newid !! p) as [v|] eqn:E; cbn.
  - left. split; [by eexists|by eexists].
  - right. split; [|done]. by intros [? [=]].
Qed.

Lemma renumber_cases (newid : gmap N N) (v : list N) :
  (Forall (fun p => is_Some (newid !! p)) v /\
   exists v', renumber newid v = Ret v') \/
  (Exists (fun p => ~ is_Some (newid !! p)) v /\
   renumber newid v = Fail KeyNotFound).
Proof.
  unfold renumber. apply foldlM_cases. intros acc p _.
  unfold val_find. destruct (newid !! p) as [q|] eqn:E; cbn.
  - left. split; [by eexists|by eexists].
  - right. split; [|done]. by intros [? [=]].
Qed.

Lemma build_chcid_cases (newid : gmap N N) (node : gmap Z (list N))
    (chcid : gmap Z (gmap N N)) :
  (Forall (fun c : Z * list N => Forall (fun p => is_Some (newid !! p)) c.2)
          (map_to_list node) /\
   exists chcid', build_chcid newid node chcid = Ret chcid') \/
  (Exists (fun c : Z * list N =>
             ~ Forall (fun p => is_Some (newid !! p)) c.2) (map_to_list node) /\
   build_chcid newid node chcid = Fail KeyNotFound).
Proof.
  unfold build_chcid. apply foldlM_cases. intros ch [c nodes] _.
  unfold invert_chare. cbn [fst snd].
  destruct (invert_nodes_cases newid nodes (default ∅ (ch !! c)))
    as [[Hall (m' & ->)]|[Hex ->]]; cbn.
  - left. split; [done|by eexists].
  - right. split; [|done]. intros Hall.
    apply Exists_exists in Hex as (p & Hp & Hno).
    rewrite Forall_forall in Hall. by apply Hno, Hall.
Qed.

Lemma renumber_node_cases (newid : gmap N N) (node : gmap Z (list N)) :
  (Forall (fun c : Z * list N => Forall (fun p => is_Some (newid !! p)) c.2)
          (map_to_list node) /\
   exists node', renumber_node newid node = Ret node') \/
  (Exists (fun c : Z * list N =>
             ~ Forall (fun p => is_Some (newid !! p)) c.2) (map_to_list node) /\
   renumber_node newid node = Fail KeyNotFound).
Proof.
  unfold renumber_node. apply foldlM_cases. intros acc [c nodes] _.
  cbn [fst snd].
  destruct (renumber_cases newid nodes) as [[Hall (v' & ->)]|[Hex ->]]; cbn.
  - left. split; [done|by eexists].
  - right. split; [|done]. intros Hall.
    apply Exists_exists in Hex as (p & Hp & Hno).
    rewrite Forall_forall in Hall. by apply Hno, Hall.
Qed.

Lemma bounds_upper_cases (chcid : gmap Z (gmap N N)) :
  (Forall (fun c : Z * gmap N N => c.2 <> ∅) (map_to_list chcid) /\
   exists u, bounds_upper chcid = Ret u) \/
  (Exists (fun c : Z * gmap N N => ~ c.2 <> ∅) (map_to_list chcid) /\
   bounds_upper chcid = Fail PastTheEnd).
Proof.
  unfold bounds_upper. apply foldlM_cases. intros u [c m] _.
  unfold upper_of_chare. cbn [snd].
  pose proof (max_element_spec (map_to_list m)) as Hmax.
  destruct (Cxx.max_element _ _) as [x|].
  - left. split; [|by eexists]. intros ->.
    destruct Hmax as [Hin _]. rewrite map_to_list_empty in Hin.
    by apply elem_of_nil in Hin.
  - right. split; [|done]. intros Hne. by apply Hne, map_to_list_empty_iff.
Qed.

(** X9. [bounds] either returns or dereferences the end iterator that
    [std::max_element] gives for an empty map, and it does the latter
    exactly when the inverse map of some chare in [m_chcid] is empty. With
    no chare at all it returns with [m_upper] 0, or 1 on the last rank. *)
Theorem bounds_stops_on_empty_inverse_map (mype npes : Z) (st : Partitioner) :
  (bounds mype npes st = Fail PastTheEnd <->
   exists c, m_chcid st !! c = Some ∅) /\
  ((exists st' log, bounds mype npes st = Ret (st', log)) <->
   forall c m, m_chcid st !! c = Some m -> m <> ∅) /\
  (m_chcid st = ∅ ->
   exists st' log, bounds mype npes st = Ret (st', log) /\
     m_upper st' = if mype =? npes - 1 then 1%N else 0%N).
Proof.
  assert (bounds mype npes st = Fail PastTheEnd \/
          exists st' log, bounds mype npes st = Ret (st', log)) as Hdich.
  { unfold bounds. destruct (bounds_upper (m_chcid st)) as [u|e] eqn:E; cbn.
    - right. destruct (mype =? 0); cbn; by eexists _, _.
    - left. destruct (bounds_upper_cases (m_chcid st))
        as [[_ (u & Hu)]|[_ Hf]]; congruence. }
  assert ((exists c, m_chcid st !! c = Some ∅) ->
          bounds mype npes st = Fail PastTheEnd) as Hfail.
  { intros (c & Hc). unfold bounds.
    destruct (bounds_upper_cases (m_chcid st)) as [[Hall _]|[_ ->]]; [|done].
    rewrite Forall_forall in Hall.
    by destruct (Hall (c, ∅) (proj2 (elem_of_map_to_list _ _ _) Hc)). }
  assert ((forall c m, m_chcid st !! c = Some m -> m <> ∅) ->
          exists st' log, bounds mype npes st = Ret (st', log)) as Hret
    by apply bounds_returns.
  split; [|split].
  - split; [|done]. intros Hf.
    destruct (bounds_upper_cases (m_chcid st)) as [[_ (u & Hu)]|[Hex _]].
    + unfold bounds in Hf. rewrite Hu in Hf. cbn in Hf.
      destruct (mype =? 0); cbn in Hf; discriminate.
    + apply Exists_exists in Hex as ([c m] & Hin%elem_of_map_to_list & Hm).
      exists c. cbn in Hm. destruct (decide (m = ∅)) as [->|]; [done|].
      by destruct Hm.
  - split; [|done]. intros (st' & log & Hr) c m Hc ->.
    rewrite Hfail in Hr by eauto. discriminate.
  - intros Hemp. unfold bounds, bounds_upper.
    rewrite Hemp, map_to_list_empty. cbn.
    destruct (mype =? npes - 1), (mype =? 0); cbn; by eexists _, _.
Qed.

(** X10. [reordered] stops for a missing key exactly when some node of
    [m_node] or some ID of [m_id] has no new ID in [m_newid]; it stops
    for nothing else than a missing key or an empty inverse map. *)
Theorem reordered_stops_on_missing_key (mype npes : Z) (st : Partitioner) :
  (reordered mype npes st = Fail KeyNotFound <->
   (exists c nodes p, m_node st !! c = Some nodes /\ p ∈ nodes /\
                      m_newid st !! p = None) \/
   (exists p, p ∈ m_id st /\ m_newid st !! p = None)) /\
  (forall e, reordered mype npes st = Fail e ->
             e = KeyNotFound \/ e = PastTheEnd).
Proof.
  assert (forall (c : Z * list N),
            ~ Forall (fun p => is_Some (m_newid st !! p)) c.2 ->
            exists p, p ∈ c.2 /\ m_newid st !! p = None) as Hmiss.
  { intros c Hc. apply not_Forall_Exists in Hc; [|solve_decision].
    apply Exists_exists in Hc as (p & Hp & Hno). exists p. split; [done|].
    by apply eq_None_not_Some. }
  unfold reordered.
  destruct (build_chcid_cases (m_newid st) (m_node st) (m_chcid st))
    as [[Hall (chcid & ->)]|[Hex ->]]; cbn.
  2:{ split; [|intros e [= <-]; by left]. split; [intros _|done].
      apply Exists_exists in Hex as ([c nodes] & Hin%elem_of_map_to_list & Hc).
      destruct (Hmiss _ Hc) as (p & Hp & Hnone). left. by exists c, nodes, p. }
  destruct (renumber_node_cases (m_newid st) (m_node st))
    as [[_ (node & ->)]|[Hex _]]; cbn.
  2:{ exfalso. apply Exists_exists in Hex as (c & Hin & Hc).
      rewrite Forall_forall in Hall. by apply Hc, Hall. }
  destruct (renumber_cases (m_newid st) (m_id st))
    as [[Hid (id & ->)]|[Hex ->]]; cbn.
  2:{ split; [|intros e [= <-]; by left]. split; [intros _|done].
      apply Exists_exists in Hex as (p & Hp & Hno). right. exists p.
      split; [done|]. by apply eq_None_not_Some. }
  assert (~ ((exists c nodes p, m_node st !! c = Some nodes /\ p ∈ nodes /\
                               m_newid st !! p = None) \/
             (exists p, p ∈ m_id st /\ m_newid st !! p = None))) as Hnone.
  { pose proof (proj1 (Forall_forall _ _) Hall) as Hall'.
    pose proof (proj1 (Forall_forall _ _) Hid) as Hid'.
    intros [(c & nodes & p & Hc & Hp & Hnone)|(p & Hp & Hnone)].
    - apply elem_of_map_to_list in Hc. specialize (Hall' _ Hc). cbn in Hall'.
      pose proof (proj1 (Forall_forall _ _) Hall' p Hp) as [? ?]. congruence.
    - destruct (Hid' p Hp) as [? ?]. congruence. }
  set (st1 := mkPartitioner _ _ _ _ _ _ _ _).
  destruct (bounds_upper_cases (m_chcid st1)) as [[_ (u & Hu)]|[_ Hf]].
  - assert (exists st' log, bounds mype npes st1 = Ret (st', log))
      as (st' & log & ->).
    { unfold bounds. rewrite Hu. cbn. destruct (mype =? 0); cbn; by eexists _, _. }
    split; [|done]. split; [done|]. intros H. by destruct Hnone.
  - assert (bounds mype npes st1 = Fail PastTheEnd) as ->.
    { unfold bounds. by rewrite Hf. }
    split; [|intros e [= <-]; by right]. split; [done|].
    intros H. by destruct Hnone.
Qed.

(** ** Requests and replies: [request], [prepare], [neworder] *)

Lemma foldl_insert_pairs (l : list (N * N)) :
  NoDup l.*1 ->
  forall (m : gmap N N) k,
    (forall v, (k, v) ∈ l ->
       foldl (fun (m : gmap N N) (p : N * N) => <[p.1 := p.2]> m) m l !! k
         = Some v) /\
    (k ∉ l.*1 ->
       foldl (fun (m : gmap N N) (p : N * N) => <[p.1 := p.2]> m) m l !! k
         = m !! k).
Proof.
  induction l as [|[k0 v0] l IH]; intros Hnd m k; cbn [foldl fst snd].
  - split; [by intros v ?%elem_of_nil|done].
  - cbn in Hnd. apply NoDup_cons in Hnd as [Hk0 Hnd].
    destruct (IH Hnd (<[k0 := v0]> m) k) as [Hin Hout]. split.
    + intros v [[= -> ->]|Hv]%elem_of_cons; [|by apply Hin].
      rewrite Hout by done. by rewrite lookup_insert_eq.
    + cbn. intros [Hne Hk]%not_elem_of_cons. rewrite Hout by done.
      by rewrite lookup_insert_ne.
Qed.

Lemma neworder_newid (id newid : gmap N N) :
  foldl (fun (m : gmap N N) (p : N * N) => <[p.1 := p.2]> m) newid
        (map_to_list id) = id ∪ newid.
Proof.
  apply map_eq. intros k.
  destruct (foldl_insert_pairs (map_to_list id) (NoDup_fst_map_to_list id)
              newid k) as [Hin Hout].
  destruct (id !! k) as [v|] eqn:E.
  - rewrite (Hin v) by (by apply elem_of_map_to_list).
    symmetry. by apply lookup_union_Some_l.
  - rewrite Hout, lookup_union_r; [done..|].
    intros ([k' v] & -> & Hin'%elem_of_map_to_list)%list_elem_of_fmap.
    cbn in E. congruence.
Qed.

Lemma neworder_fields (mype npes : Z) (id : gmap N N) (st st' : Partitioner)
    (log : list effect) :
  neworder mype npes id st = Ret (st', log) ->
  m_newid st' = id ∪ m_newid st /\
  m_reordered st' = Cxx.add (m_reordered st) (N.of_nat (size id)).
Proof.
  unfold neworder. rewrite neworder_newid. cbn [m_reordered m_id].
  destruct (_ =? _)%N.
  - intros Hrun. by apply reordered_keeps_newid in Hrun as [-> ->].
  - by intros [= <- _].
Qed.

(** X11. [neworder] merges the received map into [m_newid], a received
    new ID replacing one already stored for the same old ID, and adds the
    number of received entries to [m_reordered], whether or not they were
    new. Unless the count then equals the number of IDs of [m_id], it
    changes nothing else and asks nothing of the runtime. *)
Theorem neworder_merges_reply (mype npes : Z) (id : gmap N N)
    (st st' : Partitioner) (log : list effect) :
  neworder mype npes id st = Ret (st', log) ->
  m_newid st' = id ∪ m_newid st /\
  m_reordered st' = Cxx.add (m_reordered st) (N.of_nat (size id)) /\
  (m_reordered st' <> N.of_nat (length (m_id st)) ->
   log = [] /\
   st' = mkPartitioner (m_req st) (m_reordered st') (m_lower st) (m_upper st)
                       (m_node st) (m_id st) (m_newid st') (m_chcid st)).
Proof.
  intros Hrun. pose proof (neworder_fields _ _ _ _ _ _ Hrun) as [Hn Hr].
  split; [done|]. split; [done|]. intros Hne.
  unfold neworder in Hrun. rewrite neworder_newid in Hrun.
  cbn [m_reordered m_id] in Hrun. rewrite <- Hr, <- Hn in Hrun.
  destruct (N.eqb_spec (m_reordered st') (N.of_nat (length (m_id st))));
    [done|]. by injection Hrun as <- <-.
Qed.

(** X11 on PE 1 of the two-PE mesh, when the reply of PE 0 arrives. *)
Lemma neworder_merges_reply_witness :
  m_newid pe1_answered = {[ 7%N := 2%N; 8%N := 3%N ]} ∪ m_newid pe1_done /\
  m_reordered pe1_answered
    = Cxx.add (m_reordered pe1_done)
              (N.of_nat (size ({[ 7%N := 2%N; 8%N := 3%N ]} : gmap N N))) /\
  (m_reordered pe1_answered <> N.of_nat (length (m_id pe1_done)) ->
   @nil effect = [] /\
   pe1_answered =
     mkPartitioner (m_req pe1_done) (m_reordered pe1_answered)
       (m_lower pe1_done) (m_upper pe1_done) (m_node pe1_done)
       (m_id pe1_done) (m_newid pe1_answered) (m_chcid pe1_done)).
Proof.
  apply (neworder_merges_reply 1 2 {[ 7%N := 2%N; 8%N := 3%N ]}
           pe1_done pe1_answered []).
  vm_compute. reflexivity.
Defined.

(** The reply to one request: the new IDs of the requested old IDs. *)
Lemma reply_loop (newid : gmap N N) (l : list N) :
  forall n0 n : gmap N N,
  foldlM (fun (n : gmap N N) p => v ← val_find newid p; Ret (<[p := v]> n))
         n0 l = Ret n ->
  forall k, n !! k = if decide (k ∈ l) then newid !! k else n0 !! k.
Proof.
  induction l as [|p l IH]; intros n0 n Hrun k.
  - injection Hrun as <-. rewrite decide_False; [done|]. apply not_elem_of_nil.
  - cbn [foldlM] in Hrun. apply res_bind_ret in Hrun as (n1 & H1 & Hrun).
    apply res_bind_ret in H1 as (v & Hv%val_find_ret & [= <-]).
    rewrite (IH _ _ Hrun k).
    destruct (decide (k ∈ l)) as [Hin|Hout].
    + rewrite decide_True; [done|by right].
    + destruct (decide (k = p)) as [->|Hne].
      * rewrite decide_True by (by left). by rewrite lookup_insert_eq.
      * rewrite decide_False by (by intros [?|?]%elem_of_cons).
        by rewrite lookup_insert_ne.
Qed.

Lemma reply_cases (newid : gmap N N) (ids : gset N) :
  ((forall p, p ∈ ids -> is_Some (newid !! p)) /\
   exists n,
     foldlM (fun (n : gmap N N) p => v ← val_find newid p; Ret (<[p := v]> n))
            ∅ (elements ids) = Ret n /\
     forall k, n !! k = if decide (k ∈ ids) then newid !! k else None) \/
  ((exists p, p ∈ ids /\ newid !! p = None) /\
   foldlM (fun (n : gmap N N) p => v ← val_find newid p; Ret (<[p := v]> n))
          ∅ (elements ids) = Fail KeyNotFound).
Proof.
  destruct (foldlM_cases
              (fun (n : gmap N N) p => v ← val_find newid p; Ret (<[p := v]> n))
              (fun p => is_Some (newid !! p)) KeyNotFound (elements ids))
    with (b := (∅ : gmap N N)) as [[Hall (n & Hn)]|[Hex Hf]].
  - intros n p _. unfold val_find. destruct (newid !! p) as [v|]; cbn.
    + left. split; by eexists.
    + right. split; [|done]. by intros [? [=]].
  - left. rewrite Forall_forall in Hall. split.
    + intros p Hp. by apply Hall, elem_of_elements.
    + exists n. split; [done|]. intros k. rewrite (reply_loop _ _ _ _ Hn k).
      rewrite lookup_empty.
      destruct (decide (k ∈ elements ids)) as [Hin|Hout].
      * rewrite decide_True; [done|by apply elem_of_elements].
      * rewrite decide_False; [done|]. by rewrite <- elem_of_elements.
  - right. split; [|done].
    apply Exists_exists in Hex as (p & Hp%elem_of_elements & Hno).
    exists p. split; [done|]. by apply eq_None_not_Some.
Qed.

(** The loop of [prepare] over the queue, from the log [log0]. *)
Lemma prepare_loop (newid : gmap N N) (reqs : list (Z * gset N)) :
  forall log0 : list effect,
  ((forall r p, r ∈ reqs -> p ∈ r.2 -> is_Some (newid !! p)) /\
   exists replies : list (Z * gmap N N),
     foldlM (fun log (r : Z * gset N) =>
               n ← foldlM (fun n p => v ← val_find newid p;
                                      Ret (<[p := v]> n))
                          (∅ : gmap N N) (elements r.2);
               Ret (log ++ [Send r.1 (MsgNeworder n)]))
            log0 reqs
       = Ret (log0 ++ ((fun rn : Z * gmap N N => Send rn.1 (MsgNeworder rn.2))
                         <$> replies)) /\
     Forall2 (fun (r : Z * gset N) (rn : Z * gmap N N) =>
                rn.1 = r.1 /\
                forall k, rn.2 !! k
                          = if decide (k ∈ r.2) then newid !! k else None)
             reqs replies) \/
  ((exists r p, r ∈ reqs /\ p ∈ r.2 /\ newid !! p = None) /\
   foldlM (fun log (r : Z * gset N) =>
             n ← foldlM (fun n p => v ← val_find newid p;
                                    Ret (<[p := v]> n))
                        (∅ : gmap N N) (elements r.2);
             Ret (log ++ [Send r.1 (MsgNeworder n)]))
          log0 reqs
     = Fail KeyNotFound).
Proof.
  induction reqs as [|[pe ids] reqs IH]; intros log0.
  - left. split; [by intros r p ?%elem_of_nil|].
    exists []. split; [cbn; by rewrite app_nil_r|constructor].
  - cbn [foldlM fst snd].
    destruct (reply_cases newid ids) as [[Hall (n & -> & Hn)]|[(p & Hp & Hnone) ->]];
      cbn.
    + destruct (IH (log0 ++ [Send pe (MsgNeworder n)]))
        as [[Hall' (replies & -> & Hf2)]|[(r & p & Hr & Hp & Hnone) ->]].
      * left. split.
        { intros r p [->|Hr]%elem_of_cons Hp; [by apply Hall|by eapply Hall']. }
        exists ((pe, n) :: replies). split.
        { cbn. by rewrite <- app_assoc. }
        constructor; [done|done].
      * right. split; [|done]. exists r, p. split; [by right|done].
    + right. split; [|done]. exists (pe, ids), p. split; [by left|done].
Qed.

(** X12. When every requested old ID has a new ID, [prepare] answers the
    queued requests in the order they arrived, one [neworder] message per
    request and to its sender, carrying the new IDs of exactly the
    requested old IDs; it empties the queue and changes nothing else. *)
Theorem prepare_answers_queue (st : Partitioner) :
  (forall r p, r ∈ m_req st -> p ∈ r.2 -> is_Some (m_newid st !! p)) ->
  exists replies : list (Z * gmap N N),
    prepare st =
      Ret (mkPartitioner [] (m_reordered st) (m_lower st) (m_upper st)
                         (m_node st) (m_id st) (m_newid st) (m_chcid st),
           ((fun rn : Z * gmap N N => Send rn.1 (MsgNeworder rn.2)) <$> replies)
             ++ [Sdag wait4prep; Sdag trigger_reorderowned_complete]) /\
    Forall2 (fun (r : Z * gset N) (rn : Z * gmap N N) =>
               rn.1 = r.1 /\
               forall k, rn.2 !! k
                         = if decide (k ∈ r.2) then m_newid st !! k else None)
            (m_req st) replies.
Proof.
  intros Hall. unfold prepare.
  destruct (prepare_loop (m_newid st) (m_req st) [])
    as [[_ (replies & -> & Hf2)]|[(r & p & Hr & Hp & Hnone) _]].
  - exists replies. split; [done|done].
  - destruct (Hall r p Hr Hp) as [? ?]. congruence.
Qed.

(** X12 on PE 0 of the two-PE mesh, with the request of PE 1 queued. *)
Lemma prepare_answers_queue_witness :
  exists replies : list (Z * gmap N N),
    prepare (request 1 {[ 7%N; 8%N ]} pe0_done).1 =
      Ret (mkPartitioner [] (m_reordered pe0_done) (m_lower pe0_done)
             (m_upper pe0_done) (m_node pe0_done) (m_id pe0_done)
             (m_newid pe0_done) (m_chcid pe0_done),
           ((fun rn : Z * gmap N N => Send rn.1 (MsgNeworder rn.2)) <$> replies)
             ++ [Sdag wait4prep; Sdag trigger_reorderowned_complete]) /\
    Forall2 (fun (r : Z * gset N) (rn : Z * gmap N N) =>
               rn.1 = r.1 /\
               forall k, rn.2 !! k
                         = if decide (k ∈ r.2) then m_newid pe0_done !! k
                           else None)
            [(1, ({[ 7%N; 8%N ]} : gset N))] replies.
Proof.
  apply (prepare_answers_queue (request 1 {[ 7%N; 8%N ]} pe0_done).1).
  intros r p Hr Hp. cbn in Hr.
  apply list_elem_of_singleton in Hr as ->. cbn in Hp.
  apply elem_of_union in Hp as [->%elem_of_singleton| ->%elem_of_singleton];
    vm_compute; by eexists.
Defined.

(** X13. [prepare] stops for a missing key exactly when some queued
    request asks for an old ID that has no new ID yet, and it stops for
    nothing else. *)
Theorem prepare_stops_on_unknown_id (st : Partitioner) :
  (prepare st = Fail KeyNotFound <->
   exists r p, r ∈ m_req st /\ p ∈ r.2 /\ m_newid st !! p = None) /\
  (forall e, prepare st = Fail e -> e = KeyNotFound).
Proof.
  unfold prepare.
  destruct (prepare_loop (m_newid st) (m_req st) [])
    as [[Hall (replies & -> & _)]|[Hex ->]]; cbn.
  - split; [|done]. split; [done|].
    intros (r & p & Hr & Hp & Hnone). destruct (Hall r p Hr Hp) as [? ?].
    congruence.
  - split; [done|]. by intros e [= <-].
Qed.

(** X14. One request, served and delivered. If PE [owner] has an empty
    queue and a new ID for every old ID of [ids], then after
    [request(pe, ids)] its [prepare] sends [pe] one reply, and when
    [neworder] has taken that reply in, the requester holds for every old
    ID of [ids] the owner's new ID, keeps what it had for every other old
    ID, and has counted [|ids|] more reordered nodes. *)
Theorem reply_reaches_requester (mype npes pe : Z) (ids : gset N)
    (owner requester : Partitioner) :
  m_req owner = [] ->
  (forall p, p ∈ ids -> is_Some (m_newid owner !! p)) ->
  exists n : gmap N N,
    prepare (request pe ids owner).1 =
      Ret (mkPartitioner [] (m_reordered owner) (m_lower owner) (m_upper owner)
                         (m_node owner) (m_id owner) (m_newid owner)
                         (m_chcid owner),
           [Send pe (MsgNeworder n); Sdag wait4prep;
            Sdag trigger_reorderowned_complete]) /\
    forall requester' log,
      neworder mype npes n requester = Ret (requester', log) ->
      (forall p, p ∈ ids -> m_newid requester' !! p = m_newid owner !! p) /\
      (forall p, p ∉ ids -> m_newid requester' !! p = m_newid requester !! p) /\
      m_reordered requester'
        = Cxx.add (m_reordered requester) (N.of_nat (size ids)).
Proof.
  intros Hq Hall. unfold prepare, request. cbn [fst m_req m_newid m_reordered
    m_lower m_upper m_node m_id m_chcid]. rewrite Hq. cbn [app foldlM fst snd].
  destruct (reply_cases (m_newid owner) ids)
    as [[_ (n & -> & Hn)]|[(p & Hp & Hnone) _]].
  2:{ destruct (Hall p Hp) as [? ?]. congruence. }
  exists n. split; [done|].
  intros requester' log Hrun.
  apply neworder_fields in Hrun as [-> ->].
  assert (dom n = ids) as Hdom.
  { apply set_eq. intros k. rewrite elem_of_dom, Hn.
    destruct (decide (k ∈ ids)) as [Hin|Hout].
    - split; [done|]. intros _. by apply Hall.
    - split; [by intros [? [=]]|done]. }
  split; [|split].
  - intros p Hp. destruct (Hall p Hp) as [v Hv].
    rewrite Hv. apply lookup_union_Some_l. rewrite Hn, decide_True by done. done.
  - intros p Hp. apply lookup_union_r. rewrite Hn. by rewrite decide_False.
  - by rewrite <- Hdom, size_dom.
Qed.

(** X14 on the two-PE mesh: PE 1 asks PE 0 for nodes 7 and 8. *)
Lemma reply_reaches_requester_witness :
  exists n : gmap N N,
    prepare (request 1 {[ 7%N; 8%N ]} pe0_done).1 =
      Ret (mkPartitioner [] (m_reordered pe0_done) (m_lower pe0_done)
             (m_upper pe0_done) (m_node pe0_done) (m_id pe0_done)
             (m_newid pe0_done) (m_chcid pe0_done),
           [Send 1 (MsgNeworder n); Sdag wait4prep;
            Sdag trigger_reorderowned_complete]) /\
    forall requester' log,
      neworder 1 2 n pe1_done = Ret (requester', log) ->
      (forall p, p ∈ ({[ 7%N; 8%N ]} : gset N) ->
                 m_newid requester' !! p = m_newid pe0_done !! p) /\
      (forall p, p ∉ ({[ 7%N; 8%N ]} : gset N) ->
                 m_newid requester' !! p = m_newid pe1_done !! p) /\
      m_reordered requester'
        = Cxx.add (m_reordered pe1_done)
                  (N.of_nat (size ({[ 7%N; 8%N ]} : gset N))).
Proof.
  apply (reply_reaches_requester 1 2 1 {[ 7%N; 8%N ]} pe0_done pe1_done).
  - reflexivity.
  - intros p Hp.
    apply elem_of_union in Hp as [->%elem_of_singleton| ->%elem_of_singleton];
      vm_compute; by eexists.
Defined.

(** ** Distributing the node groups *)

Lemma foldlM_fmap {A A' B} (f : B -> A' -> res B) (g : A -> A') (l : list A) :
  forall b, foldlM (fun b x => f b (g x)) b l = foldlM f b (g <$> l).
Proof.
  induction l as [|x l IH]; intros b; [done|]. cbn.
  destruct (f b (g x)); cbn; [apply IH|done].
Qed.

Lemma take_owned_eq (chid : Z) (node n : gmap Z (list N)) :
  Distribution.take_owned chid (node, n) =
    Ret (match n !! chid with
         | Some v => (map_insert_new chid v node, delete chid n)
         | None => (node, n)
         end).
Proof.
  unfold Distribution.take_owned. destruct (n !! chid) as [v|] eqn:E.
  - rewrite lookup_delete_eq. by rewrite bool_decide_eq_true_2.
  - rewrite E. by rewrite bool_decide_eq_true_2.
Qed.

Lemma map_insert_new_lookup {V} (k k' : Z) (v : V) (m : gmap Z V) :
  map_insert_new k v m !! k' =
    match m !! k' with
    | Some w => Some w
    | None => if decide (k' = k) then Some v else None
    end.
Proof.
  unfold map_insert_new. destruct (m !! k) as [w|] eqn:E.
  - destruct (m !! k') as [w'|] eqn:E'; [done|].
    destruct (decide (k' = k)) as [->|]; [congruence|done].
  - destruct (decide (k' = k)) as [->|Hne].
    + by rewrite lookup_insert_eq, E.
    + rewrite lookup_insert_ne by done. by destruct (m !! k').
Qed.

(** The first loop of [distribute] over the chare IDs [ids]. *)
Lemma take_owned_loop (ids : list Z) :
  forall node n : gmap Z (list N),
  exists node' n',
    foldlM (fun s chid => Distribution.take_owned chid s) (node, n) ids
      = Ret (node', n') /\
    (forall k, n' !! k = if decide (k ∈ ids) then None else n !! k) /\
    (forall k, node' !! k =
       match node !! k with
       | Some v => Some v
       | None => if decide (k ∈ ids) then n !! k else None
       end).
Proof.
  induction ids as [|chid ids IH]; intros node n.
  - exists node, n. split; [done|]. split.
    + intros k. rewrite decide_False; [done|apply not_elem_of_nil].
    + intros k. destruct (node !! k); [done|].
      rewrite decide_False; [done|apply not_elem_of_nil].
  - cbn [foldlM]. rewrite take_owned_eq. cbn.
    destruct (n !! chid) as [v|] eqn:E.
    + destruct (IH (map_insert_new chid v node) (delete chid n))
        as (node' & n' & -> & Hn & Hnode).
      exists node', n'. split; [done|]. split.
      * intros k. rewrite Hn.
        destruct (decide (k ∈ ids)) as [Hin|Hout].
        -- rewrite decide_True; [done|by right].
        -- destruct (decide (k = chid)) as [->|Hne].
           ++ rewrite decide_True by (by left). by rewrite lookup_delete_eq.
           ++ rewrite decide_False by (by intros [?|?]%elem_of_cons).
              by rewrite lookup_delete_ne.
      * intros k. rewrite Hnode, map_insert_new_lookup.
        destruct (node !! k) as [w|]; [done|].
        destruct (decide (k = chid)) as [->|Hne].
        -- rewrite decide_True by (by left). done.
        -- destruct (decide (k ∈ ids)) as [Hin|Hout].
           ++ rewrite decide_True by (by right). by rewrite lookup_delete_ne.
           ++ by rewrite decide_False by (by intros [?|?]%elem_of_cons).
    + destruct (IH node n) as (node' & n' & -> & Hn & Hnode).
      exists node', n'. split; [done|]. split.
      * intros k. rewrite Hn.
        destruct (decide (k ∈ ids)) as [Hin|Hout].
        -- rewrite decide_True; [done|by right].
        -- destruct (decide (k = chid)) as [->|Hne].
           ++ rewrite decide_True by (by left). done.
           ++ by rewrite decide_False by (by intros [?|?]%elem_of_cons).
      * intros k. rewrite Hnode. destruct (node !! k) as [w|]; [done|].
        destruct (decide (k ∈ ids)) as [Hin|Hout].
        -- rewrite decide_True; [done|by right].
        -- destruct (decide (k = chid)) as [->|Hne].
           ++ rewrite decide_True by (by left). done.
           ++ by rewrite decide_False by (by intros [?|?]%elem_of_cons).
Qed.

Lemma export_loop (m_nchare CkNumPes : Z) (l : list (Z * list N)) :
  forall (done : list (Z * list N)) (exp exp' : gmap Z (gmap Z (list N))),
  NoDup (done ++ l).*1 ->
  exports_of m_nchare CkNumPes done exp ->
  foldlM (Distribution.export_entry m_nchare CkNumPes) exp l = Ret exp' ->
  exports_of m_nchare CkNumPes (done ++ l) exp'.
Proof.
  induction l as [|[c v] l IH]; intros done exp exp' Hnd Hexp Hrun.
  - injection Hrun as <-. by rewrite app_nil_r.
  - cbn [foldlM] in Hrun. apply res_bind_ret in Hrun as (exp1 & H1 & Hrun).
    unfold Distribution.export_entry in H1. cbn [fst snd] in H1.
    apply res_bind_ret in H1 as (p & Hp & [= <-]).
    replace (done ++ (c, v) :: l) with ((done ++ [(c, v)]) ++ l) in *
      by (by rewrite <- app_assoc).
    eapply IH; [exact Hnd| |exact Hrun].
    rewrite fmap_app in Hnd. apply NoDup_app in Hnd as (Hnd & _ & _).
    rewrite fmap_app in Hnd. apply NoDup_app in Hnd as (_ & Hfresh & _).
    assert (forall v', (c, v') ∉ done) as Hc.
    { intros v' Hin. apply (Hfresh c); [|by left].
      apply list_elem_of_fmap. by exists (c, v'). }
    destruct Hexp as [Hent Hne].
    assert (default ∅ (exp !! p) !! c = None) as Hnone.
    { destruct (exp !! p) as [m0|] eqn:E; [|done]. cbn.
      destruct (m0 !! c) as [v'|] eqn:E'; [|done].
      destruct (proj1 (Hent p c v')) as [Hin _]; [by exists m0|].
      by destruct (Hc v'). }
    assert (map_insert_new c v (default ∅ (exp !! p))
            = <[c := v]> (default ∅ (exp !! p))) as Hins.
    { unfold map_insert_new. by rewrite Hnone. }
    rewrite Hins. split.
    + intros p' c' v'. rewrite elem_of_app, list_elem_of_singleton.
      destruct (decide (p' = p)) as [->|Hpne].
      * rewrite lookup_insert_eq. split.
        -- intros (m & [= <-] & Hm).
           destruct (decide (c' = c)) as [->|Hcne].
           ++ rewrite lookup_insert_eq in Hm. injection Hm as <-.
              split; [by right|done].
           ++ rewrite lookup_insert_ne in Hm by done.
              destruct (exp !! p) as [m0|] eqn:E; [|done]. cbn in Hm.
              destruct (proj1 (Hent p c' v')) as [Hin Hpe]; [by exists m0|].
              split; [by left|done].
        -- intros [[Hin|[= -> ->]] Hpe].
           ++ destruct (proj2 (Hent p c' v') (conj Hin Hpe)) as (m0 & E & Hm0).
              eexists. split; [done|]. rewrite E. cbn.
              rewrite lookup_insert_ne; [done|]. intros <-. by destruct (Hc v').
           ++ eexists. split; [done|]. by rewrite lookup_insert_eq.
      * rewrite lookup_insert_ne by done. rewrite Hent. split.
        -- intros [Hin Hpe]. split; [by left|done].
        -- intros [[Hin|[= -> ->]] Hpe]; [done|]. congruence.
    + intros p' m. destruct (decide (p' = p)) as [->|Hpne].
      * rewrite lookup_insert_eq. intros [= <-]. apply insert_non_empty.
      * rewrite lookup_insert_ne by done. apply Hne.
Qed.

Lemma export_map_spec (m_nchare CkNumPes : Z) (n : gmap Z (list N))
    (exp : gmap Z (gmap Z (list N))) :
  Distribution.export_map m_nchare CkNumPes n = Ret exp ->
  (forall p c v,
     (exists m, exp !! p = Some m /\ m !! c = Some v) <->
     (n !! c = Some v /\ pe m_nchare CkNumPes c = Ret p)) /\
  (forall p m, exp !! p = Some m -> m <> ∅).
Proof.
  intros Hrun. unfold Distribution.export_map in Hrun.
  destruct (export_loop m_nchare CkNumPes (map_to_list n) [] ∅ exp)
    as [Hent Hne]; [apply NoDup_fst_map_to_list| |done|].
  - split.
    + intros p c v. rewrite lookup_empty. split.
      * by intros (? & [=] & _).
      * by intros [?%elem_of_nil _].
    + intros p m. by rewrite lookup_empty.
  - split; [|done]. intros p c v. rewrite Hent. cbn [app].
    by rewrite elem_of_map_to_list.
Qed.

Lemma pe_quot (nchare npes id : Z) :
  1 <= npes -> npes <= nchare ->
  pe nchare npes id = Ret (Z.min (id ÷ (nchare / npes)) (npes - 1)).
Proof.
  intros Hp Hc.
  assert (1 <= nchare / npes) as Hchunk by (apply Z.div_le_lower_bound; lia).
  unfold pe. rewrite int_div_nonneg by lia. cbn.
  unfold Cxx.int_div.
  destruct (Z.eqb_spec (nchare / npes) 0); [lia|].
  assert ((nchare / npes =? -1) = false) as -> by (apply Z.eqb_neq; lia).
  rewrite andb_false_r. cbn.
  destruct (Z.geb_spec (id ÷ (nchare / npes)) npes).
  - assert ((npes - 1 <? npes) = true) as -> by (apply Z.ltb_lt; lia).
    cbn. f_equal. lia.
  - assert ((id ÷ (nchare / npes) <? npes) = true) as ->
      by (apply Z.ltb_lt; lia).
    cbn. f_equal. lia.
Qed.

(** In range, [pe] names the rank whose own chare IDs hold the ID. *)
Lemma pe_owned_iff (nchare npes u p : Z) :
  1 <= npes -> npes <= nchare -> 0 <= u < nchare -> 0 <= p < npes ->
  exists owned, owned_chares nchare npes p = Ret owned /\
    (pe nchare npes u = Ret p <-> u ∈ owned).
Proof.
  intros Hp Hc Hu Hpr.
  destruct (owned_chares_eq nchare npes p) as (owned & Ho & Hin); [lia..|].
  exists owned. split; [done|].
  rewrite Hin, pe_eq by lia.
  set (chunk := nchare / npes).
  assert (1 <= chunk) by (apply Z.div_le_lower_bound; lia).
  pose proof (Z.div_mod nchare npes ltac:(lia)) as Hdm. fold chunk in Hdm.
  pose proof (Z.mod_pos_bound nchare npes ltac:(lia)) as Hmb.
  pose proof (Z.div_mod u chunk ltac:(lia)) as Hu'.
  pose proof (Z.mod_pos_bound u chunk ltac:(lia)) as Hub.
  set (q := u / chunk) in *. set (r := u mod chunk) in *.
  destruct (Z.eqb_spec p (npes - 1)) as [->|Hne].
  - split.
    + intros [= Hmin]. split; nia.
    + intros [Hlo Hhi]. f_equal. assert (npes - 1 <= q) by nia. lia.
  - split.
    + intros [= Hmin]. assert (q = p) by lia. subst q. nia.
    + intros [Hlo Hhi]. f_equal. assert (q = p) by nia. lia.
Qed.

Lemma distribute_ret (nchare npes mype : Z) (n m_node node' : gmap Z (list N))
    (npe : N) (log : list Distribution.dist_effect) :
  Distribution.distribute nchare npes mype n m_node = Ret (node', npe, log) ->
  exists owned n' exp,
    owned_chares nchare npes mype = Ret owned /\
    (forall k, n' !! k = if decide (k ∈ owned) then None else n !! k) /\
    (forall k, node' !! k =
       match m_node !! k with
       | Some v => Some v
       | None => if decide (k ∈ owned) then n !! k else None
       end) /\
    Distribution.export_map nchare npes n' = Ret exp /\
    npe = N.of_nat (size exp) /\
    log = ((fun p : Z * gmap Z (list N) =>
              Distribution.DSend p.1 (Distribution.MsgAdd mype p.2))
             <$> map_to_list exp)
          ++ (if Distribution.recvnodes (N.of_nat (size exp))
              then [Distribution.Signal2host_distribution_complete] else []).
Proof.
  unfold Distribution.distribute, owned_chares. intros Hrun.
  apply res_bind_ret in Hrun as ([chunk mync] & -> & Hrun). cbn.
  rewrite (foldlM_fmap (fun s chid => Distribution.take_owned chid s)
             (fun c => mype * chunk + Z.of_nat c)) in Hrun.
  destruct (take_owned_loop
              ((fun c => mype * chunk + Z.of_nat c) <$> seq 0 (Z.to_nat mync))
              m_node n) as (node1 & n1 & Hloop & Hn & Hnode).
  rewrite Hloop in Hrun. cbn in Hrun.
  apply res_bind_ret in Hrun as (exp & Hexp & [= <- <- <-]).
  eexists _, n1, exp. split; [reflexivity|].
  split; [exact Hn|]. split; [exact Hnode|]. split; [done|]. split; [done|].
  destruct (Distribution.recvnodes _); [done|by rewrite app_nil_r].
Qed.

Lemma foldlM_each_returns {A B : Type} (f : A -> B -> res A) (l : list B) :
  forall a a', foldlM f a l = Ret a' ->
  forall x, x ∈ l -> exists a0 a1, f a0 x = Ret a1.
Proof.
  induction l as [|y l IH]; intros a a' Hrun x Hx.
  - by apply elem_of_nil in Hx.
  - cbn [foldlM] in Hrun. apply res_bind_ret in Hrun as (a1 & H1 & Hrun).
    apply elem_of_cons in Hx as [->|Hx]; [by exists a, a1|].
    by apply (IH _ _ Hrun).
Qed.

Lemma export_map_pe_returns (m_nchare CkNumPes : Z) (n : gmap Z (list N))
    (exp : gmap Z (gmap Z (list N))) (c : Z) (v : list N) :
  Distribution.export_map m_nchare CkNumPes n = Ret exp ->
  n !! c = Some v -> exists p, pe m_nchare CkNumPes c = Ret p.
Proof.
  intros Hrun Hc. unfold Distribution.export_map in Hrun.
  destruct (foldlM_each_returns _ _ _ _ Hrun (c, v)) as (a0 & a1 & H1);
    [by apply elem_of_map_to_list|].
  unfold Distribution.export_entry in H1. cbn [fst snd] in H1.
  apply res_bind_ret in H1 as (p & Hp & _). by exists p.
Qed.

Lemma distribute_log_elem (mype : Z) (exp : gmap Z (gmap Z (list N)))
    (e : Distribution.dist_effect) :
  e ∈ ((fun p : Z * gmap Z (list N) =>
          Distribution.DSend p.1 (Distribution.MsgAdd mype p.2))
         <$> map_to_list exp)
      ++ (if Distribution.recvnodes (N.of_nat (size exp))
          then [Distribution.Signal2host_distribution_complete] else []) <->
  (exists p m, exp !! p = Some m /\
      e = Distribution.DSend p (Distribution.MsgAdd mype m)) \/
  (e = Distribution.Signal2host_distribution_complete /\
   Distribution.recvnodes (N.of_nat (size exp)) = true).
Proof.
  rewrite elem_of_app, list_elem_of_fmap. split.
  - intros [([p m] & -> & Hin%elem_of_map_to_list)|Hs].
    + left. by exists p, m.
    + right. destruct (Distribution.recvnodes _); [|by apply elem_of_nil in Hs].
      by apply list_elem_of_singleton in Hs as ->.
  - intros [(p & m & Hpm & ->)|[-> ->]].
    + left. exists (p, m). split; [done|]. by apply elem_of_map_to_list.
    + right. by left.
Qed.

(** X15. [distribute] neither loses nor invents a node group it is given,
    except where [m_node] already has the chare. Of the map [n]: an owned
    chare goes to [m_node] unless [m_node] already holds one for it, in
    which case the old vector stays and the new one is dropped; every
    other chare goes, with its vector, into the [add] message for the
    PE that [pe] names. Every [add] message comes from this PE and carries
    only such chares, and [distribute] itself acknowledges nothing. *)
Theorem distribute_keeps_or_exports (nchare npes mype : Z)
    (n m_node node' : gmap Z (list N)) (npe : N)
    (log : list Distribution.dist_effect) :
  Distribution.distribute nchare npes mype n m_node = Ret (node', npe, log) ->
  exists owned,
    owned_chares nchare npes mype = Ret owned /\
    (forall c, node' !! c =
       match m_node !! c with
       | Some v0 => Some v0
       | None => if decide (c ∈ owned) then n !! c else None
       end) /\
    (forall c v, n !! c = Some v -> c ∉ owned ->
       exists p m,
         pe nchare npes c = Ret p /\
         Distribution.DSend p (Distribution.MsgAdd mype m) ∈ log /\
         m !! c = Some v) /\
    (forall p frompe m,
       Distribution.DSend p (Distribution.MsgAdd frompe m) ∈ log ->
       frompe = mype /\
       forall c v, m !! c = Some v ->
         n !! c = Some v /\ (c ∉ owned) /\ pe nchare npes c = Ret p) /\
    (forall dest, ~ (Distribution.DSend dest Distribution.MsgRecv ∈ log)).
Proof.
  intros Hrun.
  apply distribute_ret in Hrun
    as (owned & n' & exp & Ho & Hn & Hnode & Hexp & -> & ->).
  assert (forall c v, n' !! c = Some v -> exists p, pe nchare npes c = Ret p)
    as Hret by (intros c v; by apply export_map_pe_returns with exp).
  apply export_map_spec in Hexp as [Hent Hne].
  exists owned. split; [done|]. split; [done|]. split; [|split].
  - intros c v Hc Hout.
    assert (n' !! c = Some v) as Hc' by (by rewrite Hn, decide_False).
    destruct (Hret c v Hc') as [p Hpe].
    destruct (proj2 (Hent p c v)) as (m & Hm & Hmc); [done|].
    exists p, m. split; [done|]. split; [|done].
    apply distribute_log_elem. left. by exists p, m.
  - intros p frompe m
      [(p' & m' & Hpm & [= -> -> ->])|[[=] _]]%distribute_log_elem.
    split; [done|]. intros c v Hmc.
    destruct (proj1 (Hent p' c v)) as [Hc Hpe]; [by exists m'|].
    rewrite Hn in Hc. by destruct (decide (c ∈ owned)).
  - intros dest [(p' & m' & _ & [=])|[[=] _]]%distribute_log_elem.
Qed.

Lemma distribute_keeps_or_exports_witness :
  exists owned,
    owned_chares 4 2 0 = Ret owned /\
    (forall c, ({[ 0 := [1; 2]%N ]} : gmap Z (list N)) !! c =
       match (∅ : gmap Z (list N)) !! c with
       | Some v0 => Some v0
       | None => if decide (c ∈ owned)
                 then ({[ 0 := [1; 2]%N; 2 := [3]%N ]} : gmap Z (list N)) !! c
                 else None
       end) /\
    (forall c v,
       ({[ 0 := [1; 2]%N; 2 := [3]%N ]} : gmap Z (list N)) !! c = Some v ->
       c ∉ owned ->
       exists p m,
         pe 4 2 c = Ret p /\
         Distribution.DSend p (Distribution.MsgAdd 0 m)
           ∈ [Distribution.DSend 1
                (Distribution.MsgAdd 0 {[ 2 := [3]%N ]})] /\
         m !! c = Some v) /\
    (forall p frompe m,
       Distribution.DSend p (Distribution.MsgAdd frompe m)
         ∈ [Distribution.DSend 1 (Distribution.MsgAdd 0 {[ 2 := [3]%N ]})] ->
       frompe = 0 /\
       forall c v, m !! c = Some v ->
         ({[ 0 := [1; 2]%N; 2 := [3]%N ]} : gmap Z (list N)) !! c = Some v /\
         (c ∉ owned) /\ pe 4 2 c = Ret p) /\
    (forall dest,
       ~ (Distribution.DSend dest Distribution.MsgRecv
            ∈ [Distribution.DSend 1
                 (Distribution.MsgAdd 0 {[ 2 := [3]%N ]})])).
Proof.
  apply (distribute_keeps_or_exports 4 2 0 {[ 0 := [1; 2]%N; 2 := [3]%N ]} ∅
           {[ 0 := [1; 2]%N ]} 1
           [Distribution.DSend 1 (Distribution.MsgAdd 0 {[ 2 := [3]%N ]})]).
  vm_compute. reflexivity.
Defined.

Lemma add_dests_log (mype : Z) (l : list (Z * gmap Z (list N)))
    (tl : list Distribution.dist_effect) :
  add_dests (((fun p : Z * gmap Z (list N) =>
                 Distribution.DSend p.1 (Distribution.MsgAdd mype p.2)) <$> l)
             ++ tl) = l.*1 ++ add_dests tl.
Proof. induction l as [|[p m] l IH]; [done|]. cbn. f_equal. apply IH. Qed.

Lemma count_signals_log (mype : Z) (l : list (Z * gmap Z (list N)))
    (tl : list Distribution.dist_effect) :
  count_signals (((fun p : Z * gmap Z (list N) =>
                     Distribution.DSend p.1 (Distribution.MsgAdd mype p.2))
                    <$> l) ++ tl) = count_signals tl.
Proof. induction l as [|[p m] l IH]; [done|]. apply IH. Qed.

(** X16. The counter [m_npe] that [distribute] leaves is the number of
    [add] messages it sent; they go to pairwise different PEs.
    [distribute] signals [distribution_complete] itself, once, exactly
    when it sent nothing, which is exactly when every chare of its input
    is one this PE owns. *)
Theorem distribute_counts_destinations (nchare npes mype : Z)
    (n m_node node' : gmap Z (list N)) (npe : N)
    (log : list Distribution.dist_effect) :
  Distribution.distribute nchare npes mype n m_node = Ret (node', npe, log) ->
  exists owned,
    owned_chares nchare npes mype = Ret owned /\
    NoDup (add_dests log) /\
    npe = N.of_nat (length (add_dests log)) /\
    count_signals log = (if decide (npe = 0%N) then 1%nat else 0%nat) /\
    (npe = 0%N <-> forall c, is_Some (n !! c) -> c ∈ owned).
Proof.
  intros Hrun.
  apply distribute_ret in Hrun
    as (owned & n' & exp & Ho & Hn & Hnode & Hexp & -> & ->).
  assert (forall c v, n' !! c = Some v -> exists p, pe nchare npes c = Ret p)
    as Hret by (intros c v; by apply export_map_pe_returns with exp).
  apply export_map_spec in Hexp as [Hent Hne].
  exists owned. split; [done|].
  rewrite add_dests_log, count_signals_log.
  assert (add_dests
            (if Distribution.recvnodes (N.of_nat (size exp))
             then [Distribution.Signal2host_distribution_complete] else [])
          = []) as -> by (by destruct (Distribution.recvnodes _)).
  rewrite app_nil_r. split; [apply NoDup_fst_map_to_list|].
  split; [by rewrite length_fmap, length_map_to_list|]. split.
  - unfold Distribution.recvnodes.
    destruct (N.eqb_spec (N.of_nat (size exp)) 0) as [E|E].
    + by rewrite decide_True.
    + by rewrite decide_False.
  - assert (N.of_nat (size exp) = 0%N <-> exp = ∅) as ->.
    { rewrite <- map_size_empty_iff. lia. }
    split.
    + intros -> c [v Hc]. destruct (decide (c ∈ owned)) as [|Hout]; [done|].
      assert (n' !! c = Some v) as Hc' by (by rewrite Hn, decide_False).
      destruct (Hret c v Hc') as [p Hpe].
      destruct (proj2 (Hent p c v)) as (m & Hm & _); [done|].
      by rewrite lookup_empty in Hm.
    + intros Hall. apply map_empty. intros p.
      destruct (exp !! p) as [m|] eqn:E; [|done]. exfalso.
      destruct (map_choose m (Hne p m E)) as (c & v & Hmc).
      destruct (proj1 (Hent p c v)) as [Hc _]; [by exists m|].
      rewrite Hn in Hc. destruct (decide (c ∈ owned)) as [|Hout]; [done|].
      apply Hout, Hall. by exists v.
Qed.

Lemma distribute_counts_destinations_witness :
  exists owned,
    owned_chares 4 2 0 = Ret owned /\
    NoDup (add_dests
             [Distribution.DSend 1
                (Distribution.MsgAdd 0 {[ 2 := [3]%N ]})]) /\
    1%N = N.of_nat
            (length (add_dests
                       [Distribution.DSend 1
                          (Distribution.MsgAdd 0 {[ 2 := [3]%N ]})])) /\
    count_signals
      [Distribution.DSend 1 (Distribution.MsgAdd 0 {[ 2 := [3]%N ]})]
    = (if decide (1%N = 0%N) then 1%nat else 0%nat) /\
    (1%N = 0%N <->
     forall c,
       is_Some (({[ 0 := [1; 2]%N; 2 := [3]%N ]} : gmap Z (list N)) !! c) ->
       c ∈ owned).
Proof.
  apply (distribute_counts_destinations 4 2 0
           {[ 0 := [1; 2]%N; 2 := [3]%N ]} ∅ {[ 0 := [1; 2]%N ]} 1
           [Distribution.DSend 1 (Distribution.MsgAdd 0 {[ 2 := [3]%N ]})]).
  vm_compute. reflexivity.
Defined.

(** The loop of [add] over entries with pairwise different chare IDs. *)
Lemma add_loop (nchare npes mype : Z) (l : list (Z * list N)) :
  forall node node' : gmap Z (list N),
  NoDup l.*1 ->
  foldlM (Distribution.add_chare nchare npes mype) node l = Ret node' ->
  (forall c v, (c, v) ∈ l ->
     pe nchare npes c = Ret mype /\
     node' !! c = Some (default [] (node !! c) ++ v)) /\
  (forall c, c ∉ l.*1 -> node' !! c = node !! c).
Proof.
  induction l as [|[c v] l IH]; intros node node' Hnd Hrun.
  - injection Hrun as <-. split; [|done]. by intros c v ?%elem_of_nil.
  - cbn [foldlM] in Hrun. apply res_bind_ret in Hrun as (node1 & H1 & Hrun).
    unfold Distribution.add_chare in H1. cbn [fst snd] in H1.
    apply res_bind_ret in H1 as (p & Hp & H1).
    apply res_bind_ret in H1 as ([] & Ha & [= <-]).
    unfold Assert in Ha. destruct (Z.eqb_spec p mype) as [->|]; [|done].
    cbn [fmap list_fmap fst] in Hnd. apply NoDup_cons in Hnd as [Hc Hnd].
    destruct (IH _ _ Hnd Hrun) as [Hin Hout]. split.
    + intros c' v' [[= -> ->]|Hin']%elem_of_cons.
      * split; [done|]. rewrite (Hout c Hc). by rewrite lookup_insert_eq.
      * destruct (Hin c' v' Hin') as [Hpe ->]. split; [done|].
        rewrite lookup_insert_ne; [done|]. intros <-. apply Hc.
        apply list_elem_of_fmap. by exists (c, v').
    + intros c' Hc'. cbn [fmap list_fmap fst] in Hc'.
      apply not_elem_of_cons in Hc' as [Hne Hc'].
      rewrite (Hout c' Hc'). by rewrite lookup_insert_ne.
Qed.

Lemma add_ret (nchare npes mype frompe : Z) (n m_node node' : gmap Z (list N))
    (log : list Distribution.dist_effect) :
  Distribution.add nchare npes mype frompe n m_node = Ret (node', log) ->
  log = [Distribution.DSend frompe Distribution.MsgRecv] /\
  (forall c v, n !! c = Some v ->
     pe nchare npes c = Ret mype /\
     node' !! c = Some (default [] (m_node !! c) ++ v)) /\
  (forall c, n !! c = None -> node' !! c = m_node !! c).
Proof.
  unfold Distribution.add. intros Hrun.
  apply res_bind_ret in Hrun as (node1 & Hloop & [= <- <-]).
  apply add_loop in Hloop as [Hin Hout]; [|apply NoDup_fst_map_to_list].
  split; [done|]. split.
  - intros c v Hc. by apply Hin, elem_of_map_to_list.
  - intros c Hc. apply Hout. intros ([c' v'] & -> & Hin')%list_elem_of_fmap.
    apply elem_of_map_to_list in Hin'. cbn in Hc. congruence.
Qed.

(** With at least one chare per PE, [add] either finds every chare of the
    message owned and returns, or stops with its assertion. *)
Lemma add_cases (nchare npes mype frompe : Z) (n m_node : gmap Z (list N)) :
  1 <= npes -> npes <= nchare ->
  ((forall c, is_Some (n !! c) -> pe nchare npes c = Ret mype) /\
   exists node',
     Distribution.add nchare npes mype frompe n m_node
     = Ret (node', [Distribution.DSend frompe Distribution.MsgRecv])) \/
  ((exists c, is_Some (n !! c) /\ pe nchare npes c <> Ret mype) /\
   Distribution.add nchare npes mype frompe n m_node
   = Fail (AssertFailed (Distribution.add_msg mype))).
Proof.
  intros Hp Hc. unfold Distribution.add.
  destruct (foldlM_cases (Distribution.add_chare nchare npes mype)
              (fun x : Z * list N => pe nchare npes x.1 = Ret mype)
              (AssertFailed (Distribution.add_msg mype))
              (map_to_list n)) with (b := m_node)
    as [[Hall (node' & ->)]|[Hex ->]].
  - intros b [c v] _. unfold Distribution.add_chare. cbn [fst snd].
    rewrite pe_quot by done. cbn.
    destruct (Z.eqb_spec (Z.min (c ÷ (nchare / npes)) (npes - 1)) mype)
      as [E|E]; cbn.
    + left. split; [by rewrite E|by eexists].
    + right. split; [|done]. intros [= ?]. done.
  - left. split; [|by exists node'].
    intros c [v Hcv]. rewrite Forall_forall in Hall.
    by apply (Hall (c, v)), elem_of_map_to_list.
  - right. split; [|done].
    apply Exists_exists in Hex as ([c v] & Hin%elem_of_map_to_list & Hno).
    exists c. split; [by exists v|done].
Qed.

(** X17. With at least one chare per PE, [add] has two outcomes. If [pe]
    names this PE for every chare of the message, [add] appends each
    received vector to what [m_node] holds for the chare (creating the
    entry when there is none), leaves every other chare alone and
    acknowledges once, to the sender. Otherwise it stops with its
    assertion, before it acknowledges anything. *)
Theorem add_appends_or_refuses (nchare npes mype frompe : Z)
    (n m_node : gmap Z (list N)) :
  1 <= npes -> npes <= nchare ->
  ((forall c, is_Some (n !! c) -> pe nchare npes c = Ret mype) /\
   exists node',
     Distribution.add nchare npes mype frompe n m_node
     = Ret (node', [Distribution.DSend frompe Distribution.MsgRecv]) /\
     forall c, node' !! c =
       match n !! c with
       | Some v => Some (default [] (m_node !! c) ++ v)
       | None => m_node !! c
       end) \/
  ((exists c, is_Some (n !! c) /\ pe nchare npes c <> Ret mype) /\
   Distribution.add nchare npes mype frompe n m_node
   = Fail (AssertFailed (Distribution.add_msg mype))).
Proof.
  intros Hp Hc.
  destruct (add_cases nchare npes mype frompe n m_node Hp Hc)
    as [[Hall (node' & Hrun)]|Hfail]; [left|by right].
  split; [done|]. exists node'. split; [done|].
  apply add_ret in Hrun as (_ & Hin & Hout). intros c.
  destruct (n !! c) as [v|] eqn:E; [by apply Hin|by apply Hout].
Qed.

Lemma add_appends_or_refuses_witness :
  ((forall c, is_Some (({[ 2 := [3]%N ]} : gmap Z (list N)) !! c) ->
      pe 4 2 c = Ret 1) /\
   exists node',
     Distribution.add 4 2 1 0 {[ 2 := [3]%N ]} {[ 2 := [7; 8]%N ]}
     = Ret (node', [Distribution.DSend 0 Distribution.MsgRecv]) /\
     forall c, node' !! c =
       match ({[ 2 := [3]%N ]} : gmap Z (list N)) !! c with
       | Some v =>
           Some (default []
                   (({[ 2 := [7; 8]%N ]} : gmap Z (list N)) !! c) ++ v)
       | None => ({[ 2 := [7; 8]%N ]} : gmap Z (list N)) !! c
       end) \/
  ((exists c, is_Some (({[ 2 := [3]%N ]} : gmap Z (list N)) !! c) /\
              pe 4 2 c <> Ret 1) /\
   Distribution.add 4 2 1 0 {[ 2 := [3]%N ]} {[ 2 := [7; 8]%N ]}
   = Fail (AssertFailed (Distribution.add_msg 1))).
Proof.
  apply (add_appends_or_refuses 4 2 1 0 {[ 2 := [3]%N ]} {[ 2 := [7; 8]%N ]});
    lia.
Defined.

(** X18. The outcome depends on which of [distribute] and a fellow PE's
    [add] runs first on a PE. For an owned chare [c] that is in the PE's
    own map with nodes [v] and in the received message with nodes [w]:
    [distribute] first gives [v ++ w]; [add] first gives [w] only, since
    [distribute] inserts without overwriting, and the nodes [v] are then
    in no message either. *)
Theorem add_before_distribute_drops_own_nodes (nchare npes mype frompe c : Z)
    (v w : list N) (owned : list Z) (n msg m_node : gmap Z (list N))
    (nodeA1 nodeA2 nodeB1 nodeB2 : gmap Z (list N)) (npeA npeB : N)
    (logA1 logA2 logB1 logB2 : list Distribution.dist_effect) :
  owned_chares nchare npes mype = Ret owned -> c ∈ owned ->
  n !! c = Some v -> msg !! c = Some w -> m_node !! c = None ->
  Distribution.add nchare npes mype frompe msg m_node = Ret (nodeA1, logA1) ->
  Distribution.distribute nchare npes mype n nodeA1
    = Ret (nodeA2, npeA, logA2) ->
  Distribution.distribute nchare npes mype n m_node
    = Ret (nodeB1, npeB, logB1) ->
  Distribution.add nchare npes mype frompe msg nodeB1 = Ret (nodeB2, logB2) ->
  nodeA2 !! c = Some w /\
  nodeB2 !! c = Some (v ++ w) /\
  (forall p m, Distribution.DSend p (Distribution.MsgAdd mype m) ∈ logA2 ->
     m !! c = None).
Proof.
  intros Ho Hc Hn Hmsg Hnode HA1 HA2 HB1 HB2.
  apply add_ret in HA1 as (_ & HA1 & _).
  destruct (HA1 c w Hmsg) as [_ HA1c]. rewrite Hnode in HA1c. cbn in HA1c.
  apply distribute_ret in HA2
    as (owned' & n' & exp & Ho' & Hn' & HA2 & Hexp & _ & ->).
  assert (owned' = owned) as -> by congruence.
  apply distribute_ret in HB1 as (owned' & _ & _ & Ho'' & _ & HB1 & _).
  assert (owned' = owned) as -> by congruence.
  apply add_ret in HB2 as (_ & HB2 & _).
  destruct (HB2 c w Hmsg) as [_ HB2c].
  split; [by rewrite HA2, HA1c|]. split.
  - rewrite HB2c, HB1, Hnode, decide_True, Hn by done. done.
  - intros p m [(p' & m' & Hpm & [= -> ->])|[[=] _]]%distribute_log_elem.
    apply export_map_spec in Hexp as [Hent _].
    destruct (m' !! c) as [u|] eqn:E; [exfalso|done].
    destruct (proj1 (Hent p' c u)) as [Hcu _]; [by exists m'|].
    by rewrite Hn', decide_True in Hcu.
Qed.

Lemma add_before_distribute_drops_own_nodes_witness :
  ({[ 0 := [9]%N ]} : gmap Z (list N)) !! 0 = Some [9]%N /\
  ({[ 0 := [1; 2; 9]%N ]} : gmap Z (list N)) !! 0 = Some ([1; 2] ++ [9])%N /\
  (forall p m,
     Distribution.DSend p (Distribution.MsgAdd 0 m)
       ∈ [Distribution.DSend 1 (Distribution.MsgAdd 0 {[ 2 := [3]%N ]})] ->
     m !! 0 = None).
Proof.
  apply (add_before_distribute_drops_own_nodes 4 2 0 1 0 [1; 2]%N [9]%N
           [0; 1] {[ 0 := [1; 2]%N; 2 := [3]%N ]} {[ 0 := [9]%N ]} ∅
           {[ 0 := [9]%N ]} {[ 0 := [9]%N ]}
           {[ 0 := [1; 2]%N ]} {[ 0 := [1; 2; 9]%N ]} 1 1
           [Distribution.DSend 1 Distribution.MsgRecv]
           [Distribution.DSend 1 (Distribution.MsgAdd 0 {[ 2 := [3]%N ]})]
           [Distribution.DSend 1 (Distribution.MsgAdd 0 {[ 2 := [3]%N ]})]
           [Distribution.DSend 1 Distribution.MsgRecv]);
    first [by vm_compute | set_solver].
Defined.

(** X19. With at least one chare per PE and every chare ID of the input in
    [0, m_nchare), what [distribute] sends can be received: each [add]
    message goes to an existing PE other than the sender, and [add] on
    that PE passes its assertion, whatever the PE already holds, and
    acknowledges to the sender. *)
Theorem distribute_messages_are_accepted (nchare npes mype : Z)
    (n m_node node' : gmap Z (list N)) (npe : N)
    (log : list Distribution.dist_effect) :
  1 <= npes -> npes <= nchare -> 0 <= mype < npes ->
  (forall c, is_Some (n !! c) -> 0 <= c < nchare) ->
  Distribution.distribute nchare npes mype n m_node = Ret (node', npe, log) ->
  forall p frompe m,
    Distribution.DSend p (Distribution.MsgAdd frompe m) ∈ log ->
    0 <= p < npes /\ p <> mype /\
    forall node_p, exists node_p',
      Distribution.add nchare npes p frompe m node_p
      = Ret (node_p', [Distribution.DSend mype Distribution.MsgRecv]).
Proof.
  intros Hp Hc Hme Hkeys Hrun p frompe m Hin.
  apply distribute_ret in Hrun
    as (owned & n' & exp & Ho & Hn & Hnode & Hexp & -> & ->).
  apply export_map_spec in Hexp as [Hent Hne].
  apply distribute_log_elem in Hin
    as [(p' & m' & Hpm & [= -> -> ->])|[[=] _]].
  assert (forall c v, m' !! c = Some v ->
            0 <= c < nchare /\ (c ∉ owned) /\ pe nchare npes c = Ret p')
    as Hm.
  { intros c v Hmc.
    destruct (proj1 (Hent p' c v)) as [Hcv Hpe]; [by exists m'|].
    rewrite Hn in Hcv. destruct (decide (c ∈ owned)); [done|].
    split; [|done]. apply Hkeys. by exists v. }
  destruct (map_choose m' (Hne p' m' Hpm)) as (c0 & v0 & Hc0).
  destruct (Hm c0 v0 Hc0) as (Hr0 & Hout0 & Hpe0).
  assert (0 <= p' < npes) as Hp'.
  { rewrite pe_quot in Hpe0 by done.
    assert (p' = Z.min (c0 ÷ (nchare / npes)) (npes - 1)) by congruence.
    assert (0 <= c0 ÷ (nchare / npes)).
    { apply Z.quot_pos; [lia|]. apply Z.div_str_pos. lia. }
    lia. }
  split; [done|]. split.
  - intros ->.
    destruct (pe_owned_iff nchare npes c0 mype) as (owned' & Ho' & Hiff);
      [done..|].
    assert (owned' = owned) as -> by congruence.
    by apply Hout0, Hiff.
  - intros node_p.
    destruct (add_cases nchare npes p' mype m' node_p Hp Hc)
      as [[_ Hret]|[(c & [v Hcv] & Hno) _]]; [done|].
    by destruct (Hm c v Hcv) as (_ & _ & ?).
Qed.

Lemma distribute_messages_are_accepted_witness :
  0 <= 1 < 2 /\ 1 <> 0 /\
  forall node_p, exists node_p',
    Distribution.add 4 2 1 0 {[ 2 := [3]%N ]} node_p
    = Ret (node_p', [Distribution.DSend 0 Distribution.MsgRecv]).
Proof.
  apply (distribute_messages_are_accepted 4 2 0
           {[ 0 := [1; 2]%N; 2 := [3]%N ]} ∅ {[ 0 := [1; 2]%N ]} 1
           [Distribution.DSend 1 (Distribution.MsgAdd 0 {[ 2 := [3]%N ]})]);
    [lia|lia|lia| |by vm_compute|by left].
  intros c [v Hc]. destruct (decide (c = 0)) as [->|]; [lia|].
  destruct (decide (c = 2)) as [->|]; [lia|].
  rewrite lookup_insert_ne in Hc by done.
  by rewrite lookup_singleton_ne in Hc.
Defined.

Lemma count_signals_app (a b : list Distribution.dist_effect) :
  count_signals (a ++ b) = (count_signals a + count_signals b)%nat.
Proof. unfold count_signals. by rewrite List.filter_app, length_app. Qed.

Lemma decr_pos (k : nat) :
  (N.of_nat (S k) < Cxx.SIZE_MOD)%N ->
  Distribution.decr (N.of_nat (S k)) = N.of_nat k.
Proof.
  intros Hk. unfold Distribution.decr.
  replace (N.of_nat (S k) + (Cxx.SIZE_MOD - 1))%N
    with (N.of_nat k + 1 * Cxx.SIZE_MOD)%N by (unfold Cxx.SIZE_MOD in *; lia).
  rewrite N.Div0.mod_add. apply N.mod_small. lia.
Qed.

(** [j] acknowledgements out of the [k] a PE waits for. *)
Lemma recv_countdown (j : nat) :
  forall k : nat, (N.of_nat k < Cxx.SIZE_MOD)%N -> (j <= k)%nat ->
  Distribution.recv_times j (N.of_nat k)
  = (N.of_nat (k - j),
     if decide (j = k /\ (0 < k)%nat)
     then [Distribution.Signal2host_distribution_complete] else []).
Proof.
  induction j as [|j IH]; intros k Hk Hj.
  - cbn. rewrite Nat.sub_0_r, decide_False; [done|lia].
  - destruct k as [|k]; [lia|].
    cbn [Distribution.recv_times]. unfold Distribution.recv.
    rewrite decr_pos by done. rewrite IH by lia.
    replace (S k - S j)%nat with (k - j)%nat by lia. f_equal.
    unfold Distribution.recvnodes.
    destruct (N.eqb_spec (N.of_nat k) 0) as [E|E].
    + assert (k = 0%nat) as -> by lia. assert (j = 0%nat) as -> by lia.
      rewrite decide_False by lia. by rewrite decide_True by lia.
    + cbn [app]. destruct (decide (j = k /\ (0 < k)%nat)) as [[-> _]|Hno].
      * by rewrite decide_True by lia.
      * rewrite decide_False; [done|]. lia.
Qed.

(** X20. [distribute] and the acknowledgements it waits for signal
    [distribution_complete] to the host exactly once: after [distribute]
    and any number of [recv] calls short of the number of [add] messages
    sent there has been no signal unless nothing was sent, and after as
    many [recv] calls as messages sent there has been exactly one and the
    counter is back at zero. *)
Theorem distribute_then_acks_signal_once (nchare npes mype : Z)
    (n m_node node' : gmap Z (list N)) (npe : N)
    (log : list Distribution.dist_effect) :
  Distribution.distribute nchare npes mype n m_node = Ret (node', npe, log) ->
  (npe < Cxx.SIZE_MOD)%N ->
  (Distribution.recv_times (length (add_dests log)) npe).1 = 0%N /\
  count_signals
    (log ++ (Distribution.recv_times (length (add_dests log)) npe).2)
  = 1%nat /\
  forall j, (j < length (add_dests log))%nat ->
    count_signals (log ++ (Distribution.recv_times j npe).2) = 0%nat.
Proof.
  intros Hrun Hsmall.
  apply distribute_ret in Hrun
    as (owned & n' & exp & Ho & Hn & Hnode & Hexp & -> & ->).
  rewrite add_dests_log.
  assert (add_dests
            (if Distribution.recvnodes (N.of_nat (size exp))
             then [Distribution.Signal2host_distribution_complete] else [])
          = []) as -> by (by destruct (Distribution.recvnodes _)).
  rewrite app_nil_r, length_fmap, length_map_to_list.
  assert (forall j,
            count_signals
              ((((fun p : Z * gmap Z (list N) =>
                    Distribution.DSend p.1 (Distribution.MsgAdd mype p.2))
                   <$> map_to_list exp)
                ++ (if Distribution.recvnodes (N.of_nat (size exp))
                    then [Distribution.Signal2host_distribution_complete]
                    else []))
               ++ (Distribution.recv_times j (N.of_nat (size exp))).2)
            = ((if decide (size exp = 0%nat) then 1 else 0)
               + count_signals
                   (Distribution.recv_times j (N.of_nat (size exp))).2)%nat)
    as Hcount.
  { intros j. rewrite count_signals_app, count_signals_log. f_equal.
    unfold Distribution.recvnodes.
    destruct (N.eqb_spec (N.of_nat (size exp)) 0) as [E|E].
    - by rewrite decide_True by lia.
    - by rewrite decide_False by lia. }
  split; [|split].
  - rewrite recv_countdown by (done || lia). cbn. lia.
  - rewrite Hcount, recv_countdown by (done || lia). cbn [snd].
    destruct (decide (size exp = 0%nat)) as [E|E].
    + by rewrite decide_False by lia.
    + by rewrite decide_True by lia.
  - intros j Hj. rewrite Hcount, recv_countdown by (done || lia). cbn [snd].
    rewrite (decide_False (P := size exp = 0%nat)) by lia.
    by rewrite decide_False by lia.
Qed.

Lemma distribute_then_acks_signal_once_witness :
  (Distribution.recv_times
     (length (add_dests
                [Distribution.DSend 1
                   (Distribution.MsgAdd 0 {[ 2 := [3]%N ]})])) 1).1 = 0%N /\
  count_signals
    ([Distribution.DSend 1 (Distribution.MsgAdd 0 {[ 2 := [3]%N ]})]
     ++ (Distribution.recv_times
           (length (add_dests
                      [Distribution.DSend 1
                         (Distribution.MsgAdd 0 {[ 2 := [3]%N ]})])) 1).2)
  = 1%nat /\
  forall j,
    lt j (length (add_dests
                    [Distribution.DSend 1
                       (Distribution.MsgAdd 0 {[ 2 := [3]%N ]})])) ->
    count_signals
      ([Distribution.DSend 1 (Distribution.MsgAdd 0 {[ 2 := [3]%N ]})]
       ++ (Distribution.recv_times j 1).2) = 0%nat.
Proof.
  apply (distribute_then_acks_signal_once 4 2 0
           {[ 0 := [1; 2]%N; 2 := [3]%N ]} ∅ {[ 0 := [1; 2]%N ]} 1
           [Distribution.DSend 1 (Distribution.MsgAdd 0 {[ 2 := [3]%N ]})]);
    by vm_compute.
Defined.

(** ** Reading the graph *)

Lemma static_cast_size_t_small (x : Z) :
  0 <= x < 2 ^ 64 -> static_cast_size_t x = Z.to_N x.
Proof. intros Hx. unfold static_cast_size_t. by rewrite Z.mod_small. Qed.

Lemma readGraph_eq (nel npes p : Z) :
  0 <= nel < 2 ^ 31 -> 1 <= npes -> 0 <= p < npes ->
  readGraph nel npes p =
    Ret (mkGraphChunk
           (p * (nel / npes))
           (if p =? npes - 1 then nel else (p + 1) * (nel / npes))
           (static_cast_size_t (p * (nel / npes)),
            static_cast_size_t
              ((if p =? npes - 1 then nel else (p + 1) * (nel / npes)) - 1))
           (map (fun i => static_cast_size_t (p * (nel / npes) + Z.of_nat i))
                (seq 0 (Z.to_nat
                          ((if p =? npes - 1 then nel
                            else (p + 1) * (nel / npes))
                           - p * (nel / npes)))))).
Proof.
  intros Hnel Hnp Hp. unfold readGraph.
  rewrite int_div_nonneg by lia. cbn [mbind res_bind].
  pose proof (Z.div_mod nel npes ltac:(lia)) as Hdm.
  pose proof (Z.mod_pos_bound nel npes ltac:(lia)) as Hmb.
  assert (0 <= nel / npes) as Hq by (apply Z.div_pos; lia).
  assert (nel / npes <= nel) as Hle by (apply Z.div_le_upper_bound; nia).
  assert (p * (nel / npes) + nel / npes <= nel) as Hfit by nia.
  set (chunk := nel / npes) in *.
  assert (forall till, p * chunk <= till <= nel ->
            N.to_nat (static_cast_size_t (till - p * chunk))
            = Z.to_nat (till - p * chunk)) as Hcast.
  { intros till Ht. rewrite static_cast_size_t_small by lia. lia. }
  destruct (Z.eqb_spec p (npes - 1)) as [->|Hne].
  - rewrite int_rem_nonneg by lia. cbn [mbind res_bind mret res_ret].
    replace ((npes - 1) * chunk + chunk + nel mod npes) with nel by lia.
    by rewrite Hcast by lia.
  - cbn [mbind res_bind mret res_ret].
    replace (p * chunk + chunk) with ((p + 1) * chunk) by lia.
    by rewrite Hcast by lia.
Qed.

(** The element IDs a PE stores are those of its range. *)
Lemma readGraph_gelemid (nel npes p : Z) (g : graph_chunk) (e : N) :
  0 <= nel < 2 ^ 31 -> 1 <= npes -> 0 <= p < npes ->
  readGraph nel npes p = Ret g ->
  e ∈ chunk_gelemid g <->
  p * (nel / npes) <= Z.of_N e <
  (if p =? npes - 1 then nel else (p + 1) * (nel / npes)).
Proof.
  intros Hnel Hnp Hp Hg. rewrite readGraph_eq in Hg by done.
  injection Hg as <-. cbn [chunk_gelemid].
  pose proof (Z.div_mod nel npes ltac:(lia)) as Hdm.
  pose proof (Z.mod_pos_bound nel npes ltac:(lia)) as Hmb.
  assert (0 <= nel / npes) as Hq by (apply Z.div_pos; lia).
  set (chunk := nel / npes) in *.
  assert (p * chunk <=
          (if p =? npes - 1 then nel else (p + 1) * chunk) <= nel) as Ht
    by (destruct (Z.eqb_spec p (npes - 1)); nia).
  change (map ?f ?l) with (f <$> l). rewrite list_elem_of_fmap. split.
  - intros (i & -> & Hi%elem_of_seq).
    rewrite static_cast_size_t_small by lia. lia.
  - intros He. exists (Z.to_nat (Z.of_N e - p * chunk)). split.
    + rewrite static_cast_size_t_small by lia. lia.
    + apply elem_of_seq. lia.
Qed.

(** X21. [readGraph] splits the elements of the file among the PEs: a PE
    stores in [m_gelemid] the IDs [from, from+1, ..., till-1] of its
    range, the ranges follow one another by rank from 0 to [nel], and so
    every element ID below [nel] is stored on exactly one PE and nothing
    else is stored anywhere. *)
Theorem readGraph_partitions_elements (nel npes : Z) :
  0 <= nel < 2 ^ 31 -> 1 <= npes ->
  (forall p, 0 <= p < npes ->
     exists g, readGraph nel npes p = Ret g /\
       0 <= chunk_from g <= chunk_till g /\ chunk_till g <= nel /\
       chunk_gelemid g
       = map (fun i => Z.to_N (chunk_from g + Z.of_nat i))
             (seq 0 (Z.to_nat (chunk_till g - chunk_from g))) /\
       (p = 0 -> chunk_from g = 0) /\
       (p = npes - 1 -> chunk_till g = nel) /\
       (forall g', readGraph nel npes (p + 1) = Ret g' -> p + 1 < npes ->
                   chunk_from g' = chunk_till g)) /\
  (forall e : N, Z.of_N e < nel ->
     exists p g,
       0 <= p < npes /\ readGraph nel npes p = Ret g /\
       e ∈ chunk_gelemid g /\
       forall p' g', 0 <= p' < npes -> readGraph nel npes p' = Ret g' ->
                     e ∈ chunk_gelemid g' -> p' = p) /\
  (forall p g (e : N), 0 <= p < npes -> readGraph nel npes p = Ret g ->
     e ∈ chunk_gelemid g -> Z.of_N e < nel).
Proof.
  intros Hnel Hnp.
  pose proof (Z.div_mod nel npes ltac:(lia)) as Hdm.
  pose proof (Z.mod_pos_bound nel npes ltac:(lia)) as Hmb.
  assert (0 <= nel / npes) as Hq by (apply Z.div_pos; lia).
  pose proof (fun p g e Hp => readGraph_gelemid nel npes p g e Hnel Hnp Hp)
    as Hmem.
  set (chunk := nel / npes) in *.
  split; [|split].
  - intros p Hp. eexists. split; [by apply readGraph_eq|].
    cbn [chunk_from chunk_till chunk_gelemid]. fold chunk.
    assert (p * chunk <=
            (if p =? npes - 1 then nel else (p + 1) * chunk) <= nel) as Ht
      by (destruct (Z.eqb_spec p (npes - 1)); nia).
    split; [nia|]. split; [lia|]. split.
    { apply map_ext_in. intros i Hi%in_seq.
      apply static_cast_size_t_small. lia. }
    split; [intros ->; lia|].
    split; [intros ->; by rewrite Z.eqb_refl|].
    intros g' Hg' Hlt. rewrite readGraph_eq in Hg' by lia.
    injection Hg' as <-. cbn [chunk_from]. fold chunk.
    destruct (Z.eqb_spec p (npes - 1)); lia.
  - intros e He. pose proof (N2Z.is_nonneg e) as He0.
    assert (0 < chunk \/ chunk = 0) as [Hpos|Hzero] by lia.
    + set (p := Z.min (Z.of_N e / chunk) (npes - 1)).
      pose proof (Z.div_mod (Z.of_N e) chunk ltac:(lia)) as Hed.
      pose proof (Z.mod_pos_bound (Z.of_N e) chunk ltac:(lia)) as Heb.
      assert (0 <= Z.of_N e / chunk) by (apply Z.div_pos; lia).
      assert (0 <= p < npes) as Hp by lia.
      assert (p * chunk <= Z.of_N e <
              (if p =? npes - 1 then nel else (p + 1) * chunk)) as Hin.
      { destruct (Z.eqb_spec p (npes - 1)); nia. }
      eexists p, _. split; [done|]. split; [by apply readGraph_eq|].
      split; [eapply Hmem; [done|by apply readGraph_eq|done]|].
      intros p' g' Hp' Hg' Hin'. apply (Hmem p' g' e Hp' Hg') in Hin'.
      destruct (Z.eqb_spec p (npes - 1)), (Z.eqb_spec p' (npes - 1)); nia.
    + eexists (npes - 1), _. split; [lia|].
      split; [apply readGraph_eq; lia|].
      split.
      { eapply Hmem; [|apply readGraph_eq; lia|]; [lia|].
        rewrite Z.eqb_refl. nia. }
      intros p' g' Hp' Hg' Hin'. apply (Hmem p' g' e Hp' Hg') in Hin'.
      destruct (Z.eqb_spec p' (npes - 1)); nia.
  - intros p g e Hp Hg Hin. apply (Hmem p g e Hp Hg) in Hin.
    destruct (Z.eqb_spec p (npes - 1)); nia.
Qed.

(** X21 at 7 elements on 3 PEs: element 6 is stored on PE 2 only. *)
Lemma readGraph_partitions_elements_witness :
  (0 <= 7 < 2 ^ 31 /\ 1 <= 3) /\
  exists p g,
    0 <= p < 3 /\ readGraph 7 3 p = Ret g /\ 6%N ∈ chunk_gelemid g /\
    forall p' g', 0 <= p' < 3 -> readGraph 7 3 p' = Ret g' ->
                  6%N ∈ chunk_gelemid g' -> p' = p.
Proof.
  split; [lia|].
  apply (readGraph_partitions_elements 7 3); lia.
Defined.

(** X22. A PE whose range is empty, which is every PE but the last when
    there are fewer elements than PEs, still hands extents to the mesh
    reader, and they are not an empty range: the lower extent is 0 and
    the upper one, [till-1] cast to [std::size_t], is 2^64-1. With a
    non-empty range the extents are the first and the last element ID
    stored. *)
Theorem readGraph_extents (nel npes p : Z) (g : graph_chunk) :
  0 <= nel < 2 ^ 31 -> 1 <= npes -> 0 <= p < npes ->
  readGraph nel npes p = Ret g ->
  (chunk_gelemid g = [] <-> (nel < npes /\ p <> npes - 1) \/ nel = 0) /\
  (chunk_gelemid g = [] ->
   chunk_ext g = (0%N, (Cxx.SIZE_MOD - 1)%N)) /\
  (chunk_gelemid g <> [] ->
   head (chunk_gelemid g) = Some (chunk_ext g).1 /\
   last (chunk_gelemid g) = Some (chunk_ext g).2).
Proof.
  intros Hnel Hnp Hp Hg. rewrite readGraph_eq in Hg by done.
  injection Hg as <-. cbn [chunk_gelemid chunk_ext fst snd].
  pose proof (Z.div_mod nel npes ltac:(lia)) as Hdm.
  pose proof (Z.mod_pos_bound nel npes ltac:(lia)) as Hmb.
  assert (0 <= nel / npes) as Hq by (apply Z.div_pos; lia).
  assert (nel / npes = 0 <-> nel < npes) as Hsmall.
  { split; [nia|]. intros. apply Z.div_small. lia. }
  set (chunk := nel / npes) in *.
  set (till := if p =? npes - 1 then nel else (p + 1) * chunk).
  assert (p * chunk <= till <= nel) as Ht
    by (unfold till; destruct (Z.eqb_spec p (npes - 1)); nia).
  assert (map (fun i => static_cast_size_t (p * chunk + Z.of_nat i))
              (seq 0 (Z.to_nat (till - p * chunk))) = []
          <-> till = p * chunk) as Hnil.
  { destruct (Z.to_nat (till - p * chunk)) as [|k] eqn:E; cbn.
    - split; [lia|done].
    - split; [done|lia]. }
  assert (till = p * chunk <-> (nel < npes /\ p <> npes - 1) \/ nel = 0)
    as Hempty by (unfold till; destruct (Z.eqb_spec p (npes - 1)); nia).
  split; [by rewrite Hnil|]. split.
  - rewrite Hnil. intros Heq.
    assert (p * chunk = 0) as E0.
    { apply Hempty in Heq as [[Hlt _]| ->]; [|subst chunk; by rewrite Z.mul_0_r].
      apply Hsmall in Hlt. rewrite Hlt. lia. }
    rewrite Heq, E0. by vm_compute.
  - rewrite Hnil. intros Hne.
    destruct (Z.to_nat (till - p * chunk)) as [|k] eqn:E; [lia|].
    split.
    + cbn. do 2 f_equal. lia.
    + rewrite seq_S, map_app. cbn [map]. rewrite last_snoc.
      do 2 f_equal. lia.
Qed.

(** X22 at 2 elements on 4 PEs: PE 1 stores nothing and asks for
    [0, 2^64-1]. *)
Lemma readGraph_extents_witness :
  readGraph 2 4 1 = Ret (mkGraphChunk 0 0 (0%N, 18446744073709551615%N) []) /\
  chunk_ext (mkGraphChunk 0 0 (0%N, 18446744073709551615%N) [])
  = (0%N, (Cxx.SIZE_MOD - 1)%N).
Proof.
  split; [by vm_compute|].
  apply (readGraph_extents 2 4 1
           (mkGraphChunk 0 0 (0%N, 18446744073709551615%N) []));
    [lia|lia|lia|by vm_compute|done].
Defined.

(** ** Creating the workers *)

(** The loop of [create] over the chare IDs [ids]. *)
Lemma create_loop (mype : Z) (st : Partitioner) (ids : list Z) :
  forall log : list create_effect,
  (Forall (fun c => is_Some (m_node st !! c) /\ is_Some (m_chcid st !! c)) ids /\
   exists workers,
     foldlM (fun log cid =>
               node ← cref_find (m_node st) cid;
               chcid ← cref_find (m_chcid st) cid;
               Ret (log ++ [InsertWorker cid node chcid mype])) log ids
     = Ret (log ++ workers) /\
     Forall2 (fun c w => exists node chcid,
                m_node st !! c = Some node /\ m_chcid st !! c = Some chcid /\
                w = InsertWorker c node chcid mype) ids workers) \/
  (Exists (fun c => m_node st !! c = None \/ m_chcid st !! c = None) ids /\
   foldlM (fun log cid =>
             node ← cref_find (m_node st) cid;
             chcid ← cref_find (m_chcid st) cid;
             Ret (log ++ [InsertWorker cid node chcid mype])) log ids
   = Fail KeyNotFound).
Proof.
  set (f := fun (log : list create_effect) (cid : Z) =>
              node ← cref_find (m_node st) cid;
              chcid ← cref_find (m_chcid st) cid;
              Ret (log ++ [InsertWorker cid node chcid mype])).
  assert (forall log c,
            f log c = match m_node st !! c, m_chcid st !! c with
                      | Some node, Some chcid =>
                          Ret (log ++ [InsertWorker c node chcid mype])
                      | _, _ => Fail KeyNotFound
                      end) as Hstep.
  { intros log c. unfold f, cref_find.
    by destruct (m_node st !! c), (m_chcid st !! c). }
  induction ids as [|c ids IH]; intros log.
  - left. split; [constructor|]. exists []. by rewrite app_nil_r.
  - cbn [foldlM]. rewrite Hstep.
    destruct (m_node st !! c) as [node|] eqn:En;
      [|right; split; [left; by left|done]].
    destruct (m_chcid st !! c) as [chcid|] eqn:Ec;
      [|right; split; [left; by right|done]].
    cbn [mbind res_bind].
    destruct (IH (log ++ [InsertWorker c node chcid mype]))
      as [[Hall (workers & -> & Hw)]|[Hex ->]].
    + left. split.
      * constructor; [|done]. rewrite En, Ec. by split; eexists.
      * exists (InsertWorker c node chcid mype :: workers).
        split; [by rewrite <- app_assoc|].
        constructor; [|done]. exists node, chcid. by rewrite En, Ec.
    + right. split; [by right|done].
Qed.

Lemma create_eq (nchare npes mype : Z) (st : Partitioner) (owned : list Z) :
  owned_chares nchare npes mype = Ret owned ->
  create nchare npes mype st =
    (log ← foldlM (fun log cid =>
                     node ← cref_find (m_node st) cid;
                     chcid ← cref_find (m_chcid st) cid;
                     Ret (log ++ [InsertWorker cid node chcid mype]))
                  [Avecost (cost (m_lower st) (m_upper st) st)] owned;
     Ret (log ++ [DoneInserting;
                  MergerBounds mype (m_lower st) (m_upper st)])).
Proof.
  unfold owned_chares, chareDistribution, create. intros Ho.
  destruct (Cxx.int_div nchare npes) as [chunk|e]; [|done].
  cbn [mbind res_bind] in *.
  destruct (if mype =? npes - 1
            then r ← Cxx.int_rem nchare npes; Ret (chunk + r)
            else Ret chunk) as [mync|e]; [|done].
  cbn [mbind res_bind] in *. injection Ho as <-.
  change (map ?f ?l) with (f <$> l).
  by rewrite <- (foldlM_fmap _ (fun c => mype * chunk + Z.of_nat c)).
Qed.

(** X23. [create] inserts one worker for each chare the PE owns, in the
    order of their IDs and on this PE, each with the chare's node IDs
    from [m_node] and its map from [m_chcid], between the cost signal and
    [doneInserting] and the bounds broadcast. It does so exactly when
    both maps have every owned chare; when one of them lacks one,
    [create] stops in [tk::cref_find]. *)
Theorem create_inserts_owned_chares (nchare npes mype : Z) (st : Partitioner)
    (owned : list Z) :
  owned_chares nchare npes mype = Ret owned ->
  ((forall c, c ∈ owned ->
      is_Some (m_node st !! c) /\ is_Some (m_chcid st !! c)) /\
   exists workers,
     create nchare npes mype st
     = Ret ([Avecost (cost (m_lower st) (m_upper st) st)] ++ workers ++
            [DoneInserting; MergerBounds mype (m_lower st) (m_upper st)]) /\
     Forall2 (fun c w => exists node chcid,
                m_node st !! c = Some node /\ m_chcid st !! c = Some chcid /\
                w = InsertWorker c node chcid mype) owned workers) \/
  ((exists c, c ∈ owned /\
              (m_node st !! c = None \/ m_chcid st !! c = None)) /\
   create nchare npes mype st = Fail KeyNotFound).
Proof.
  intros Ho. rewrite (create_eq _ _ _ _ _ Ho).
  destruct (create_loop mype st owned
              [Avecost (cost (m_lower st) (m_upper st) st)])
    as [[Hall (workers & -> & Hw)]|[Hex ->]].
  - left. split; [by apply Forall_forall|]. exists workers.
    split; [|done]. cbn [mbind res_bind]. by rewrite <- app_assoc.
  - right. split; [|done]. apply Exists_exists in Hex as (c & Hc & Hno).
    by exists c.
Qed.

Lemma create_inserts_owned_chares_witness :
  ((forall c, c ∈ [1] ->
      is_Some (m_node pe1_answered !! c) /\
      is_Some (m_chcid pe1_answered !! c)) /\
   exists workers,
     create 2 2 1 pe1_answered
     = Ret ([Avecost (cost (m_lower pe1_answered) (m_upper pe1_answered)
                           pe1_answered)] ++ workers ++
            [DoneInserting;
             MergerBounds 1 (m_lower pe1_answered) (m_upper pe1_answered)]) /\
     Forall2 (fun c w => exists node chcid,
                m_node pe1_answered !! c = Some node /\
                m_chcid pe1_answered !! c = Some chcid /\
                w = InsertWorker c node chcid 1) [1] workers) \/
  ((exists c, c ∈ [1] /\
              (m_node pe1_answered !! c = None \/
               m_chcid pe1_answered !! c = None)) /\
   create 2 2 1 pe1_answered = Fail KeyNotFound).
Proof.
  apply (create_inserts_owned_chares 2 2 1 pe1_answered [1]).
  by vm_compute.
Defined.

(** X24. With at least one chare per PE, the workers [create] inserts are
    where [pe] says: a chare in [0, m_nchare) is inserted by [create] on
    a PE exactly when [pe] names that PE for it, so [add] and [create]
    agree on the owner and no chare is created twice. [create] inserts
    no chare outside [0, m_nchare) and none on another PE. *)
Theorem create_places_workers_by_pe (nchare npes mype : Z) (st : Partitioner)
    (log : list create_effect) :
  1 <= npes -> npes <= nchare -> 0 <= mype < npes ->
  create nchare npes mype st = Ret log ->
  (forall c, 0 <= c < nchare ->
     (exists node chcid, InsertWorker c node chcid mype ∈ log) <->
     pe nchare npes c = Ret mype) /\
  (forall c node chcid onpe, InsertWorker c node chcid onpe ∈ log ->
     onpe = mype /\ 0 <= c < nchare /\
     m_node st !! c = Some node /\ m_chcid st !! c = Some chcid).
Proof.
  intros Hp Hc Hme Hrun.
  destruct (owned_chares_eq nchare npes mype) as (owned & Ho & Hin); [lia..|].
  assert (forall c, c ∈ owned -> 0 <= c < nchare) as Hrange.
  { intros c Hco%Hin.
    pose proof (Z.div_mod nchare npes ltac:(lia)) as Hdm.
    pose proof (Z.mod_pos_bound nchare npes ltac:(lia)) as Hmb.
    assert (0 <= nchare / npes) by (apply Z.div_pos; lia).
    destruct (Z.eqb_spec mype (npes - 1)); nia. }
  rewrite (create_eq _ _ _ _ _ Ho) in Hrun.
  destruct (create_loop mype st owned
              [Avecost (cost (m_lower st) (m_upper st) st)])
    as [[Hall (workers & Hloop & Hw)]|[_ Hfail]];
    [|by rewrite Hfail in Hrun].
  rewrite Hloop in Hrun. injection Hrun as <-.
  assert (forall c node chcid onpe,
            InsertWorker c node chcid onpe
              ∈ ([Avecost (cost (m_lower st) (m_upper st) st)] ++ workers)
                ++ [DoneInserting;
                    MergerBounds mype (m_lower st) (m_upper st)] <->
            InsertWorker c node chcid onpe ∈ workers) as Hlog.
  { intros c node chcid onpe. rewrite !elem_of_app. split; [|by auto].
    intros [[Hin'|Hin']|Hin']; [|done|].
    - by apply list_elem_of_singleton in Hin'.
    - apply elem_of_cons in Hin' as [|Hin']; [done|].
      by apply list_elem_of_singleton in Hin'. }
  assert (forall c node chcid onpe, InsertWorker c node chcid onpe ∈ workers ->
            onpe = mype /\ c ∈ owned /\
            m_node st !! c = Some node /\ m_chcid st !! c = Some chcid)
    as Hworker.
  { intros c node chcid onpe (i & Hi)%list_elem_of_lookup.
    destruct (Forall2_lookup_r _ _ _ _ _ Hw Hi)
      as (c' & Hc' & node' & chcid' & Hn & Hch & [= -> -> -> ->]).
    split; [done|]. split; [|done]. by apply list_elem_of_lookup; exists i. }
  split.
  - intros c Hcr.
    destruct (pe_owned_iff nchare npes c mype) as (owned' & Ho' & Hiff);
      [done..|].
    assert (owned' = owned) as -> by congruence.
    rewrite Hiff. split.
    + intros (node & chcid & Hw'%Hlog). by apply Hworker in Hw' as (_ & ? & _).
    + intros (i & Hi)%list_elem_of_lookup.
      destruct (Forall2_lookup_l _ _ _ _ _ Hw Hi)
        as (w & Hwi & node & chcid & _ & _ & ->).
      exists node, chcid. apply Hlog. by apply list_elem_of_lookup; exists i.
  - intros c node chcid onpe Hw'%Hlog.
    apply Hworker in Hw' as (-> & Hco & Hn & Hch). by auto.
Qed.

Lemma create_places_workers_by_pe_witness :
  (forall c, 0 <= c < 2 ->
     (exists node chcid,
        InsertWorker c node chcid 1
          ∈ [Avecost (Some (0 # 4)%Q);
             InsertWorker 1 [4; 5; 6; 7]%N
               {[ 4%N := 7%N; 5%N := 8%N; 6%N := 9%N; 7%N := 10%N ]} 1;
             DoneInserting; MergerBounds 1 0 8]) <->
     pe 2 2 c = Ret 1) /\
  (forall c node chcid onpe,
     InsertWorker c node chcid onpe
       ∈ [Avecost (Some (0 # 4)%Q);
          InsertWorker 1 [4; 5; 6; 7]%N
            {[ 4%N := 7%N; 5%N := 8%N; 6%N := 9%N; 7%N := 10%N ]} 1;
          DoneInserting; MergerBounds 1 0 8] ->
     onpe = 1 /\ 0 <= c < 2 /\
     m_node pe1_answered !! c = Some node /\
     m_chcid pe1_answered !! c = Some chcid).
Proof.
  apply (create_places_workers_by_pe 2 2 1 pe1_answered); [lia..|].
  by vm_compute.
Defined.

(** ** Bounds and cost together *)

(** What [reordered] leaves, with the upper bound its call of [bounds]
    computes. *)
Lemma reordered_upper (mype npes : Z) (st st' : Partitioner)
    (log : list effect) :
  reordered mype npes st = Ret (st', log) ->
  exists u,
    bounds_upper (m_chcid st') = Ret u /\
    m_upper st' = (if mype =? npes - 1 then Cxx.incr u else u) /\
    build_chcid (m_newid st) (m_node st) (m_chcid st) = Ret (m_chcid st') /\
    renumber (m_newid st) (m_id st) = Ret (m_id st').
Proof.
  intros Hrun. pose proof Hrun as (Hch & _ & Hid)%reordered_parts.
  unfold reordered in Hrun.
  apply res_bind_ret in Hrun as (chcid & _ & Hrun).
  apply res_bind_ret in Hrun as (node & _ & Hrun).
  apply res_bind_ret in Hrun as (id & _ & Hrun).
  pose proof Hrun as (u & Hu & Hup & _ & Hsame & _)%bounds_ret.
  rewrite <- Hsame in Hu. by exists u.
Qed.

(** X25. On every PE but the last, the cost [cost] computes after
    [reordered] is never zero, whatever lower bound arrives: [bounds]
    stores the largest new node ID of the PE as [m_upper], [cost] counts a
    node as owned only below [m_upper], and that largest ID is one of the
    PE's renumbered node IDs in [m_id]. *)
Theorem cost_positive_off_last_rank (mype npes : Z) (st st' : Partitioner)
    (log : list effect) :
  reordered mype npes st = Ret (st', log) ->
  mype <> npes - 1 ->
  m_chcid st = ∅ -> m_node st <> ∅ ->
  (forall c nodes p, m_node st !! c = Some nodes -> p ∈ nodes ->
                     p ∈ m_id st) ->
  (N.of_nat (length (m_id st)) < Cxx.SIZE_MOD)%N ->
  m_upper st' ∈ m_id st' /\
  forall low, exists q, cost low (m_upper st') st' = Some q /\ (0 < q)%Q.
Proof.
  intros Hrun Hlast Hfresh Hnode Hflat Hlen.
  apply reordered_upper in Hrun as (u & Hu & Hup & Hch & Hid).
  assert ((mype =? npes - 1) = false) as E by (by apply Z.eqb_neq).
  rewrite E in Hup. rewrite Hup. clear E Hup.
  apply renumber_spec in Hid.
  (* the largest key is the new ID of a node of some chare *)
  assert (exists p, p ∈ m_id st /\ m_newid st !! p = Some u) as (p & Hp & Hpu).
  { destruct (map_choose _ Hnode) as (c0 & nodes0 & Hc0).
    destruct (build_chcid_spec _ _ _ _ c0 nodes0 Hch Hc0) as (m0 & _ & Hm0).
    destruct (bounds_upper_cases (m_chcid st'))
      as [[Hne _]|[_ Hfail]]; [|congruence].
    rewrite Forall_forall in Hne.
    assert (m0 <> ∅) as Hm0ne
      by (apply (Hne (c0, m0)); by apply elem_of_map_to_list).
    destruct (map_choose _ Hm0ne) as (k0 & p0 & Hk0).
    destruct (bounds_upper_max _ _ Hu) as [[(c & m & Hcm & [q Hq]) _]|[Hno _]].
    2: { destruct (Hno k0). exists c0, m0. split; [done|by exists p0]. }
    destruct (m_node st !! c) as [nodes|] eqn:Hc.
    - destruct (build_chcid_spec _ _ _ _ c nodes Hch Hc) as (m' & Hinv & Hm').
      assert (m' = m) as -> by congruence.
      rewrite Hfresh, lookup_empty in Hinv. cbn [default] in Hinv.
      destruct (invert_nodes_entries _ _ _ _ _ _ Hinv Hq) as [Hq'|[Hin Hnew]];
        [by rewrite lookup_empty in Hq'|].
      exists q. split; [by apply (Hflat c nodes)|done].
    - exfalso. unfold build_chcid in Hch.
      rewrite (build_chcid_loop_other _ _ c _ _ Hch) in Hcm.
      + by rewrite Hfresh, lookup_empty in Hcm.
      + intros ([c' v'] & -> & Hin%elem_of_map_to_list)%list_elem_of_fmap.
        cbn in Hc. congruence. }
  assert (u ∈ m_id st') as Hu'.
  { apply list_elem_of_lookup in Hp as (i & Hi).
    destruct (Forall2_lookup_l _ _ _ _ _ Hid Hi) as (q & Hq & Hpq).
    assert (q = u) as -> by congruence.
    by apply list_elem_of_lookup; exists i. }
  split; [done|]. intros low.
  assert (length (m_id st') = length (m_id st)) as Hlen'
    by (symmetry; by apply Forall2_length in Hid).
  rewrite cost_eq by (rewrite Hlen'; done). unfold real_div.
  set (out := List.filter (fun p => negb (in_bounds low u p)) (m_id st')).
  assert (u ∈ out) as Hout.
  { apply list_elem_of_In, List.filter_In. split; [by apply list_elem_of_In|].
    unfold in_bounds. rewrite N.ltb_irrefl. by rewrite andb_false_r. }
  assert (0 < length out)%nat as Hpos1
    by (destruct out; [by apply elem_of_nil in Hout|cbn; lia]).
  assert (0 < length (m_id st'))%nat as Hpos2
    by (destruct (m_id st'); [by apply elem_of_nil in Hu'|cbn; lia]).
  destruct (N.eqb_spec (N.of_nat (length (m_id st'))) 0) as [|_]; [lia|].
  eexists. split; [done|].
  apply Qlt_shift_div_l.
  - unfold Qlt. cbn. lia.
  - unfold Qlt. cbn. lia.
Qed.

Lemma cost_positive_off_last_rank_witness :
  m_upper pe0_done ∈ m_id pe0_done /\
  forall low, exists q, cost low (m_upper pe0_done) pe0_done = Some q /\
                        (0 < q)%Q.
Proof.
  apply (cost_positive_off_last_rank 0 2 pe0_assigned pe0_done
           [Sdag trigger_upper; Sdag trigger_lower; Send 1 (MsgLower 3)]).
  - exact reordered_pe0.
  - lia.
  - done.
  - by vm_compute.
  - intros c nodes p Hc Hp. destruct (decide (c = 0)) as [->|Hne].
    + vm_compute in Hc. injection Hc as <-. exact Hp.
    + exfalso. revert Hc. unfold pe0_assigned. cbn [m_node].
      by rewrite lookup_singleton_ne.
  - by vm_compute.
Defined.

(** ** From the partitioner's answer to the distributed node groups *)

Lemma chareNodes_elem (gelemid tet che : list N) (nodes : gmap Z (list N))
    (e : nat) :
  chareNodes gelemid tet che = Ret nodes -> (e < length che)%nat ->
  exists before after,
    nodes !! elem_chare che e = Some (before ++ elem_nodes tet e ++ after).
Proof.
  intros H He. unfold chareNodes in H.
  repeat (apply res_bind_ret in H as ([] & _ & H)). injection H as <-.
  exists (concat (elem_nodes tet
                    <$> elems_of che (elem_chare che e) (seq 0 e))),
         (concat (elem_nodes tet
                    <$> elems_of che (elem_chare che e)
                          (seq (S e) (length che - S e)))).
  rewrite categorize_lookup, elems_of_split by done.
  destruct (elems_of che (elem_chare che e) (seq 0 e)) as [|e0 es0];
    cbn [app]; rewrite ?fmap_cons, ?concat_cons, ?fmap_app, ?concat_app,
      ?fmap_cons, ?concat_cons; [done|by rewrite <- !app_assoc].
Qed.

(** X26. [partition] loses no element: when it returns on a PE that holds
    no node group yet, the four node IDs of every element of the PE's
    chunk are, in the vector of the chare the partitioner gave the
    element, either in [m_node] (the chare is owned) or in the [add]
    message to the PE that [pe] names for the chare. *)
Theorem partition_keeps_every_element (nchare npes mype : Z)
    (gelemid tet che : list N) (node' : gmap Z (list N)) (npe : N)
    (log : list Distribution.dist_effect) :
  partition nchare npes mype gelemid tet che ∅ = Ret (node', npe, log) ->
  length che = length gelemid /\ length che = (length tet / 4)%nat /\
  exists owned,
    owned_chares nchare npes mype = Ret owned /\
    forall e, (e < length che)%nat ->
      exists before after,
        (elem_chare che e ∈ owned /\
         node' !! elem_chare che e
         = Some (before ++ elem_nodes tet e ++ after)) \/
        ((elem_chare che e ∉ owned) /\
         exists p m,
           pe nchare npes (elem_chare che e) = Ret p /\
           Distribution.DSend p (Distribution.MsgAdd mype m) ∈ log /\
           m !! elem_chare che e
           = Some (before ++ elem_nodes tet e ++ after)).
Proof.
  unfold partition. intros Hrun.
  apply res_bind_ret in Hrun as ([] & _ & Hrun).
  apply res_bind_ret in Hrun as (n & Hn & Hrun).
  assert (length che = length gelemid /\ length che = (length tet / 4)%nat)
    as [Hl1 Hl2].
  { unfold chareNodes, Assert in Hn.
    destruct (Nat.eqb_spec (length che) (length gelemid)); [|done].
    destruct (Nat.eqb_spec (length che) (length tet / 4)); [|done].
    done. }
  split; [done|]. split; [done|].
  apply distribute_ret in Hrun
    as (owned & n' & exp & Ho & Hn' & Hnode & Hexp & -> & ->).
  assert (forall c v, n' !! c = Some v -> exists p, pe nchare npes c = Ret p)
    as Hret by (intros c v; by apply export_map_pe_returns with exp).
  apply export_map_spec in Hexp as [Hent _].
  exists owned. split; [done|]. intros e He.
  destruct (chareNodes_elem _ _ _ _ e Hn He) as (before & after & Hc).
  exists before, after.
  destruct (decide (elem_chare che e ∈ owned)) as [Hin|Hout].
  - left. split; [done|].
    by rewrite Hnode, lookup_empty, decide_True.
  - right. split; [done|].
    assert (n' !! elem_chare che e
            = Some (before ++ elem_nodes tet e ++ after)) as Hc'
      by (by rewrite Hn', decide_False).
    destruct (Hret _ _ Hc') as [p Hpe].
    destruct (proj2 (Hent p _ _) (conj Hc' Hpe)) as (m & Hm & Hmc).
    exists p, m. split; [done|]. split; [|done].
    apply distribute_log_elem. left. by exists p, m.
Qed.

(** X26 on PE 0 of two for the two tetrahedra 5 6 7 8 and 7 8 9 10, the
    first given to chare 0 and the second to chare 1. *)
Lemma partition_keeps_every_element_witness :
  length [0; 1]%N = length [0; 1]%N /\
  length [0; 1]%N = (length [5; 6; 7; 8; 7; 8; 9; 10]%N / 4)%nat /\
  exists owned,
    owned_chares 2 2 0 = Ret owned /\
    forall e, (e < length [0; 1]%N)%nat ->
      exists before after,
        (elem_chare [0; 1]%N e ∈ owned /\
         ({[ 0 := [5; 6; 7; 8]%N ]} : gmap Z (list N))
           !! elem_chare [0; 1]%N e
         = Some (before ++ elem_nodes [5; 6; 7; 8; 7; 8; 9; 10]%N e
                   ++ after)) \/
        ((elem_chare [0; 1]%N e ∉ owned) /\
         exists p m,
           pe 2 2 (elem_chare [0; 1]%N e) = Ret p /\
           Distribution.DSend p (Distribution.MsgAdd 0 m)
             ∈ [Distribution.DSend 1
                  (Distribution.MsgAdd 0 {[ 1 := [7; 8; 9; 10]%N ]})] /\
           m !! elem_chare [0; 1]%N e
           = Some (before ++ elem_nodes [5; 6; 7; 8; 7; 8; 9; 10]%N e
                     ++ after)).
Proof.
  apply (partition_keeps_every_element 2 2 0 [0; 1]%N
           [5; 6; 7; 8; 7; 8; 9; 10]%N [0; 1]%N
           {[ 0 := [5; 6; 7; 8]%N ]} 1
           [Distribution.DSend 1
              (Distribution.MsgAdd 0 {[ 1 := [7; 8; 9; 10]%N ]})]).
  by vm_compute.
Defined.

(** ** Flattening *)

Lemma flatten_ids_elem (l : list (Z * list N)) :
  forall (id : list N) (x : N),
  x ∈ foldl (fun id (c : Z * list N) => id ++ c.2) id l <->
  x ∈ id \/ exists c, c ∈ l /\ x ∈ c.2.
Proof.
  induction l as [|c l IH]; intros id x; cbn [foldl].
  - split; [by left|]. intros [|(c & Hc%elem_of_nil & _)]; done.
  - rewrite IH, elem_of_app. split.
    + intros [[Hx|Hx]|(c' & Hc' & Hx)].
      * by left.
      * right. exists c. split; [by left|done].
      * right. exists c'. split; [by right|done].
    + intros [Hx|(c' & [->|Hc']%elem_of_cons & Hx)].
      * by left; left.
      * by left; right.
      * right. by exists c'.
Qed.

Lemma flatten_ret (unique : list N -> list N) (nchare npes mype : Z)
    (st st1 : Partitioner) (log : list flatten_effect) :
  flatten unique nchare npes mype st = Ret (st1, log) ->
  exists chunk mync,
    chareDistribution nchare npes mype = Ret (chunk, mync) /\
    N.of_nat (size (m_node st)) = static_cast_size_t mync /\
    st1 = mkPartitioner (m_req st) (m_reordered st) (m_lower st) (m_upper st)
            (m_node st) (m_id st1) (m_newid st) (m_chcid st) /\
    m_id st1 = unique (foldl (fun id (c : Z * list N) => id ++ c.2)
                             (m_id st) (map_to_list (m_node st))) /\
    log = [Signal2host_flatten_complete; Signal2host_addnodes (m_id st1)].
Proof.
  unfold flatten. intros Hrun.
  apply res_bind_ret in Hrun as ([chunk mync] & Hd & Hrun).
  apply res_bind_ret in Hrun as ([] & Ha & [= <- <-]).
  exists chunk, mync. split; [done|]. split; [|done].
  unfold Assert in Ha.
  by destruct (N.eqb_spec (N.of_nat (size (m_node st)))
                 (static_cast_size_t mync)).
Qed.

(** X27. [flatten] leaves what [reorder] needs. On a freshly constructed
    object whose node groups are non-empty, and for a [tk::unique] that
    returns the elements of its argument each once, [m_id] after
    [flatten] holds exactly the node IDs of the PE's chares, each once;
    [reorder] then returns, every node of every chare has a new ID, and
    the chare's map in [m_chcid] takes that new ID back to the node. *)
Theorem flatten_prepares_reorder (unique : list N -> list N)
    (nchare npes mype : Z) (n : N) (comm : gmap Z (gset N))
    (st st1 : Partitioner) (log1 : list flatten_effect) :
  makes_unique unique ->
  m_id st = [] -> m_newid st = ∅ -> m_reordered st = 0%N -> m_chcid st = ∅ ->
  (forall c nodes, m_node st !! c = Some nodes -> nodes <> []) ->
  flatten unique nchare npes mype st = Ret (st1, log1) ->
  (n < Cxx.SIZE_MOD)%N ->
  (N.of_nat (length (m_id st1)) < Cxx.SIZE_MOD)%N ->
  (n + N.of_nat (length (m_id st1)) <= Cxx.SIZE_MOD)%N ->
  NoDup (m_id st1) /\
  (forall p, p ∈ m_id st1 <->
             exists c nodes, m_node st !! c = Some nodes /\ p ∈ nodes) /\
  exists st2 log2,
    reorder mype npes n comm st1 = Ret (st2, log2) /\
    forall c nodes p,
      m_node st !! c = Some nodes -> p ∈ nodes ->
      exists newp m,
        m_newid st2 !! p = Some newp /\
        m_chcid st2 !! c = Some m /\
        m !! newp = Some p.
Proof.
  intros Huniq Hid Hnew Hre Hch Hne Hrun Hn Hlen Hfit.
  apply flatten_ret in Hrun as (chunk & mync & _ & _ & Hst1 & Hid1 & _).
  assert (forall p, p ∈ m_id st1 <->
            exists c nodes, m_node st !! c = Some nodes /\ p ∈ nodes) as Hmem.
  { intros p. rewrite Hid1. rewrite (proj2 (Huniq _)), flatten_ids_elem, Hid.
    split.
    - intros [Hp|([c nodes] & Hc%elem_of_map_to_list & Hp)];
        [by apply elem_of_nil in Hp|]. by exists c, nodes.
    - intros (c & nodes & Hc & Hp). right. exists (c, nodes).
      split; [by apply elem_of_map_to_list|done]. }
  assert (NoDup (m_id st1)) as Hnd by (rewrite Hid1; apply Huniq).
  split; [done|]. split; [done|].
  assert (m_node st1 = m_node st /\ m_newid st1 = m_newid st /\
          m_reordered st1 = m_reordered st /\ m_chcid st1 = m_chcid st)
    as (En & Ei & Er & Ec) by (by rewrite Hst1).
  destruct (reorder_round_trip mype npes n comm st1)
    as (st2 & log2 & Hrun2 & Hrt); try congruence.
  - intros c nodes p Hc Hp. rewrite En in Hc. apply Hmem. by exists c, nodes.
  - intros c nodes Hc. rewrite En in Hc. by apply (Hne c).
  - exists st2, log2. split; [done|]. intros c nodes p Hc Hp.
    apply (Hrt c nodes p); [by rewrite En|done].
Qed.

Lemma flatten_prepares_reorder_witness :
  NoDup (m_id pe0_flat) /\
  (forall p, p ∈ m_id pe0_flat <->
     exists c nodes,
       m_node (mkPartitioner [] 0 0 0 {[ 0 := [5; 6; 7; 8]%N ]} [] ∅ ∅) !! c
       = Some nodes /\ p ∈ nodes) /\
  exists st2 log2,
    reorder 0 2 0 ∅ pe0_flat = Ret (st2, log2) /\
    forall c nodes p,
      m_node (mkPartitioner [] 0 0 0 {[ 0 := [5; 6; 7; 8]%N ]} [] ∅ ∅) !! c
      = Some nodes -> p ∈ nodes ->
      exists newp m,
        m_newid st2 !! p = Some newp /\
        m_chcid st2 !! c = Some m /\
        m !! newp = Some p.
Proof.
  apply (flatten_prepares_reorder remove_dups 2 2 0 0 ∅
           (mkPartitioner [] 0 0 0 {[ 0 := [5; 6; 7; 8]%N ]} [] ∅ ∅) pe0_flat
           [Signal2host_flatten_complete;
            Signal2host_addnodes [5; 6; 7; 8]%N]);
    try done.
  - intros l. split; [apply NoDup_remove_dups|].
    intros x. apply elem_of_remove_dups.
  - intros c nodes Hc. cbn [m_node] in Hc.
    apply lookup_singleton_Some in Hc as [_ <-]. done.
Defined.

(** X28. The assertion of [flatten] compares only the number of node
    groups with the number of owned chares. On a PE whose groups all
    belong to chares it owns, which is what [distribute] and [add] leave,
    that is enough: [flatten] returns exactly when [m_node] has a group
    for every owned chare, and stops with its assertion when one is
    missing. *)
Theorem flatten_guard_iff_all_owned_present (unique : list N -> list N)
    (nchare npes mype : Z) (st : Partitioner) (owned : list Z) :
  1 <= npes -> 0 <= nchare < 2 ^ 31 ->
  owned_chares nchare npes mype = Ret owned ->
  (forall c, is_Some (m_node st !! c) -> c ∈ owned) ->
  ((forall c, c ∈ owned -> is_Some (m_node st !! c)) /\
   exists st1 log, flatten unique nchare npes mype st = Ret (st1, log)) \/
  ((exists c, c ∈ owned /\ m_node st !! c = None) /\
   flatten unique nchare npes mype st
   = Fail (AssertFailed (flatten_msg mype))).
Proof.
  intros Hp Hc Ho Hkeys.
  unfold owned_chares in Ho. unfold flatten.
  rewrite chareDistribution_eq in * by lia. cbn [mbind res_bind] in *.
  injection Ho as <-.
  set (chunk := nchare / npes) in *.
  set (mync := if mype =? npes - 1 then chunk + nchare mod npes else chunk)
    in *.
  set (owned := map (fun c => mype * chunk + Z.of_nat c)
                    (seq 0 (Z.to_nat mync))) in *.
  pose proof (Z.div_mod nchare npes ltac:(lia)) as Hdm.
  pose proof (Z.mod_pos_bound nchare npes ltac:(lia)) as Hmb.
  assert (0 <= chunk) as Hq by (apply Z.div_pos; lia).
  assert (chunk <= nchare) as Hle by (apply Z.div_le_upper_bound; nia).
  assert (0 <= mync < 2 ^ 31) as Hmync.
  { unfold mync. destruct (mype =? npes - 1); [|lia]. fold chunk in Hdm. nia. }
  assert (NoDup owned) as Hnd.
  { apply NoDup_fmap_2_strong; [|apply NoDup_seq]. intros x y _ _. lia. }
  assert (length owned = Z.to_nat mync) as Hlen
    by (unfold owned; by rewrite length_map, length_seq).
  assert (dom (m_node st) ⊆ (list_to_set owned : gset Z)) as Hsub.
  { intros c Hcd%elem_of_dom. apply elem_of_list_to_set. by apply Hkeys. }
  assert (size (list_to_set owned : gset Z) = length owned) as Hsize
    by (by apply size_list_to_set).
  rewrite static_cast_size_t_small by lia.
  unfold Assert.
  destruct (N.eqb_spec (N.of_nat (size (m_node st))) (Z.to_N mync))
    as [E|E]; cbn [mbind res_bind].
  - left. split; [|by eexists _, _].
    intros c Hco. apply elem_of_dom.
    assert (dom (m_node st) = (list_to_set owned : gset Z)) as Heq.
    { apply set_subseteq_size_eq; [done|]. rewrite size_dom. lia. }
    rewrite Heq. by apply elem_of_list_to_set.
  - right. split; [|done].
    destruct (decide (Forall (fun c => is_Some (m_node st !! c)) owned))
      as [Hall|Hno].
    + exfalso. apply E.
      assert (dom (m_node st) = (list_to_set owned : gset Z)) as Heq.
      { apply set_eq. intros c. split; [apply Hsub|].
        intros Hco%elem_of_list_to_set. apply elem_of_dom.
        rewrite Forall_forall in Hall. by apply Hall. }
      rewrite <- size_dom, Heq, Hsize. lia.
    + apply not_Forall_Exists in Hno; [|apply _].
      apply Exists_exists in Hno as (c & Hco & Hnone).
      exists c. split; [done|]. by apply eq_None_not_Some.
Qed.

Lemma flatten_guard_iff_all_owned_present_witness :
  ((forall c, c ∈ [0] ->
      is_Some (m_node (mkPartitioner [] 0 0 0 {[ 0 := [5; 6; 7; 8]%N ]}
                         [] ∅ ∅) !! c)) /\
   exists st1 log,
     flatten remove_dups 2 2 0
       (mkPartitioner [] 0 0 0 {[ 0 := [5; 6; 7; 8]%N ]} [] ∅ ∅)
     = Ret (st1, log)) \/
  ((exists c, c ∈ [0] /\
      m_node (mkPartitioner [] 0 0 0 {[ 0 := [5; 6; 7; 8]%N ]} [] ∅ ∅) !! c
      = None) /\
   flatten remove_dups 2 2 0
     (mkPartitioner [] 0 0 0 {[ 0 := [5; 6; 7; 8]%N ]} [] ∅ ∅)
   = Fail (AssertFailed (flatten_msg 0))).
Proof.
  apply (flatten_guard_iff_all_owned_present remove_dups 2 2 0
           (mkPartitioner [] 0 0 0 {[ 0 := [5; 6; 7; 8]%N ]} [] ∅ ∅) [0]);
    [lia|lia|by vm_compute|].
  intros c [v Hc]. cbn [m_node] in Hc.
  apply lookup_singleton_Some in Hc as [<- _]. by left.
Defined.
